(** * graph_nets.modules: a shallow embedding and its verified properties

    The development follows [graph_nets/modules.py].  Tensors are dense
    arrays of real numbers (the idealisation of TensorFlow's floating point
    tensors); the first axis is kept as a list of rows and the remaining
    axes are recorded as a static shape, so that a tensor with zero rows
    still knows the shape of its rows, as a TensorFlow tensor does.
    Python exceptions are modelled by an error monad.

    What is proved over the reals is proved of the operations and of their
    order; rounding, overflow, underflow and NaN are outside it.  Where a
    property depends on them (the segment softmax under a shift of its
    logits) the function is also given over the arithmetic of a dtype and
    run on binary64 numbers. *)

From Stdlib Require Import Reals Lra Lia List Floats.
From stdpp Require Import gmap strings.
Import ListNotations.

(** ** Exceptions *)

Inductive exn : Type :=
  | ValueError            (* a required GraphsTuple field is None, bad block options *)
  | TypeError             (* unexpected keyword argument, calling a non-callable *)
  | AssertionError        (* a failed [assert] *)
  | KeyError              (* a dictionary has no such key *)
  | InvalidArgumentError. (* raised by a TensorFlow op: bad index or shape *)

Inductive result (A : Type) : Type :=
  | Ok (a : A)
  | Raise (e : exn).
Arguments Ok {A} a.
Arguments Raise {A} e.

Definition bind {A B : Type} (m : result A) (k : A -> result B) : result B :=
  match m with
  | Ok a => k a
  | Raise e => Raise e
  end.

Notation "'do' x <- m ; k" := (bind m (fun x => k))
  (at level 10, x name, m at level 100, k at level 200).

Fixpoint mapM {A B : Type} (f : A -> result B) (l : list A) : result (list B) :=
  match l with
  | [] => Ok []
  | a :: l' => do b <- f a; do bs <- mapM f l'; Ok (b :: bs)
  end.

Definition guard (b : bool) (e : exn) : result unit :=
  if b then Ok tt else Raise e.

(** ** Tensors *)

(** A tensor of shape [length rows :: inner]; every row is the row-major
    flattening of a block of shape [inner].  The entries are real numbers:
    the floats of a TensorFlow tensor without their rounding, overflow,
    underflow and NaN. *)
Record Tensor : Type := mkTensor {
  inner : list nat;
  rows : list (list R)
}.

Definition prod_list (l : list nat) : nat := fold_right Nat.mul 1 l.

Definition rowsize (t : Tensor) : nat := prod_list (inner t).

Definition shape (t : Tensor) : list nat := length (rows t) :: inner t.

Definition wf_tensor (t : Tensor) : Prop :=
  Forall (fun r => length r = rowsize t) (rows t).

Definition list_nat_eqb (a b : list nat) : bool := bool_decide (a = b).

(** The last axis and the axes before it. *)
Definition last_dim (t : Tensor) : nat := List.last (inner t) 1.
Definition lead_dims (t : Tensor) : list nat := removelast (inner t).

(** [chunks d c l] cuts [l] into [c] consecutive pieces of length [d]. *)
Fixpoint chunks (d c : nat) (l : list R) : list (list R) :=
  match c with
  | O => []
  | S c' => firstn d l :: chunks d c' (skipn d l)
  end.

Definition Rsum (l : list R) : R := fold_right Rplus 0%R l.

Definition row_add (a b : list R) : list R := zip_with Rplus a b.
Definition row_max (a b : list R) : list R := zip_with Rmax a b.

(** ** TensorFlow operations used by the module *)

(** [numeric_limits<float>::lowest()], the value [tf.unsorted_segment_max]
    writes into an empty segment. *)
Definition float32_lowest : R := (- ((2 - / 2 ^ 23) * 2 ^ 127))%R.

(** [tf.gather(params, indices)] along axis 0; an index out of range is an
    error, as on the CPU (the GPU kernel does not raise). *)
Definition tf_gather (params : Tensor) (indices : list nat) : result Tensor :=
  do rs <- mapM (fun i => match nth_error (rows params) i with
                          | Some r => Ok r
                          | None => Raise InvalidArgumentError
                          end) indices;
  Ok (mkTensor (inner params) rs).

(** The rows of [data] whose segment id is [s], in order. *)
Definition segment_rows (s : nat) (ids : list nat) (data : list (list R))
  : list (list R) :=
  map snd (List.filter (fun p => Nat.eqb (fst p) s) (combine ids data)).

Definition sum_rows (k : nat) (l : list (list R)) : list R :=
  fold_right row_add (repeat 0%R k) l.

Definition max_rows (k : nat) (l : list (list R)) : list R :=
  match l with
  | [] => repeat float32_lowest k
  | r :: l' => fold_left row_max l' r
  end.

Definition segment_reduce (f : nat -> list (list R) -> list R)
    (data : Tensor) (segment_ids : list nat) (num_segments : nat)
  : result Tensor :=
  do _ <- guard (Nat.eqb (length segment_ids) (length (rows data)))
                InvalidArgumentError;
  do _ <- guard (forallb (fun i => Nat.ltb i num_segments) segment_ids)
                InvalidArgumentError;
  Ok (mkTensor (inner data)
        (map (fun s => f (rowsize data) (segment_rows s segment_ids (rows data)))
             (seq 0 num_segments))).

(** [tf.unsorted_segment_sum]: an empty segment gives a row of zeros.  A
    segment id that is not below [num_segments] is an error, as on the CPU
    (the GPU kernel does not raise). *)
Definition tf_unsorted_segment_sum := segment_reduce sum_rows.

(** [tf.unsorted_segment_max]: an empty segment gives the lowest value. *)
Definition tf_unsorted_segment_max := segment_reduce max_rows.

(** Elementwise binary operation on tensors of the same shape. *)
Definition tf_elementwise (op : R -> R -> R) (a b : Tensor) : result Tensor :=
  do _ <- guard (list_nat_eqb (shape a) (shape b)) InvalidArgumentError;
  Ok (mkTensor (inner a) (zip_with (zip_with op) (rows a) (rows b))).

Definition tf_sub := tf_elementwise Rminus.
Definition tf_div := tf_elementwise Rdiv.

Definition tf_exp (a : Tensor) : Tensor :=
  mkTensor (inner a) (map (map exp) (rows a)).

(** [a * b]: elementwise for equal shapes; when [b] has the shape of [a]
    except for a last axis of size 1, [b] is broadcast along the last axis
    of [a] (the case of [x * w[..., None]]). *)
Definition scale_chunks (d : nat) (ra rb : list R) : list R :=
  concat (zip_with (fun c w => map (fun x => (x * w)%R) c)
                   (chunks d (length rb) ra) rb).

Definition tf_mul (a b : Tensor) : result Tensor :=
  if list_nat_eqb (shape a) (shape b) then
    Ok (mkTensor (inner a) (zip_with (zip_with Rmult) (rows a) (rows b)))
  else if list_nat_eqb (shape b) (length (rows a) :: lead_dims a ++ [1])
          && negb (list_nat_eqb (inner a) []) then
    Ok (mkTensor (inner a)
          (zip_with (scale_chunks (last_dim a)) (rows a) (rows b)))
  else Raise InvalidArgumentError.

(** [tf.reduce_sum(a, axis=-1)] for a tensor of rank at least two. *)
Definition tf_reduce_sum_last (a : Tensor) : result Tensor :=
  match inner a with
  | [] => Raise InvalidArgumentError
  | _ => Ok (mkTensor (lead_dims a)
               (map (fun r => map Rsum (chunks (last_dim a) (prod_list (lead_dims a)) r))
                    (rows a)))
  end.

(** [a[..., None]]: a new last axis of size 1. *)
Definition expand_last (a : Tensor) : Tensor :=
  mkTensor (inner a ++ [1]) (rows a).

(** [tf.reduce_sum] of an integer vector. *)
Definition tf_reduce_sum_int (l : list nat) : nat := fold_right Nat.add 0 l.

(** ** GraphsTuple *)

(** Modelled from the spec: [graphs.GraphsTuple] (graphs.py is not among the
    sources).  Section 3: feature fields and connectivity may be absent,
    [n_node] and [n_edge] give the per-graph sizes, and [replace] builds a new
    value in which only the named fields change. *)
Record GraphsTuple : Type := mkGraphsTuple {
  nodes : option Tensor;
  edges : option Tensor;
  receivers : option (list nat);
  senders : option (list nat);
  globals : option Tensor;
  n_node : list nat;
  n_edge : list nat
}.

Definition replace_nodes (g : GraphsTuple) (v : option Tensor) : GraphsTuple :=
  mkGraphsTuple v (edges g) (receivers g) (senders g) (globals g)
                (n_node g) (n_edge g).

Definition replace_edges (g : GraphsTuple) (v : option Tensor) : GraphsTuple :=
  mkGraphsTuple (nodes g) v (receivers g) (senders g) (globals g)
                (n_node g) (n_edge g).

Definition replace_globals (g : GraphsTuple) (v : option Tensor) : GraphsTuple :=
  mkGraphsTuple (nodes g) (edges g) (receivers g) (senders g) v
                (n_node g) (n_edge g).

(** A user-supplied model (a Sonnet module) and a reducer with the signature
    of [tf.unsorted_segment_sum]. *)
Definition model : Type := Tensor -> result Tensor.
Definition reducer : Type := Tensor -> list nat -> nat -> result Tensor.

(** ** blocks.py *)

Definition require {A : Type} (field : option A) : result A :=
  match field with
  | Some a => Ok a
  | None => Raise ValueError
  end.

(** Modelled from the spec: [blocks.broadcast_sender_nodes_to_edges]
    (blocks.py is not among the sources).  Section 4.2: row [i] is
    [graph.nodes[graph.senders[i]]]; nodes and senders must be present. *)
Definition broadcast_sender_nodes_to_edges (graph : GraphsTuple) : result Tensor :=
  do n <- require (nodes graph);
  do s <- require (senders graph);
  tf_gather n s.

(** Modelled from the spec: [blocks.broadcast_receiver_nodes_to_edges],
    section 4.2: the same, indexed by receivers. *)
Definition broadcast_receiver_nodes_to_edges (graph : GraphsTuple) : result Tensor :=
  do n <- require (nodes graph);
  do r <- require (receivers graph);
  tf_gather n r.

(** [repeat_rows l counts] repeats the i-th element of [l] [counts[i]] times. *)
Fixpoint repeat_rows {A : Type} (l : list A) (counts : list nat) : result (list A) :=
  match l, counts with
  | [], [] => Ok []
  | a :: l', c :: counts' =>
      do rest <- repeat_rows l' counts'; Ok (repeat a c ++ rest)
  | _, _ => Raise InvalidArgumentError
  end.

(** Modelled from the spec: [blocks.broadcast_globals_to_edges], section 4.2:
    each graph's global row is repeated over the edges of that graph. *)
Definition broadcast_globals_to_edges (graph : GraphsTuple) : result Tensor :=
  do gl <- require (globals graph);
  do rs <- repeat_rows (rows gl) (n_edge graph);
  Ok (mkTensor (inner gl) rs).

(** Modelled from the spec: [blocks.broadcast_globals_to_nodes], section 4.2. *)
Definition broadcast_globals_to_nodes (graph : GraphsTuple) : result Tensor :=
  do gl <- require (globals graph);
  do rs <- repeat_rows (rows gl) (n_node graph);
  Ok (mkTensor (inner gl) rs).

(** Modelled from the spec: [blocks.ReceivedEdgesToNodesAggregator], section
    4.3: segmented reduction of edges grouped by receivers, with
    [num_segments = total_nodes]. *)
Definition ReceivedEdgesToNodesAggregator (r : reducer) (graph : GraphsTuple)
  : result Tensor :=
  do e <- require (edges graph);
  do rc <- require (receivers graph);
  r e rc (tf_reduce_sum_int (n_node graph)).

(** Modelled from the spec: [blocks.SentEdgesToNodesAggregator], section 4.3:
    identical but grouped by senders. *)
Definition SentEdgesToNodesAggregator (r : reducer) (graph : GraphsTuple)
  : result Tensor :=
  do e <- require (edges graph);
  do s <- require (senders graph);
  r e s (tf_reduce_sum_int (n_node graph)).

(** The graph index of every row, derived from the partition [counts]. *)
Definition graph_indices (counts : list nat) : result (list nat) :=
  repeat_rows (seq 0 (length counts)) counts.

Definition num_graphs (graph : GraphsTuple) : nat := length (n_node graph).

(** Modelled from the spec: [blocks.EdgesToGlobalsAggregator], section 4.3:
    reduction grouped by the graph each edge belongs to, with
    [num_segments = num_graphs]. *)
Definition EdgesToGlobalsAggregator (r : reducer) (graph : GraphsTuple)
  : result Tensor :=
  do e <- require (edges graph);
  do ids <- graph_indices (n_edge graph);
  r e ids (num_graphs graph).

(** Modelled from the spec: [blocks.NodesToGlobalsAggregator], section 4.3. *)
Definition NodesToGlobalsAggregator (r : reducer) (graph : GraphsTuple)
  : result Tensor :=
  do n <- require (nodes graph);
  do ids <- graph_indices (n_node graph);
  r n ids (num_graphs graph).

(** [tf.concat([a, b], axis=-1)]. *)
Definition concat_last2 (a b : Tensor) : result Tensor :=
  match inner a with
  | [] =>
      do _ <- guard (list_nat_eqb (inner b) []) InvalidArgumentError;
      Ok (mkTensor [] (rows a ++ rows b))
  | _ =>
      do _ <- guard (list_nat_eqb (length (rows a) :: lead_dims a)
                                  (length (rows b) :: lead_dims b)
                     && negb (list_nat_eqb (inner b) []))
                    InvalidArgumentError;
      Ok (mkTensor (lead_dims a ++ [last_dim a + last_dim b])
            (zip_with (fun ra rb =>
                         concat (zip_with app
                                   (chunks (last_dim a) (prod_list (lead_dims a)) ra)
                                   (chunks (last_dim b) (prod_list (lead_dims a)) rb)))
                      (rows a) (rows b)))
  end.

(** [tf.concat(ts, axis=-1)]; the list must not be empty. *)
Fixpoint tf_concat_last (ts : list Tensor) : result Tensor :=
  match ts with
  | [] => Raise ValueError
  | [t] => Ok t
  | t :: ts' => do rest <- tf_concat_last ts'; concat_last2 t rest
  end.

(** ** Block options *)

(** The value of a keyword argument of a block: a flag, a reducer or the
    module name. *)
Inductive optval : Type :=
  | OBool (b : bool)
  | OReducer (r : reducer)
  | OStr (s : string).

(** Python truthiness, as used by [if use_edges:] and [assert]. *)
Definition truthy (v : optval) : bool :=
  match v with
  | OBool b => b
  | OReducer _ => true
  | OStr s => negb (String.eqb s "")
  end.

(** A keyword argument used as a reducer; calling anything else raises. *)
Definition as_reducer (v : optval) : reducer :=
  match v with
  | OReducer r => r
  | _ => fun _ _ _ => Raise TypeError
  end.

(** [kwargs.get(k, d)] read as a flag. *)
Definition flag (kwargs : gmap string optval) (k : string) (d : bool) : bool :=
  truthy (default (OBool d) (kwargs !! k)).

Definition reducer_arg (kwargs : gmap string optval) (k : string) : reducer :=
  as_reducer (default (OReducer tf_unsorted_segment_sum) (kwargs !! k)).

(** Every keyword must be a parameter of the constructor. *)
Definition known_keywords (kwargs : gmap string optval) (allowed : list string)
  : result unit :=
  guard (bool_decide (dom kwargs ⊆ (list_to_set allowed : gset string))) TypeError.

Record EdgeBlock : Type := mkEdgeBlock {
  eb_model : model;
  eb_use_edges : bool;
  eb_use_receiver_nodes : bool;
  eb_use_sender_nodes : bool;
  eb_use_globals : bool
}.

Record NodeBlock : Type := mkNodeBlock {
  nb_model : model;
  nb_use_received_edges : bool;
  nb_use_sent_edges : bool;
  nb_use_nodes : bool;
  nb_use_globals : bool;
  nb_received_edges_reducer : reducer;
  nb_sent_edges_reducer : reducer
}.

Record GlobalBlock : Type := mkGlobalBlock {
  gb_model : model;
  gb_use_edges : bool;
  gb_use_nodes : bool;
  gb_use_globals : bool;
  gb_edges_reducer : reducer;
  gb_nodes_reducer : reducer
}.

(** Modelled from the spec: [blocks.EdgeBlock.__init__] (blocks.py is not
    among the sources).  Section 4.4: flags [use_edges], [use_receiver_nodes],
    [use_sender_nodes], [use_globals], booleans, default true; at least one
    must be true, else construction fails. *)
Definition EdgeBlock_init (edge_model_fn : model) (kwargs : gmap string optval)
  : result EdgeBlock :=
  do _ <- known_keywords kwargs
            ["use_edges"; "use_receiver_nodes"; "use_sender_nodes";
             "use_globals"; "name"];
  let b := mkEdgeBlock edge_model_fn
             (flag kwargs "use_edges" true)
             (flag kwargs "use_receiver_nodes" true)
             (flag kwargs "use_sender_nodes" true)
             (flag kwargs "use_globals" true) in
  do _ <- guard (eb_use_edges b || eb_use_receiver_nodes b
                 || eb_use_sender_nodes b || eb_use_globals b) ValueError;
  Ok b.

(** Modelled from the spec: [blocks.NodeBlock.__init__], section 4.4:
    analogous, with [use_received_edges], [use_sent_edges], [use_nodes],
    [use_globals] (default true) and a reducer for each kind of edges
    (default sum).  Every construction in modules.py passes [use_sent_edges]
    explicitly. *)
Definition NodeBlock_init (node_model_fn : model) (kwargs : gmap string optval)
  : result NodeBlock :=
  do _ <- known_keywords kwargs
            ["use_received_edges"; "use_sent_edges"; "use_nodes"; "use_globals";
             "received_edges_reducer"; "sent_edges_reducer"; "name"];
  let b := mkNodeBlock node_model_fn
             (flag kwargs "use_received_edges" true)
             (flag kwargs "use_sent_edges" true)
             (flag kwargs "use_nodes" true)
             (flag kwargs "use_globals" true)
             (reducer_arg kwargs "received_edges_reducer")
             (reducer_arg kwargs "sent_edges_reducer") in
  do _ <- guard (nb_use_received_edges b || nb_use_sent_edges b
                 || nb_use_nodes b || nb_use_globals b) ValueError;
  Ok b.

(** Modelled from the spec: [blocks.GlobalBlock.__init__], section 4.4:
    analogous, with [use_edges], [use_nodes] (each with its own reducer) and
    [use_globals]. *)
Definition GlobalBlock_init (global_model_fn : model) (kwargs : gmap string optval)
  : result GlobalBlock :=
  do _ <- known_keywords kwargs
            ["use_edges"; "use_nodes"; "use_globals";
             "edges_reducer"; "nodes_reducer"; "name"];
  let b := mkGlobalBlock global_model_fn
             (flag kwargs "use_edges" true)
             (flag kwargs "use_nodes" true)
             (flag kwargs "use_globals" true)
             (reducer_arg kwargs "edges_reducer")
             (reducer_arg kwargs "nodes_reducer") in
  do _ <- guard (gb_use_edges b || gb_use_nodes b || gb_use_globals b) ValueError;
  Ok b.

(** The inputs a block collects: an enabled input is computed, a disabled one
    is left out. *)
Definition collect (use : bool) (input : result Tensor) : result (list Tensor) :=
  if use then do t <- input; Ok [t] else Ok [].

(** Modelled from the spec: [blocks.EdgeBlock._build], section 4.4: the
    concatenation, in the order edges, receiver nodes, sender nodes, globals,
    of the enabled inputs is passed to the model, and the result replaces
    [edges]. *)
Definition EdgeBlock_build (b : EdgeBlock) (graph : GraphsTuple) : result GraphsTuple :=
  do c1 <- collect (eb_use_edges b) (require (edges graph));
  do c2 <- collect (eb_use_receiver_nodes b) (broadcast_receiver_nodes_to_edges graph);
  do c3 <- collect (eb_use_sender_nodes b) (broadcast_sender_nodes_to_edges graph);
  do c4 <- collect (eb_use_globals b) (broadcast_globals_to_edges graph);
  do collected <- tf_concat_last (c1 ++ c2 ++ c3 ++ c4);
  do updated <- eb_model b collected;
  Ok (replace_edges graph (Some updated)).

(** Modelled from the spec: [blocks.NodeBlock._build], section 4.4: received
    edges, sent edges (each aggregated with its reducer), nodes, globals;
    the result replaces [nodes]. *)
Definition NodeBlock_build (b : NodeBlock) (graph : GraphsTuple) : result GraphsTuple :=
  do c1 <- collect (nb_use_received_edges b)
             (ReceivedEdgesToNodesAggregator (nb_received_edges_reducer b) graph);
  do c2 <- collect (nb_use_sent_edges b)
             (SentEdgesToNodesAggregator (nb_sent_edges_reducer b) graph);
  do c3 <- collect (nb_use_nodes b) (require (nodes graph));
  do c4 <- collect (nb_use_globals b) (broadcast_globals_to_nodes graph);
  do collected <- tf_concat_last (c1 ++ c2 ++ c3 ++ c4);
  do updated <- nb_model b collected;
  Ok (replace_nodes graph (Some updated)).

(** Modelled from the spec: [blocks.GlobalBlock._build], section 4.4:
    aggregated edges, aggregated nodes, globals; the result replaces
    [globals]. *)
Definition GlobalBlock_build (b : GlobalBlock) (graph : GraphsTuple) : result GraphsTuple :=
  do c1 <- collect (gb_use_edges b)
             (EdgesToGlobalsAggregator (gb_edges_reducer b) graph);
  do c2 <- collect (gb_use_nodes b)
             (NodesToGlobalsAggregator (gb_nodes_reducer b) graph);
  do c3 <- collect (gb_use_globals b) (require (globals graph));
  do collected <- tf_concat_last (c1 ++ c2 ++ c3);
  do updated <- gb_model b collected;
  Ok (replace_globals graph (Some updated)).

(** ** modules.py *)

Definition _DEFAULT_EDGE_BLOCK_OPT : list (string * optval) :=
  [("use_edges", OBool true);
   ("use_receiver_nodes", OBool true);
   ("use_sender_nodes", OBool true);
   ("use_globals", OBool true)].

Definition _DEFAULT_NODE_BLOCK_OPT : list (string * optval) :=
  [("use_received_edges", OBool true);
   ("use_sent_edges", OBool false);
   ("use_nodes", OBool true);
   ("use_globals", OBool true)].

Definition _DEFAULT_GLOBAL_BLOCK_OPT : list (string * optval) :=
  [("use_edges", OBool true);
   ("use_nodes", OBool true);
   ("use_globals", OBool true)].

(** [dict(opt.items()) if opt else {}]: [None] and the empty dictionary both
    give a fresh empty dictionary. *)
Definition dict_or_empty (opt : option (gmap string optval)) : gmap string optval :=
  match opt with
  | Some d => d
  | None => ∅
  end.

(** [for k, v in defaults.items(): opt[k] = opt.get(k, v)]. *)
Definition fill_defaults (defaults : list (string * optval))
    (opt : gmap string optval) : gmap string optval :=
  fold_left (fun o kv => <[fst kv := default (snd kv) (o !! fst kv)]> o)
            defaults opt.

Definition _make_default_edge_block_opt (edge_block_opt : option (gmap string optval))
  : gmap string optval :=
  fill_defaults _DEFAULT_EDGE_BLOCK_OPT (dict_or_empty edge_block_opt).

Definition _make_default_node_block_opt (node_block_opt : option (gmap string optval))
    (default_reducer : reducer) : gmap string optval :=
  let node_block_opt :=
    fill_defaults _DEFAULT_NODE_BLOCK_OPT (dict_or_empty node_block_opt) in
  fill_defaults [("received_edges_reducer", OReducer default_reducer);
                 ("sent_edges_reducer", OReducer default_reducer)]
                node_block_opt.

Definition _make_default_global_block_opt (global_block_opt : option (gmap string optval))
    (default_reducer : reducer) : gmap string optval :=
  let global_block_opt :=
    fill_defaults _DEFAULT_GLOBAL_BLOCK_OPT (dict_or_empty global_block_opt) in
  fill_defaults [("edges_reducer", OReducer default_reducer);
                 ("nodes_reducer", OReducer default_reducer)]
                global_block_opt.

(** *** InteractionNetwork *)

Record InteractionNetwork : Type := mkInteractionNetwork {
  in_edge_block : EdgeBlock;
  in_node_block : NodeBlock
}.

Definition InteractionNetwork_init (edge_model_fn node_model_fn : model)
    (reducer : reducer) : result InteractionNetwork :=
  do edge_block <- EdgeBlock_init edge_model_fn
                     (list_to_map [("use_globals", OBool false)]);
  do node_block <- NodeBlock_init node_model_fn
                     (list_to_map [("use_sent_edges", OBool false);
                                   ("use_globals", OBool false);
                                   ("received_edges_reducer", OReducer reducer)]);
  Ok (mkInteractionNetwork edge_block node_block).

Definition InteractionNetwork_build (self : InteractionNetwork) (graph : GraphsTuple)
  : result GraphsTuple :=
  do g1 <- EdgeBlock_build (in_edge_block self) graph;
  NodeBlock_build (in_node_block self) g1.

(** *** RelationNetwork *)

Record RelationNetwork : Type := mkRelationNetwork {
  rn_edge_block : EdgeBlock;
  rn_global_block : GlobalBlock
}.

Definition RelationNetwork_init (edge_model_fn global_model_fn : model)
    (reducer : reducer) : result RelationNetwork :=
  do edge_block <- EdgeBlock_init edge_model_fn
                     (list_to_map [("use_edges", OBool false);
                                   ("use_receiver_nodes", OBool true);
                                   ("use_sender_nodes", OBool true);
                                   ("use_globals", OBool false)]);
  do global_block <- GlobalBlock_init global_model_fn
                       (list_to_map [("use_edges", OBool true);
                                     ("use_nodes", OBool false);
                                     ("use_globals", OBool false);
                                     ("edges_reducer", OReducer reducer)]);
  Ok (mkRelationNetwork edge_block global_block).

Definition RelationNetwork_build (self : RelationNetwork) (graph : GraphsTuple)
  : result GraphsTuple :=
  do g1 <- EdgeBlock_build (rn_edge_block self) graph;
  do output_graph <- GlobalBlock_build (rn_global_block self) g1;
  Ok (replace_globals graph (globals output_graph)).

(** *** GraphNetwork *)

Record GraphNetwork : Type := mkGraphNetwork {
  gn_edge_block : EdgeBlock;
  gn_node_block : NodeBlock;
  gn_global_block : GlobalBlock
}.

Definition GraphNetwork_init (edge_model_fn node_model_fn global_model_fn : model)
    (reducer : reducer)
    (edge_block_opt node_block_opt global_block_opt : option (gmap string optval))
  : result GraphNetwork :=
  let edge_block_opt := _make_default_edge_block_opt edge_block_opt in
  let node_block_opt := _make_default_node_block_opt node_block_opt reducer in
  let global_block_opt := _make_default_global_block_opt global_block_opt reducer in
  do edge_block <- EdgeBlock_init edge_model_fn edge_block_opt;
  do node_block <- NodeBlock_init node_model_fn node_block_opt;
  do global_block <- GlobalBlock_init global_model_fn global_block_opt;
  Ok (mkGraphNetwork edge_block node_block global_block).

Definition GraphNetwork_build (self : GraphNetwork) (graph : GraphsTuple)
  : result GraphsTuple :=
  do g1 <- EdgeBlock_build (gn_edge_block self) graph;
  do g2 <- NodeBlock_build (gn_node_block self) g1;
  GlobalBlock_build (gn_global_block self) g2.

(** *** GraphIndependent *)

Record GraphIndependent : Type := mkGraphIndependent {
  gi_edge_model : option Tensor -> result (option Tensor);
  gi_node_model : option Tensor -> result (option Tensor);
  gi_global_model : option Tensor -> result (option Tensor)
}.

(** [lambda x: x] when no model is given, else the model, which needs a
    tensor. *)
Definition independent_model (model_fn : option model)
  : option Tensor -> result (option Tensor) :=
  match model_fn with
  | None => fun x => Ok x
  | Some f => fun x =>
      match x with
      | Some t => do y <- f t; Ok (Some y)
      | None => Raise TypeError
      end
  end.

Definition GraphIndependent_init (edge_model_fn node_model_fn global_model_fn : option model)
  : GraphIndependent :=
  mkGraphIndependent (independent_model edge_model_fn)
                     (independent_model node_model_fn)
                     (independent_model global_model_fn).

Definition GraphIndependent_build (self : GraphIndependent) (graph : GraphsTuple)
  : result GraphsTuple :=
  do e <- gi_edge_model self (edges graph);
  do n <- gi_node_model self (nodes graph);
  do gl <- gi_global_model self (globals graph);
  Ok (replace_globals (replace_nodes (replace_edges graph e) n) gl).

(** *** DeepSets *)

Record DeepSets : Type := mkDeepSets {
  ds_node_block : NodeBlock;
  ds_global_block : GlobalBlock
}.

Definition DeepSets_init (node_model_fn global_model_fn : model) (reducer : reducer)
  : result DeepSets :=
  do node_block <- NodeBlock_init node_model_fn
                     (list_to_map [("use_received_edges", OBool false);
                                   ("use_sent_edges", OBool false);
                                   ("use_nodes", OBool true);
                                   ("use_globals", OBool true)]);
  do global_block <- GlobalBlock_init global_model_fn
                       (list_to_map [("use_edges", OBool false);
                                     ("use_nodes", OBool true);
                                     ("use_globals", OBool false);
                                     ("nodes_reducer", OReducer reducer)]);
  Ok (mkDeepSets node_block global_block).

Definition DeepSets_build (self : DeepSets) (graph : GraphsTuple) : result GraphsTuple :=
  do g1 <- NodeBlock_build (ds_node_block self) graph;
  GlobalBlock_build (ds_global_block self) g1.

(** *** CommNet *)

Record CommNet : Type := mkCommNet {
  cn_edge_block : EdgeBlock;
  cn_node_encoder_block : NodeBlock;
  cn_node_block : NodeBlock
}.

Definition CommNet_init (edge_model_fn node_encoder_model_fn node_model_fn : model)
    (reducer : reducer) : result CommNet :=
  do edge_block <- EdgeBlock_init edge_model_fn
                     (list_to_map [("use_edges", OBool false);
                                   ("use_receiver_nodes", OBool false);
                                   ("use_sender_nodes", OBool true);
                                   ("use_globals", OBool false)]);
  do node_encoder_block <- NodeBlock_init node_encoder_model_fn
                     (list_to_map [("use_received_edges", OBool false);
                                   ("use_sent_edges", OBool false);
                                   ("use_nodes", OBool true);
                                   ("use_globals", OBool false);
                                   ("received_edges_reducer", OReducer reducer);
                                   ("name", OStr "node_encoder_block")]);
  do node_block <- NodeBlock_init node_model_fn
                     (list_to_map [("use_received_edges", OBool true);
                                   ("use_sent_edges", OBool false);
                                   ("use_nodes", OBool true);
                                   ("use_globals", OBool false);
                                   ("received_edges_reducer", OReducer reducer)]);
  Ok (mkCommNet edge_block node_encoder_block node_block).

Definition CommNet_build (self : CommNet) (graph : GraphsTuple) : result GraphsTuple :=
  do g1 <- EdgeBlock_build (cn_edge_block self) graph;
  do node_input <- NodeBlock_build (cn_node_encoder_block self) g1;
  do g2 <- NodeBlock_build (cn_node_block self) node_input;
  Ok (replace_nodes graph (nodes g2)).

(** *** Segment softmax and self-attention *)

Definition _unsorted_segment_softmax (data : Tensor) (segment_ids : list nat)
    (num_segments : nat) : result Tensor :=
  do segment_maxes <- tf_unsorted_segment_max data segment_ids num_segments;
  do maxes <- tf_gather segment_maxes segment_ids;
  do data <- tf_sub data maxes;
  let exp_data := tf_exp data in
  do segment_sum_exp_data <- tf_unsorted_segment_sum exp_data segment_ids num_segments;
  do sum_exp_data <- tf_gather segment_sum_exp_data segment_ids;
  tf_div exp_data sum_exp_data.

Definition _received_edges_normalizer (graph : GraphsTuple) (normalizer : reducer)
  : result Tensor :=
  do e <- require (edges graph);
  do r <- require (receivers graph);
  normalizer e r (tf_reduce_sum_int (n_node graph)).

Definition SelfAttention_build (node_values node_keys node_queries : Tensor)
    (attention_graph : GraphsTuple) : result GraphsTuple :=
  do sender_keys <- broadcast_sender_nodes_to_edges
                      (replace_nodes attention_graph (Some node_keys));
  do sender_values <- broadcast_sender_nodes_to_edges
                        (replace_nodes attention_graph (Some node_values));
  do receiver_queries <- broadcast_receiver_nodes_to_edges
                           (replace_nodes attention_graph (Some node_queries));
  do products <- tf_mul sender_keys receiver_queries;
  do attention_weights_logits <- tf_reduce_sum_last products;
  do normalized_attention_weights <-
       _received_edges_normalizer
         (replace_edges attention_graph (Some attention_weights_logits))
         _unsorted_segment_softmax;
  do attented_edges <- tf_mul sender_values (expand_last normalized_attention_weights);
  do aggregated_attended_values <-
       ReceivedEdgesToNodesAggregator tf_unsorted_segment_sum
         (replace_edges attention_graph (Some attented_edges));
  Ok (replace_nodes attention_graph (Some aggregated_attended_values)).

(** *** EdgeGAT: construction *)

Record EdgeGAT : Type := mkEdgeGAT {
  eg_attention_node_projection_model : model;
  eg_attention_edge_projection_model : model;
  eg_query_key_product_model : model;
  eg_node_model : model;
  eg_edge_block : EdgeBlock;
  eg_global_block : GlobalBlock;
  eg_num_heads : nat;
  eg_key_size : nat;
  eg_value_size : nat
}.

(** [d[k]]. *)
Definition getitem (d : gmap string optval) (k : string) : result optval :=
  match d !! k with
  | Some v => Ok v
  | None => Raise KeyError
  end.

Definition EdgeGAT_init
    (attention_node_projection_model attention_edge_projection_model
       query_key_product_model node_model_fn edge_model_fn global_model_fn : model)
    (num_heads key_size value_size : nat)
    (edge_block_opt global_block_opt : option (gmap string optval))
  : result EdgeGAT :=
  let edge_block_opt := _make_default_edge_block_opt edge_block_opt in
  let global_block_opt :=
    _make_default_global_block_opt global_block_opt tf_unsorted_segment_sum in
  do use_sender_nodes <- getitem edge_block_opt "use_sender_nodes";
  do _ <- guard (truthy use_sender_nodes) AssertionError;
  do edge_block <- EdgeBlock_init edge_model_fn edge_block_opt;
  do global_block <- GlobalBlock_init global_model_fn global_block_opt;
  Ok (mkEdgeGAT attention_node_projection_model attention_edge_projection_model
                query_key_product_model node_model_fn edge_block global_block
                num_heads key_size value_size).

(** ** Composite architectures as one type *)

Inductive architecture : Type :=
  | AGraphNetwork (net : GraphNetwork)
  | AGraphIndependent (net : GraphIndependent)
  | AInteractionNetwork (net : InteractionNetwork)
  | ARelationNetwork (net : RelationNetwork)
  | ADeepSets (net : DeepSets)
  | ACommNet (net : CommNet)
  | ASelfAttention (node_values node_keys node_queries : Tensor).

(** Calling the architecture on a graph. *)
Definition run (A : architecture) (graph : GraphsTuple) : result GraphsTuple :=
  match A with
  | AGraphNetwork net => GraphNetwork_build net graph
  | AGraphIndependent net => GraphIndependent_build net graph
  | AInteractionNetwork net => InteractionNetwork_build net graph
  | ARelationNetwork net => RelationNetwork_build net graph
  | ADeepSets net => DeepSets_build net graph
  | ACommNet net => CommNet_build net graph
  | ASelfAttention v k q => SelfAttention_build v k q graph
  end.

Inductive feature : Type := FEdges | FNodes | FGlobals.

Definition get_feature (f : feature) (g : GraphsTuple) : option Tensor :=
  match f with
  | FEdges => edges g
  | FNodes => nodes g
  | FGlobals => globals g
  end.

(** The fields each architecture documents as updated (the "Returns" part of
    its docstrings; DeepSets "also returns updated nodes"). *)
Definition documented_update (A : architecture) (f : feature) : bool :=
  match A, f with
  | AGraphNetwork _, _ => true
  | AGraphIndependent _, _ => true
  | AInteractionNetwork _, FGlobals => false
  | AInteractionNetwork _, _ => true
  | ARelationNetwork _, FGlobals => true
  | ARelationNetwork _, _ => false
  | ADeepSets _, FEdges => false
  | ADeepSets _, _ => true
  | ACommNet _, FNodes => true
  | ACommNet _, _ => false
  | ASelfAttention _ _ _, FNodes => true
  | ASelfAttention _ _ _, _ => false
  end.

Definition total_nodes (g : GraphsTuple) : nat := tf_reduce_sum_int (n_node g).
Definition total_edges (g : GraphsTuple) : nat := tf_reduce_sum_int (n_edge g).

(** The connectivity and the partition of a graph are those of another. *)
Definition same_structure (g out : GraphsTuple) : Prop :=
  n_node out = n_node g /\ n_edge out = n_edge g /\
  senders out = senders g /\ receivers out = receivers g.

(** ** A small example

    Two nodes and two edges, both received by node 1; node 0 receives
    nothing.  One graph in the batch. *)

Definition example_graph : GraphsTuple :=
  mkGraphsTuple (Some (mkTensor [1] [[1%R]; [2%R]]))
                (Some (mkTensor [1] [[5%R]; [6%R]]))
                (Some [1; 1]) (Some [0; 1])
                (Some (mkTensor [1] [[7%R]]))
                [2] [2].

(** Values, keys and queries of shape [2, 1, 1]. *)
Definition example_values : Tensor := mkTensor [1; 1] [[3%R]; [4%R]].
Definition example_keys : Tensor := mkTensor [1; 1] [[1%R]; [2%R]].
Definition example_queries : Tensor := mkTensor [1; 1] [[1%R]; [1%R]].

(** The model that returns its input. *)
Definition identity_model : model := fun t => Ok t.

(** A NodeBlock whose only enabled input is the aggregation of the received
    edges. *)
Definition only_received_edges (b : NodeBlock) : Prop :=
  nb_use_received_edges b = true /\ nb_use_sent_edges b = false /\
  nb_use_nodes b = false /\ nb_use_globals b = false.

(** ** Shifting one segment (the input of the stability check) *)

(** [c] is added to every entry of the rows of segment [s]. *)
Definition shift_segment (c : R) (s : nat) (segment_ids : list nat) (data : Tensor)
  : Tensor :=
  mkTensor (inner data)
    (zip_with (fun i row => if Nat.eqb i s then map (fun x => (x + c)%R) row else row)
              segment_ids (rows data)).

(** The rows computed by [_unsorted_segment_softmax] on valid arguments:
    [k] is the size of a row. *)
Definition shifted_rows (k : nat) (ids : list nat) (rs : list (list R))
  : list (list R) :=
  zip_with (zip_with Rminus) rs
           (map (fun i => max_rows k (segment_rows i ids rs)) ids).

Definition softmax_rows (k : nat) (ids : list nat) (rs : list (list R))
  : list (list R) :=
  let ex := map (map exp) (shifted_rows k ids rs) in
  zip_with (zip_with Rdiv) ex
           (map (fun i => sum_rows k (segment_rows i ids ex)) ids).

(** ** Self-attention as the specification words it

    Entry by entry: the score of an edge is the dot product of its sender's
    key and its receiver's query; the scores of the edges received by a node
    are normalised by a softmax; the new value of a node is the sum, over the
    edges it receives, of the sender's value times the normalised weight. *)

(** Entry [(i, h, d)] of a tensor of shape [N, H, D]. *)
Definition entry (t : Tensor) (i h d : nat) : R :=
  nth (h * last_dim t + d) (nth i (rows t) []) 0%R.

(** The edges received by node [n], in order. *)
Definition in_edges (rc : list nat) (n : nat) : list nat :=
  List.filter (fun e => Nat.eqb (nth e rc 0) n) (seq 0 (length rc)).

Definition attention_score (keys queries : Tensor) (sd rc : list nat) (e h : nat) : R :=
  Rsum (map (fun j => (entry keys (nth e sd 0%nat) h j * entry queries (nth e rc 0%nat) h j)%R)
            (seq 0 (last_dim keys))).

Definition max_over (f : nat -> R) (l : list nat) : R :=
  match l with
  | [] => float32_lowest
  | e :: l' => fold_left (fun m e' => Rmax m (f e')) l' (f e)
  end.

(** The softmax of [score] over the edges with the receiver of [e]: the
    maximum is subtracted before exponentiation. *)
Definition softmax_weight (score : nat -> R) (rc : list nat) (e : nat) : R :=
  let seg := in_edges rc (nth e rc 0) in
  let m := max_over score seg in
  (exp (score e - m) / Rsum (map (fun e' => exp (score e' - m)) seg))%R.

Definition attention_spec (values keys queries : Tensor) (sd rc : list nat)
    (n h d : nat) : R :=
  Rsum (map (fun e =>
               (entry values (nth e sd 0%nat) h d
                * softmax_weight (fun e' => attention_score keys queries sd rc e' h) rc e)%R)
            (in_edges rc n)).

(** The rows [SelfAttention] computes on tensors of shapes [N, H, K] (keys
    and queries) and [N, H, V] (values): the logits, the attended edges and
    the new node rows. *)
Definition attention_logit_rows (K H : nat) (node_keys node_queries : Tensor)
    (sd rc : list nat) : list (list R) :=
  map (fun r => map Rsum (chunks K H r))
      (zip_with (zip_with Rmult)
                (map (fun i => nth i (rows node_keys) []) sd)
                (map (fun i => nth i (rows node_queries) []) rc)).

Definition attended_rows (K H V : nat) (node_values node_keys node_queries : Tensor)
    (sd rc : list nat) : list (list R) :=
  zip_with (scale_chunks V)
           (map (fun i => nth i (rows node_values) []) sd)
           (softmax_rows H rc (attention_logit_rows K H node_keys node_queries sd rc)).

Definition attention_rows (N K H V : nat) (node_values node_keys node_queries : Tensor)
    (sd rc : list nat) : list (list R) :=
  map (fun s => sum_rows (H * V)
                  (segment_rows s rc
                     (attended_rows K H V node_values node_keys node_queries sd rc)))
      (seq 0 N).

(** ** Batches of graphs *)

(** Concatenation along the first axis. *)
Definition concat0 (a b : Tensor) : Tensor :=
  mkTensor (inner a) (rows a ++ rows b).

Definition batch_tensors (a b : option Tensor) : result (option Tensor) :=
  match a, b with
  | Some x, Some y =>
      do _ <- guard (list_nat_eqb (inner x) (inner y)) InvalidArgumentError;
      Ok (Some (concat0 x y))
  | None, None => Ok None
  | _, _ => Raise ValueError
  end.

Definition batch_indices (offset : nat) (a b : option (list nat))
  : result (option (list nat)) :=
  match a, b with
  | Some x, Some y => Ok (Some (x ++ map (Nat.add offset) y))
  | None, None => Ok None
  | _, _ => Raise ValueError
  end.

(** Modelled from the spec: the batch of two graphs (the batching utility is
    not among the sources).  Section 3: the graphs are laid out contiguously
    in the order given by [n_node] and [n_edge], and senders and receivers
    index into the concatenated node array, so those of the second graph are
    offset by the number of nodes of the first. *)
Definition batch (g1 g2 : GraphsTuple) : result GraphsTuple :=
  do n <- batch_tensors (nodes g1) (nodes g2);
  do e <- batch_tensors (edges g1) (edges g2);
  do r <- batch_indices (total_nodes g1) (receivers g1) (receivers g2);
  do s <- batch_indices (total_nodes g1) (senders g1) (senders g2);
  do gl <- batch_tensors (globals g1) (globals g2);
  Ok (mkGraphsTuple n e r s gl (n_node g1 ++ n_node g2) (n_edge g1 ++ n_edge g2)).

(** Feature tensors have a feature axis: shape [rows, dim, ...]. *)
Definition ranked (t : option Tensor) : Prop :=
  forall x, t = Some x -> inner x <> [].

Definition well_ranked (g : GraphsTuple) : Prop :=
  ranked (nodes g) /\ ranked (edges g) /\ ranked (globals g).

Definition indices_in_range (ids : option (list nat)) (len bound : nat) : Prop :=
  forall l, ids = Some l -> length l = len /\ Forall (fun i => i < bound) l.

Definition rows_count (t : option Tensor) (n : nat) : Prop :=
  forall x, t = Some x -> length (rows x) = n.

(** The invariants of section 3. *)
Definition valid_graph (g : GraphsTuple) : Prop :=
  well_ranked g /\
  length (n_node g) = length (n_edge g) /\
  rows_count (nodes g) (total_nodes g) /\
  rows_count (edges g) (total_edges g) /\
  rows_count (globals g) (num_graphs g) /\
  indices_in_range (senders g) (total_edges g) (total_nodes g) /\
  indices_in_range (receivers g) (total_edges g) (total_nodes g).

(** A per-entity function, as the blocks take it: the model acts on each
    row by itself, so on a concatenation it returns the concatenation of its
    results, and its result has a feature axis when its argument has one. *)
Definition rowwise (f : model) : Prop :=
  forall a b a' b',
    inner a = inner b -> inner a <> [] -> f a = Ok a' -> f b = Ok b' ->
    f (concat0 a b) = Ok (concat0 a' b') /\ inner a' = inner b' /\ inner a' <> [].

(** A segment reduction: the reducer computes the row of each segment from
    the rows of that segment only, as [tf.unsorted_segment_sum] does. *)
Definition segmentwise (r : reducer) : Prop :=
  forall d1 d2 ids1 ids2 n1 n2 o1 o2,
    inner d1 = inner d2 ->
    r d1 ids1 n1 = Ok o1 -> r d2 ids2 n2 = Ok o2 ->
    r (concat0 d1 d2) (ids1 ++ map (Nat.add n1) ids2) (n1 + n2) = Ok (concat0 o1 o2)
    /\ inner o1 = inner d1 /\ inner o2 = inner d2.

Definition rowwise_EdgeBlock (b : EdgeBlock) : Prop := rowwise (eb_model b).

Definition rowwise_NodeBlock (b : NodeBlock) : Prop :=
  rowwise (nb_model b) /\ segmentwise (nb_received_edges_reducer b) /\
  segmentwise (nb_sent_edges_reducer b).

Definition rowwise_GlobalBlock (b : GlobalBlock) : Prop :=
  rowwise (gb_model b) /\ segmentwise (gb_edges_reducer b) /\
  segmentwise (gb_nodes_reducer b).

(** The model of a [GraphIndependent] is the identity or a row-wise model. *)
Definition rowwise_independent (m : option Tensor -> result (option Tensor)) : Prop :=
  exists model_fn, m = independent_model model_fn /\
                   forall f, model_fn = Some f -> rowwise f.

(** The architectures built from blocks whose models act row-wise and whose
    reducers act segment-wise.  ([SelfAttention] takes its tensors as
    arguments and is treated on its own.) *)
Definition rowwise_architecture (A : architecture) : Prop :=
  match A with
  | AGraphNetwork net =>
      rowwise_EdgeBlock (gn_edge_block net) /\
      rowwise_NodeBlock (gn_node_block net) /\
      rowwise_GlobalBlock (gn_global_block net)
  | AGraphIndependent net =>
      rowwise_independent (gi_edge_model net) /\
      rowwise_independent (gi_node_model net) /\
      rowwise_independent (gi_global_model net)
  | AInteractionNetwork net =>
      rowwise_EdgeBlock (in_edge_block net) /\
      rowwise_NodeBlock (in_node_block net)
  | ARelationNetwork net =>
      rowwise_EdgeBlock (rn_edge_block net) /\
      rowwise_GlobalBlock (rn_global_block net)
  | ADeepSets net =>
      rowwise_NodeBlock (ds_node_block net) /\
      rowwise_GlobalBlock (ds_global_block net)
  | ACommNet net =>
      rowwise_EdgeBlock (cn_edge_block net) /\
      rowwise_NodeBlock (cn_node_encoder_block net) /\
      rowwise_NodeBlock (cn_node_block net)
  | ASelfAttention _ _ _ => False
  end.

(** The relation between the tensors of two graphs and that of their batch. *)
Definition batched_tensor (t1 t2 t : Tensor) : Prop :=
  t = concat0 t1 t2 /\ inner t1 = inner t2 /\ inner t1 <> [].

(** The same, for the lists of inputs a block collects. *)
Definition batched_tensors (l1 l2 l : list Tensor) : Prop :=
  Forall3 batched_tensor l1 l2 l.

(** The graph [g] is the batch of [g1] and [g2]. *)
Definition batched (g1 g2 g : GraphsTuple) : Prop := batch g1 g2 = Ok g.

(** ** BipartiteGraphIndependent *)

(** Modelled from the spec: the bipartite variant of [GraphsTuple] (graphs.py
    is not among the sources).  Section 3: [nodes] is split into
    [left_nodes] and [right_nodes], otherwise the contract is the same; the
    fields the module does not name are kept as one abstract component. *)
Record BipartiteGraphsTuple (Rest : Type) : Type := mkBipartiteGraphsTuple {
  bp_edges : option Tensor;
  bp_left_nodes : option Tensor;
  bp_right_nodes : option Tensor;
  bp_globals : option Tensor;
  bp_rest : Rest
}.
Arguments mkBipartiteGraphsTuple {Rest} _ _ _ _ _.
Arguments bp_edges {Rest} _.
Arguments bp_left_nodes {Rest} _.
Arguments bp_right_nodes {Rest} _.
Arguments bp_globals {Rest} _.
Arguments bp_rest {Rest} _.

Record BipartiteGraphIndependent : Type := mkBipartiteGraphIndependent {
  bgi_edge_model : option Tensor -> result (option Tensor);
  bgi_left_node_model : option Tensor -> result (option Tensor);
  bgi_right_node_model : option Tensor -> result (option Tensor);
  bgi_global_model : option Tensor -> result (option Tensor)
}.

Definition BipartiteGraphIndependent_init
    (edge_model_fn left_node_model_fn right_node_model_fn global_model_fn : option model)
  : BipartiteGraphIndependent :=
  mkBipartiteGraphIndependent (independent_model edge_model_fn)
                              (independent_model left_node_model_fn)
                              (independent_model right_node_model_fn)
                              (independent_model global_model_fn).

Definition BipartiteGraphIndependent_build {Rest : Type}
    (self : BipartiteGraphIndependent) (graph : BipartiteGraphsTuple Rest)
  : result (BipartiteGraphsTuple Rest) :=
  do e <- bgi_edge_model self (bp_edges graph);
  do l <- bgi_left_node_model self (bp_left_nodes graph);
  do r <- bgi_right_node_model self (bp_right_nodes graph);
  do gl <- bgi_global_model self (bp_globals graph);
  Ok (mkBipartiteGraphsTuple e l r gl (bp_rest graph)).

(** Two model arguments of [GraphIndependent] in sequence: [None] passes
    through. *)
Definition then_model (f g : option model) : option model :=
  match f, g with
  | None, _ => g
  | _, None => f
  | Some f', Some g' => Some (fun t => do y <- f' t; g' y)
  end.

(** The graph with other edge features and connectivity. *)
Definition with_edges_and_connectivity (g : GraphsTuple) (e : option Tensor)
    (r s : option (list nat)) : GraphsTuple :=
  mkGraphsTuple (nodes g) e r s (globals g) (n_node g) (n_edge g).

(** ** The graph attention modules *)

(** *** TensorFlow and Sonnet operations they use *)

(** [tf.reshape(t, [n] ++ rest)] on the row-major data of [t];
    [first = None] stands for [-1], the size TensorFlow infers, which needs
    the given sizes to be non-zero and to divide the number of entries. *)
Definition tf_reshape (t : Tensor) (first : option nat) (rest : list nat)
  : result Tensor :=
  let flat := concat (rows t) in
  let d := prod_list rest in
  match first with
  | Some n =>
      do _ <- guard (Nat.eqb (n * d) (length flat)) InvalidArgumentError;
      Ok (mkTensor rest (chunks d n flat))
  | None =>
      do _ <- guard (negb (Nat.eqb d 0) && Nat.eqb (Nat.modulo (length flat) d) 0)
                    InvalidArgumentError;
      Ok (mkTensor rest (chunks d (Nat.div (length flat) d) flat))
  end.

(** [split_sizes sizes l] cuts [l] into consecutive pieces of the given
    sizes. *)
Fixpoint split_sizes {A : Type} (sizes : list nat) (l : list A) : list (list A) :=
  match sizes with
  | [] => []
  | s :: sizes' => firstn s l :: split_sizes sizes' (skipn s l)
  end.

(** [tf.split(t, sizes, -1)]: the sizes must add up to the last axis; piece
    [j] keeps, at every position of the other axes, the [j]-th group of
    entries of the last axis. *)
Definition tf_split_last (t : Tensor) (sizes : list nat) : result (list Tensor) :=
  match inner t with
  | [] =>
      do _ <- guard (Nat.eqb (list_sum sizes) (length (rows t)))
                    InvalidArgumentError;
      Ok (map (mkTensor []) (split_sizes sizes (rows t)))
  | _ =>
      do _ <- guard (Nat.eqb (list_sum sizes) (last_dim t)) InvalidArgumentError;
      Ok (map (fun j =>
                 mkTensor (lead_dims t ++ [nth j sizes 0])
                   (map (fun r =>
                           concat (map (fun c => nth j (split_sizes sizes c) [])
                                       (chunks (last_dim t)
                                               (prod_list (lead_dims t)) r)))
                        (rows t)))
              (seq 0 (length sizes)))
  end.

(** [tf.squeeze(t, -1)] for a tensor of rank at least two: the last axis
    must have size 1 and is removed. *)
Definition tf_squeeze_last (t : Tensor) : result Tensor :=
  match inner t with
  | [] => Raise InvalidArgumentError
  | _ =>
      do _ <- guard (Nat.eqb (last_dim t) 1) InvalidArgumentError;
      Ok (mkTensor (lead_dims t) (rows t))
  end.

(** [snt.BatchApply(f)(t)] with its default of two merged axes: the first
    two axes of [t] are merged by a reshape, [f] is applied, and the first
    axis of the result is reshaped back into the two.  A tensor of rank one
    is passed to [f] unchanged. *)
Definition snt_BatchApply (f : model) (t : Tensor) : result Tensor :=
  match inner t with
  | [] =>
      do result <- f t;
      tf_reshape result (Some (length (rows t))) (inner result)
  | h :: rest =>
      do merged <- tf_reshape t (Some (length (rows t) * h)) rest;
      do result <- f merged;
      tf_reshape result (Some (length (rows t))) (h :: inner result)
  end.

(** NumPy broadcasting of two shapes, both given from the last axis to the
    first. *)
Fixpoint broadcast_shapes_rev (a b : list nat) : option (list nat) :=
  match a, b with
  | [], _ => Some b
  | _, [] => Some a
  | x :: a', y :: b' =>
      match broadcast_shapes_rev a' b' with
      | None => None
      | Some s =>
          if Nat.eqb x y then Some (x :: s)
          else if Nat.eqb x 1 then Some (y :: s)
          else if Nat.eqb y 1 then Some (x :: s)
          else None
      end
  end.

Definition broadcast_shapes (a b : list nat) : option (list nat) :=
  option_map (@rev nat) (broadcast_shapes_rev (rev a) (rev b)).

(** [broadcast_to from to data]: the row-major data of shape [from] repeated
    to the shape [to] of the same rank; an axis of size 1 is repeated. *)
Fixpoint broadcast_to (from to : list nat) (data : list R) : list R :=
  match from, to with
  | f :: from', t :: to' =>
      let pieces :=
        concat (map (broadcast_to from' to') (chunks (prod_list from') f data)) in
      if Nat.eqb f t then pieces else concat (repeat pieces t)
  | _, _ => data
  end.

(** A shape extended to rank [n] by leading axes of size 1. *)
Definition pad_shape (n : nat) (s : list nat) : list nat :=
  repeat 1 (n - length s) ++ s.

(** [a * b] with NumPy broadcasting in full: the graph attention modules can
    multiply tensors of different ranks, depending on what the user's
    query-key model returns. *)
Definition tf_multiply (a b : Tensor) : result Tensor :=
  match broadcast_shapes (shape a) (shape b) with
  | Some (n :: rest) =>
      let to := n :: rest in
      let da := broadcast_to (pad_shape (length to) (shape a)) to (concat (rows a)) in
      let db := broadcast_to (pad_shape (length to) (shape b)) to (concat (rows b)) in
      Ok (mkTensor rest (chunks (prod_list rest) n (zip_with Rmult da db)))
  | _ => Raise InvalidArgumentError
  end.

(** *** EdgeGAT: connection *)

Definition EdgeGAT_build (self : EdgeGAT) (graph_features : GraphsTuple)
  : result GraphsTuple :=
  do edge_graph <- EdgeBlock_build (eg_edge_block self) graph_features;
  let edges := edges edge_graph in
  let num_heads := eg_num_heads self in
  let key_size := eg_key_size self in
  let value_size := eg_value_size self in
  (* tf.shape(graph_features.nodes)[-1] *)
  do nodes <- require (nodes graph_features);
  let node_embed_dim := List.last (shape nodes) 0 in
  do q <- eg_attention_node_projection_model self nodes;
  do q <- tf_reshape q (Some (tf_reduce_sum_int (n_node graph_features)))
                     [num_heads; key_size];
  (* the edge block has set the edges *)
  do edge_features <- require edges;
  do kv <- eg_attention_edge_projection_model self edge_features;
  do kv <- tf_reshape kv None [num_heads; key_size + value_size];
  do kv_split <- tf_split_last kv [key_size; value_size];
  match kv_split with
  | [k; v] =>
      let sender_keys := k in
      let sender_values := v in
      do receiver_queries <- broadcast_receiver_nodes_to_edges
                               (replace_nodes graph_features (Some q));
      do keys_and_queries <- tf_concat_last [sender_keys; receiver_queries];
      do attention_weights_logits <-
           snt_BatchApply (eg_query_key_product_model self) keys_and_queries;
      do attention_weights_logits <- tf_squeeze_last attention_weights_logits;
      do normalized_attention_weights <-
           _received_edges_normalizer
             (replace_edges graph_features (Some attention_weights_logits))
             _unsorted_segment_softmax;
      do attented_edges <-
           tf_multiply sender_values (expand_last normalized_attention_weights);
      do aggregated_attended_values <-
           ReceivedEdgesToNodesAggregator tf_unsorted_segment_sum
             (replace_edges graph_features (Some attented_edges));
      do aggregated_attended_values <-
           tf_reshape aggregated_attended_values None [num_heads * value_size];
      do aggregated_attended_values <-
           eg_node_model self aggregated_attended_values;
      GlobalBlock_build (eg_global_block self)
        (replace_edges
           (replace_nodes graph_features (Some aggregated_attended_values))
           edges)
  | _ => Raise ValueError
  end.

(** *** EdgelessGAT *)

(** The instance attributes.  [num_heads], [key_size] and [value_size] are
    read by [_build]; they are [None] while the instance has no such
    attribute. *)
Record EdgelessGAT : Type := mkEdgelessGAT {
  elg_normalizer : reducer;
  elg_attention_projection_model : model;
  elg_query_key_product_model : model;
  elg_node_model : model;
  elg_num_heads : option nat;
  elg_key_size : option nat;
  elg_value_size : option nat
}.

(** [__init__] stores the normalizer and the three models, and nothing
    else. *)
Definition EdgelessGAT_init
    (attention_projection_model query_key_product_model node_model : model)
    (num_heads key_size value_size : nat) : EdgelessGAT :=
  mkEdgelessGAT _unsorted_segment_softmax attention_projection_model
                query_key_product_model node_model None None None.

(** Reading an attribute of [self]: the value, or [AttributeError]. *)
Inductive attribute (A : Type) : Type :=
  | Attr (a : A)
  | AttributeError.
Arguments Attr {A} a.
Arguments AttributeError {A}.

Definition getattr {A B : Type} (field : option A) (k : A -> attribute B)
  : attribute B :=
  match field with
  | Some a => k a
  | None => AttributeError
  end.

(** [_build] first reads the three attributes, then computes on tensors. *)
Definition EdgelessGAT_build (self : EdgelessGAT) (graph_features : GraphsTuple)
  : attribute (result GraphsTuple) :=
  let nodes := nodes graph_features in
  getattr (elg_num_heads self) (fun num_heads =>
  getattr (elg_key_size self) (fun key_size =>
  getattr (elg_value_size self) (fun value_size =>
  Attr (
    (* tf.shape(nodes)[-1] *)
    do nodes <- require nodes;
    let node_embed_dim := List.last (shape nodes) 0 in
    let qkv_size := 2 * key_size + value_size in
    let total_size := qkv_size * num_heads in
    do qkv_flat <- elg_attention_projection_model self nodes;
    do qkv <- tf_reshape qkv_flat None [num_heads; qkv_size];
    do qkv_split <- tf_split_last qkv [key_size; key_size; value_size];
    match qkv_split with
    | [q; k; v] =>
        do sender_keys <- broadcast_sender_nodes_to_edges
                            (replace_nodes graph_features (Some k));
        do sender_values <- broadcast_sender_nodes_to_edges
                              (replace_nodes graph_features (Some v));
        do receiver_queries <- broadcast_receiver_nodes_to_edges
                                 (replace_nodes graph_features (Some q));
        do keys_and_queries <- tf_concat_last [sender_keys; receiver_queries];
        do attention_weights_logits <-
             snt_BatchApply (elg_query_key_product_model self) keys_and_queries;
        do attention_weights_logits <- tf_squeeze_last attention_weights_logits;
        do normalized_attention_weights <-
             _received_edges_normalizer
               (replace_edges graph_features (Some attention_weights_logits))
               (elg_normalizer self);
        do attented_edges <-
             tf_multiply sender_values (expand_last normalized_attention_weights);
        do aggregated_attended_values <-
             ReceivedEdgesToNodesAggregator tf_unsorted_segment_sum
               (replace_edges graph_features (Some attented_edges));
        do aggregated_attended_values <-
             tf_reshape aggregated_attended_values None [num_heads * value_size];
        do aggregated_attended_values <-
             elg_node_model self aggregated_attended_values;
        Ok (replace_nodes graph_features (Some aggregated_attended_values))
    | _ => Raise ValueError
    end)))).

(** *** Example models of a graph attention module *)

(** A projection that sums the features of a row and writes the sum [n]
    times. *)
Definition sum_projection (n : nat) : model := fun t =>
  do s <- tf_reduce_sum_last t;
  tf_concat_last (repeat (expand_last s) n).

(** EdgeGAT with one head, keys and values of size 1 and the default
    blocks. *)
Definition example_EdgeGAT : result EdgeGAT :=
  EdgeGAT_init identity_model (sum_projection 2) (sum_projection 1)
               identity_model identity_model identity_model 1 1 1 None None.

(** EdgelessGAT once the three sizes have been set as attributes. *)
Definition example_EdgelessGAT : EdgelessGAT :=
  mkEdgelessGAT _unsorted_segment_softmax (sum_projection 3) (sum_projection 1)
                identity_model (Some 1) (Some 1) (Some 1).

(** ** The segment softmax for every dtype

    [_unsorted_segment_softmax] works on a tensor of any floating point
    dtype.  Here it is written once more over the arithmetic of the
    entries, so that it can be run on the reals (where it is the function
    above) and on binary64 numbers with their rounding. *)

(** The operations the function and the kernels it calls apply to the
    entries of a tensor. *)
Record arithmetic (A : Type) : Type := mkArithmetic {
  ar_zero : A;
  ar_lowest : A;
  ar_add : A -> A -> A;
  ar_sub : A -> A -> A;
  ar_div : A -> A -> A;
  ar_max : A -> A -> A;
  ar_exp : A -> A
}.
Arguments mkArithmetic {A} _ _ _ _ _ _ _.
Arguments ar_zero {A} _.
Arguments ar_lowest {A} _.
Arguments ar_add {A} _ _ _.
Arguments ar_sub {A} _ _ _.
Arguments ar_div {A} _ _ _.
Arguments ar_max {A} _ _ _.
Arguments ar_exp {A} _ _.

(** A tensor with entries in [A], laid out as [Tensor]. *)
Record TensorOf (A : Type) : Type := mkTensorOf {
  inner_of : list nat;
  rows_of : list (list A)
}.
Arguments mkTensorOf {A} _ _.
Arguments inner_of {A} _.
Arguments rows_of {A} _.

Section Dtype.
Context {A : Type} (ar : arithmetic A).

Definition rowsize_of (t : TensorOf A) : nat := prod_list (inner_of t).

Definition shape_of (t : TensorOf A) : list nat := length (rows_of t) :: inner_of t.

(** [tf.gather(params, indices)] along axis 0. *)
Definition tf_gather_of (params : TensorOf A) (indices : list nat)
  : result (TensorOf A) :=
  do rs <- mapM (fun i => match nth_error (rows_of params) i with
                          | Some r => Ok r
                          | None => Raise InvalidArgumentError
                          end) indices;
  Ok (mkTensorOf (inner_of params) rs).

Definition segment_rows_of (s : nat) (ids : list nat) (data : list (list A))
  : list (list A) :=
  map snd (List.filter (fun p => Nat.eqb (fst p) s) (combine ids data)).

(** The reductions of the segment kernels, with the additions and the
    comparisons in the order of [sum_rows] and [max_rows] (TensorFlow fixes
    no order within a segment). *)
Definition sum_rows_of (k : nat) (l : list (list A)) : list A :=
  fold_right (zip_with (ar_add ar)) (repeat (ar_zero ar) k) l.

Definition max_rows_of (k : nat) (l : list (list A)) : list A :=
  match l with
  | [] => repeat (ar_lowest ar) k
  | r :: l' => fold_left (zip_with (ar_max ar)) l' r
  end.

Definition segment_reduce_of (f : nat -> list (list A) -> list A)
    (data : TensorOf A) (segment_ids : list nat) (num_segments : nat)
  : result (TensorOf A) :=
  do _ <- guard (Nat.eqb (length segment_ids) (length (rows_of data)))
                InvalidArgumentError;
  do _ <- guard (forallb (fun i => Nat.ltb i num_segments) segment_ids)
                InvalidArgumentError;
  Ok (mkTensorOf (inner_of data)
        (map (fun s => f (rowsize_of data) (segment_rows_of s segment_ids (rows_of data)))
             (seq 0 num_segments))).

Definition tf_unsorted_segment_sum_of := segment_reduce_of sum_rows_of.

Definition tf_unsorted_segment_max_of := segment_reduce_of max_rows_of.

Definition tf_elementwise_of (op : A -> A -> A) (a b : TensorOf A)
  : result (TensorOf A) :=
  do _ <- guard (list_nat_eqb (shape_of a) (shape_of b)) InvalidArgumentError;
  Ok (mkTensorOf (inner_of a) (zip_with (zip_with op) (rows_of a) (rows_of b))).

Definition tf_exp_of (a : TensorOf A) : TensorOf A :=
  mkTensorOf (inner_of a) (map (map (ar_exp ar)) (rows_of a)).

Definition _unsorted_segment_softmax_of (data : TensorOf A) (segment_ids : list nat)
    (num_segments : nat) : result (TensorOf A) :=
  do segment_maxes <- tf_unsorted_segment_max_of data segment_ids num_segments;
  do maxes <- tf_gather_of segment_maxes segment_ids;
  do data <- tf_elementwise_of (ar_sub ar) data maxes;
  let exp_data := tf_exp_of data in
  do segment_sum_exp_data <-
       tf_unsorted_segment_sum_of exp_data segment_ids num_segments;
  do sum_exp_data <- tf_gather_of segment_sum_exp_data segment_ids;
  tf_elementwise_of (ar_div ar) exp_data sum_exp_data.

(** [c] is added to every entry of the rows of segment [s]. *)
Definition shift_segment_of (c : A) (s : nat) (segment_ids : list nat)
    (data : TensorOf A) : TensorOf A :=
  mkTensorOf (inner_of data)
    (zip_with (fun i row => if Nat.eqb i s then map (fun x => ar_add ar x c) row
                            else row)
              segment_ids (rows_of data)).

(** Row [e] minus the maximum of its segment, entry by entry. *)
Definition centred_row (data : TensorOf A) (segment_ids : list nat) (e : nat)
  : list A :=
  zip_with (ar_sub ar) (nth e (rows_of data) [])
    (max_rows_of (rowsize_of data)
       (map (fun i => nth i (rows_of data) [])
            (in_edges segment_ids (nth e segment_ids 0)))).

(** Its exponential. *)
Definition exp_row (data : TensorOf A) (segment_ids : list nat) (e : nat)
  : list A :=
  map (ar_exp ar) (centred_row data segment_ids e).

(** The sum of the exponentials over the rows of the segment of row [e]. *)
Definition exp_sum_row (data : TensorOf A) (segment_ids : list nat) (e : nat)
  : list A :=
  sum_rows_of (rowsize_of data)
    (map (exp_row data segment_ids)
         (in_edges segment_ids (nth e segment_ids 0))).

(** The rows computed by [_unsorted_segment_softmax_of] on valid arguments:
    [k] is the size of a row. *)
Definition shifted_rows_of (k : nat) (ids : list nat) (rs : list (list A))
  : list (list A) :=
  zip_with (zip_with (ar_sub ar)) rs
           (map (fun i => max_rows_of k (segment_rows_of i ids rs)) ids).

Definition softmax_rows_of (k : nat) (ids : list nat) (rs : list (list A))
  : list (list A) :=
  let ex := map (map (ar_exp ar)) (shifted_rows_of k ids rs) in
  zip_with (zip_with (ar_div ar)) ex
           (map (fun i => sum_rows_of k (segment_rows_of i ids ex)) ids).

End Dtype.

(** The reals: exact arithmetic. *)
Definition real_arithmetic : arithmetic R :=
  mkArithmetic 0%R float32_lowest Rplus Rminus Rdiv Rmax exp.

Definition of_Tensor (t : Tensor) : TensorOf R := mkTensorOf (inner t) (rows t).

(** binary64 ([tf.float64]) with the IEEE operations of the processor.  The
    maximum is the one of the segment kernel, [a < b ? b : a]; the
    exponential is the kernel's and stays a parameter. *)
Definition float_max (x y : float) : float := if PrimFloat.ltb x y then y else x.

Definition float64_lowest : float := (-0x1.fffffffffffffp1023)%float.

Definition float64_arithmetic (fexp : float -> float) : arithmetic float :=
  mkArithmetic 0%float float64_lowest PrimFloat.add PrimFloat.sub PrimFloat.div
               float_max fexp.

(** * Properties *)

(** ** Basic facts about the error monad *)

Lemma bind_Ok_inv {A B : Type} (m : result A) (k : A -> result B) (b : B) :
  bind m k = Ok b -> exists a, m = Ok a /\ k a = Ok b.
Proof.
  destruct m as [a|e]; simpl; intros H; [eauto | discriminate].
Qed.

Lemma guard_Ok_inv (c : bool) (e : exn) (u : unit) :
  guard c e = Ok u -> c = true.
Proof. destruct c; simpl; [reflexivity | discriminate]. Qed.

(** Splits a hypothesis [bind m k = Ok b] into its two steps, repeatedly. *)
Ltac inv_bind H :=
  let a := fresh "a" in
  let Ha := fresh "Hstep" in
  lazymatch type of H with
  | bind _ _ = Ok _ => apply bind_Ok_inv in H; destruct H as (a & Ha & H)
  end.

Ltac inv_binds H := repeat (inv_bind H).

Lemma fill_defaults_keeps (defaults : list (string * optval))
    (opt : gmap string optval) (k : string) (v : optval) :
  opt !! k = Some v -> fill_defaults defaults opt !! k = Some v.
Proof.
  unfold fill_defaults. revert opt.
  induction defaults as [|[k' v'] defaults IH]; intros opt Hk; simpl; [exact Hk|].
  apply IH. destruct (decide (k' = k)) as [->|Hne].
  - rewrite Hk. simpl. apply lookup_insert_eq.
  - rewrite lookup_insert_ne; auto.
Qed.

(** ** Frame properties of the blocks *)

Lemma EdgeBlock_build_frame (b : EdgeBlock) (g out : GraphsTuple) :
  EdgeBlock_build b g = Ok out -> exists t, out = replace_edges g (Some t).
Proof.
  unfold EdgeBlock_build. intros H. inv_binds H.
  injection H as <-. eauto.
Qed.

Lemma NodeBlock_build_frame (b : NodeBlock) (g out : GraphsTuple) :
  NodeBlock_build b g = Ok out -> exists t, out = replace_nodes g (Some t).
Proof.
  unfold NodeBlock_build. intros H. inv_binds H.
  injection H as <-. eauto.
Qed.

Lemma GlobalBlock_build_frame (b : GlobalBlock) (g out : GraphsTuple) :
  GlobalBlock_build b g = Ok out -> exists t, out = replace_globals g (Some t).
Proof.
  unfold GlobalBlock_build. intros H. inv_binds H.
  injection H as <-. eauto.
Qed.

Lemma SelfAttention_build_frame (v k q : Tensor) (g out : GraphsTuple) :
  SelfAttention_build v k q g = Ok out -> exists t, out = replace_nodes g (Some t).
Proof.
  unfold SelfAttention_build. intros H. inv_binds H.
  injection H as <-. eauto.
Qed.

Lemma same_structure_replace_edges (g : GraphsTuple) (v : option Tensor) :
  same_structure g (replace_edges g v).
Proof. repeat split. Qed.

Lemma same_structure_replace_nodes (g : GraphsTuple) (v : option Tensor) :
  same_structure g (replace_nodes g v).
Proof. repeat split. Qed.

Lemma same_structure_replace_globals (g : GraphsTuple) (v : option Tensor) :
  same_structure g (replace_globals g v).
Proof. repeat split. Qed.

Lemma same_structure_trans (g1 g2 g3 : GraphsTuple) :
  same_structure g1 g2 -> same_structure g2 g3 -> same_structure g1 g3.
Proof.
  unfold same_structure. intros (?&?&?&?) (?&?&?&?). repeat split; congruence.
Qed.

(** Rewrites the output of a block as its input with one field replaced. *)
Ltac block_frame H :=
  first [ apply EdgeBlock_build_frame in H
        | apply NodeBlock_build_frame in H
        | apply GlobalBlock_build_frame in H
        | apply SelfAttention_build_frame in H ];
  destruct H as [? ->].

(** ** Default options (C6) *)

(** C6. [GraphNetwork] built with [edge_block_opt], [node_block_opt] and
    [global_block_opt] all [None]: the construction succeeds, and every
    [use_*] flag of the three blocks is true except [use_sent_edges] of the
    NodeBlock, which [_DEFAULT_NODE_BLOCK_OPT] sets to false. *)
Theorem GraphNetwork_default_flags (em nm gm : model) (r : reducer) :
  exists net,
    GraphNetwork_init em nm gm r None None None = Ok net /\
    (eb_use_edges (gn_edge_block net) = true /\
     eb_use_receiver_nodes (gn_edge_block net) = true /\
     eb_use_sender_nodes (gn_edge_block net) = true /\
     eb_use_globals (gn_edge_block net) = true) /\
    (nb_use_received_edges (gn_node_block net) = true /\
     nb_use_sent_edges (gn_node_block net) = false /\
     nb_use_nodes (gn_node_block net) = true /\
     nb_use_globals (gn_node_block net) = true) /\
    (gb_use_edges (gn_global_block net) = true /\
     gb_use_nodes (gn_global_block net) = true /\
     gb_use_globals (gn_global_block net) = true).
Proof.
  eexists. split; [vm_compute; reflexivity|]. simpl. tauto.
Qed.

(** ** EdgeGAT needs the sender nodes (C9) *)

(** C9. Constructing [EdgeGAT] with an [edge_block_opt] whose
    [use_sender_nodes] is false raises (the [assert] fails) whatever the
    other arguments are; no module is returned, so no graph can be passed to
    it. *)
Theorem EdgeGAT_init_without_sender_nodes
    (attention_node_projection_model attention_edge_projection_model
       query_key_product_model node_model_fn edge_model_fn global_model_fn : model)
    (num_heads key_size value_size : nat)
    (edge_block_opt : gmap string optval)
    (global_block_opt : option (gmap string optval)) :
  edge_block_opt !! "use_sender_nodes" = Some (OBool false) ->
  EdgeGAT_init attention_node_projection_model attention_edge_projection_model
               query_key_product_model node_model_fn edge_model_fn global_model_fn
               num_heads key_size value_size
               (Some edge_block_opt) global_block_opt
  = Raise AssertionError.
Proof.
  intros Hopt. unfold EdgeGAT_init, getitem, _make_default_edge_block_opt.
  simpl dict_or_empty.
  rewrite (fill_defaults_keeps _ _ _ _ Hopt). reflexivity.
Qed.

Lemma EdgeGAT_init_without_sender_nodes_witness :
  EdgeGAT_init identity_model identity_model identity_model
               identity_model identity_model identity_model 2 3 3
               (Some {["use_sender_nodes" := OBool false]}) None
  = Raise AssertionError.
Proof.
  apply (EdgeGAT_init_without_sender_nodes
           identity_model identity_model identity_model
           identity_model identity_model identity_model 2 3 3
           {["use_sender_nodes" := OBool false]} None).
  reflexivity.
Defined.

(** ** Frame of the composite architectures (C4, C8, C10) *)

(** C10. Whenever [SelfAttention] returns, the result is the input
    [attention_graph] with only [nodes] replaced by a tensor: [edges],
    [globals], [senders], [receivers], [n_node] and [n_edge] are the
    original ones, so no intermediate per-edge tensor shows in [edges]. *)
Theorem SelfAttention_replaces_only_nodes
    (node_values node_keys node_queries : Tensor)
    (attention_graph out : GraphsTuple) :
  SelfAttention_build node_values node_keys node_queries attention_graph = Ok out ->
  edges out = edges attention_graph /\
  globals out = globals attention_graph /\
  senders out = senders attention_graph /\
  receivers out = receivers attention_graph /\
  n_node out = n_node attention_graph /\
  n_edge out = n_edge attention_graph /\
  (exists t, nodes out = Some t) /\
  out = replace_nodes attention_graph (nodes out).
Proof.
  intros H. block_frame H. simpl. repeat split; eauto.
Qed.

(** C4. Whenever a composite architecture returns on a graph, the result has
    the [n_node], [n_edge], [senders] and [receivers] of the input, hence
    its totals and number of graphs, and every feature field the
    architecture does not document as updated is the input's. *)
Theorem architectures_preserve_structure (A : architecture) (g out : GraphsTuple) :
  run A g = Ok out ->
  same_structure g out /\
  total_edges out = total_edges g /\
  total_nodes out = total_nodes g /\
  num_graphs out = num_graphs g /\
  forall f, documented_update A f = false -> get_feature f out = get_feature f g.
Proof.
  intros H.
  assert (Hs : same_structure g out /\
               forall f, documented_update A f = false ->
                         get_feature f out = get_feature f g).
  { destruct A as [net|net|net|net|net|net|v k q]; simpl in H.
    - unfold GraphNetwork_build in H. inv_binds H.
      block_frame Hstep. block_frame Hstep0. block_frame H.
      split; [repeat split | intros f; discriminate].
    - unfold GraphIndependent_build in H. inv_binds H. injection H as <-.
      split; [repeat split | intros f; discriminate].
    - unfold InteractionNetwork_build in H. inv_binds H.
      block_frame Hstep. block_frame H.
      split; [repeat split | intros [| |]; simpl; (discriminate || reflexivity)].
    - unfold RelationNetwork_build in H. inv_binds H. injection H as <-.
      split; [repeat split | intros [| |]; simpl; (discriminate || reflexivity)].
    - unfold DeepSets_build in H. inv_binds H.
      block_frame Hstep. block_frame H.
      split; [repeat split | intros [| |]; simpl; (discriminate || reflexivity)].
    - unfold CommNet_build in H. inv_binds H. injection H as <-.
      split; [repeat split | intros [| |]; simpl; (discriminate || reflexivity)].
    - block_frame H.
      split; [repeat split | intros [| |]; simpl; (discriminate || reflexivity)]. }
  destruct Hs as [(Hn & He & Hsd & Hrc) Hf].
  unfold total_edges, total_nodes, num_graphs.
  rewrite Hn, He. repeat split; auto.
Qed.

Lemma SelfAttention_replaces_only_nodes_witness :
  exists out,
    SelfAttention_build example_values example_keys example_queries example_graph
    = Ok out /\
    edges out = edges example_graph /\
    globals out = globals example_graph /\
    senders out = senders example_graph /\
    receivers out = receivers example_graph /\
    n_node out = n_node example_graph /\
    n_edge out = n_edge example_graph /\
    (exists t, nodes out = Some t) /\
    out = replace_nodes example_graph (nodes out).
Proof.
  eexists. split; [vm_compute; reflexivity|].
  apply (SelfAttention_replaces_only_nodes
           example_values example_keys example_queries example_graph).
  vm_compute; reflexivity.
Defined.

Lemma architectures_preserve_structure_witness :
  exists net out,
    InteractionNetwork_init identity_model identity_model tf_unsorted_segment_sum
    = Ok net /\
    run (AInteractionNetwork net) example_graph = Ok out /\
    same_structure example_graph out /\
    total_edges out = total_edges example_graph /\
    total_nodes out = total_nodes example_graph /\
    num_graphs out = num_graphs example_graph /\
    forall f, documented_update (AInteractionNetwork net) f = false ->
              get_feature f out = get_feature f example_graph.
Proof.
  eexists. eexists. split; [vm_compute; reflexivity|].
  split; [vm_compute; reflexivity|].
  apply (architectures_preserve_structure (AInteractionNetwork _) example_graph).
  vm_compute; reflexivity.
Defined.

Lemma single_Ok_inv (m : result Tensor) (l : list Tensor) :
  (do t <- m; Ok [t]) = Ok l -> exists t, m = Ok t /\ l = [t].
Proof.
  intros H. inv_bind H. injection H as <-. eauto.
Qed.

(** C8. [RelationNetwork] builds an EdgeBlock on receiver and sender nodes
    only and a GlobalBlock on the aggregated edges only; whenever it returns,
    the result is the input graph with only [globals] replaced, by the
    output of the global model on the aggregation of the per-edge features
    computed from the pairs of node features; [edges] and [nodes] are the
    input's, so the per-edge features do not show in the result. *)
Theorem RelationNetwork_returns_only_new_globals
    (edge_model_fn global_model_fn : model) (r : reducer)
    (net : RelationNetwork) (g out : GraphsTuple) :
  RelationNetwork_init edge_model_fn global_model_fn r = Ok net ->
  RelationNetwork_build net g = Ok out ->
  rn_edge_block net = mkEdgeBlock edge_model_fn false true true false /\
  (gb_use_edges (rn_global_block net) = true /\
   gb_use_nodes (rn_global_block net) = false /\
   gb_use_globals (rn_global_block net) = false) /\
  edges out = edges g /\ nodes out = nodes g /\ same_structure g out /\
  exists rn sn pairs new_edges agg new_globals,
    broadcast_receiver_nodes_to_edges g = Ok rn /\
    broadcast_sender_nodes_to_edges g = Ok sn /\
    concat_last2 rn sn = Ok pairs /\
    edge_model_fn pairs = Ok new_edges /\
    EdgesToGlobalsAggregator r (replace_edges g (Some new_edges)) = Ok agg /\
    global_model_fn agg = Ok new_globals /\
    out = replace_globals g (Some new_globals).
Proof.
  intros Hinit Hrun. vm_compute in Hinit. injection Hinit as <-.
  split; [reflexivity|]. split; [simpl; tauto|].
  unfold RelationNetwork_build in Hrun. simpl in Hrun. inv_binds Hrun.
  injection Hrun as <-.
  unfold EdgeBlock_build in Hstep. simpl in Hstep. inv_binds Hstep.
  injection Hstep as <-.
  unfold GlobalBlock_build in Hstep0. simpl in Hstep0. inv_binds Hstep0.
  injection Hstep0 as <-.
  apply single_Ok_inv in Hstep1 as (rn & Hrn & ->).
  apply single_Ok_inv in Hstep2 as (sn & Hsn & ->).
  apply single_Ok_inv in Hstep as (agg & Hagg & ->).
  simpl in Hstep3, Hstep5. injection Hstep5 as <-.
  repeat split.
  exists rn, sn, a3, a4, agg, a6. repeat split; assumption.
Qed.

Lemma RelationNetwork_returns_only_new_globals_witness :
  exists net out,
    RelationNetwork_init identity_model identity_model tf_unsorted_segment_sum
    = Ok net /\
    RelationNetwork_build net example_graph = Ok out /\
    edges out = edges example_graph /\ nodes out = nodes example_graph.
Proof.
  eexists. eexists. split; [vm_compute; reflexivity|].
  split; [vm_compute; reflexivity|].
  destruct (RelationNetwork_returns_only_new_globals
              identity_model identity_model tf_unsorted_segment_sum
              _ example_graph _ ltac:(vm_compute; reflexivity)
              ltac:(vm_compute; reflexivity))
    as (_ & _ & He & Hn & _).
  split; [exact He | exact Hn].
Defined.

(** ** InteractionNetwork (C7) *)

Lemma EdgeBlock_build_ignores_globals (b : EdgeBlock) (g : GraphsTuple)
    (x : option Tensor) :
  eb_use_globals b = false ->
  EdgeBlock_build b (replace_globals g x)
  = do out <- EdgeBlock_build b g; Ok (replace_globals out x).
Proof.
  intros Hg. unfold EdgeBlock_build. rewrite Hg. simpl.
  unfold broadcast_receiver_nodes_to_edges, broadcast_sender_nodes_to_edges.
  simpl.
  repeat match goal with
         | |- context [bind ?m _] =>
             lazymatch m with
             | bind _ _ => fail
             | _ => destruct m; simpl; try reflexivity
             end
         end.
Qed.

Lemma NodeBlock_build_ignores_globals (b : NodeBlock) (g : GraphsTuple)
    (x : option Tensor) :
  nb_use_globals b = false ->
  NodeBlock_build b (replace_globals g x)
  = do out <- NodeBlock_build b g; Ok (replace_globals out x).
Proof.
  intros Hg. unfold NodeBlock_build. rewrite Hg. simpl.
  unfold ReceivedEdgesToNodesAggregator, SentEdgesToNodesAggregator.
  simpl.
  repeat match goal with
         | |- context [bind ?m _] =>
             lazymatch m with
             | bind _ _ => fail
             | _ => destruct m; simpl; try reflexivity
             end
         end.
Qed.

(** C7, as the code has it.  [InteractionNetwork] builds an EdgeBlock with
    [use_globals] false (its other inputs enabled) and a NodeBlock whose
    enabled inputs are the aggregated received edges and the nodes, with
    sent edges and globals disabled; it returns the NodeBlock's output on the
    EdgeBlock's output.  The globals are neither read nor updated: the result
    carries the input's globals, whatever they are. *)
Theorem InteractionNetwork_blocks (edge_model_fn node_model_fn : model) (r : reducer) :
  exists net,
    InteractionNetwork_init edge_model_fn node_model_fn r = Ok net /\
    in_edge_block net = mkEdgeBlock edge_model_fn true true true false /\
    in_node_block net
    = mkNodeBlock node_model_fn true false true false r tf_unsorted_segment_sum /\
    (forall g, InteractionNetwork_build net g
               = do g1 <- EdgeBlock_build (in_edge_block net) g;
                 NodeBlock_build (in_node_block net) g1) /\
    (forall g x, InteractionNetwork_build net (replace_globals g x)
                 = do out <- InteractionNetwork_build net g;
                   Ok (replace_globals out x)) /\
    (forall g out, InteractionNetwork_build net g = Ok out ->
                   globals out = globals g).
Proof.
  eexists. split; [vm_compute; reflexivity|].
  split; [reflexivity|]. split; [reflexivity|]. split; [reflexivity|].
  split.
  - intros g x. unfold InteractionNetwork_build.
    rewrite EdgeBlock_build_ignores_globals by reflexivity.
    destruct (EdgeBlock_build _ g) as [g1|e]; simpl; [|reflexivity].
    apply NodeBlock_build_ignores_globals. reflexivity.
  - intros g out H. unfold InteractionNetwork_build in H. inv_bind H.
    block_frame Hstep. block_frame H. reflexivity.
Qed.

(** The NodeBlock of an [InteractionNetwork] has the nodes among its inputs:
    on the example graph, with models that return their input, the new node
    features end with the old ones. *)
Lemma InteractionNetwork_node_block_uses_nodes :
  exists net out t,
    InteractionNetwork_init identity_model identity_model tf_unsorted_segment_sum
    = Ok net /\
    ~ only_received_edges (in_node_block net) /\
    InteractionNetwork_build net example_graph = Ok out /\
    nodes out = Some t /\ inner t = [4] /\
    map (fun row => nth 3 row 0%R) (rows t) = [1%R; 2%R].
Proof.
  eexists. eexists. eexists. split; [vm_compute; reflexivity|].
  split; [intros (_ & _ & Hn & _); discriminate Hn|].
  split; [vm_compute; reflexivity|].
  split; [reflexivity|]. split; reflexivity.
Qed.

(** ** The TensorFlow operations on valid arguments *)

Lemma forallb_ltb_Forall (ids : list nat) (n : nat) :
  Forall (fun i => i < n) ids -> forallb (fun i => Nat.ltb i n) ids = true.
Proof.
  intros H. apply forallb_forall. intros i Hi.
  apply Nat.ltb_lt. rewrite Forall_forall in H. apply H.
  apply list_elem_of_In. exact Hi.
Qed.

Lemma forallb_ltb_inv (ids : list nat) (n : nat) :
  forallb (fun i => Nat.ltb i n) ids = true -> Forall (fun i => i < n) ids.
Proof.
  intros H. rewrite forallb_forall in H. apply Forall_forall. intros i Hi.
  apply Nat.ltb_lt. apply H. apply list_elem_of_In. exact Hi.
Qed.

Lemma segment_reduce_Ok (f : nat -> list (list R) -> list R)
    (data : Tensor) (ids : list nat) (n : nat) :
  length ids = length (rows data) -> Forall (fun i => i < n) ids ->
  segment_reduce f data ids n
  = Ok (mkTensor (inner data)
          (map (fun s => f (rowsize data) (segment_rows s ids (rows data)))
               (seq 0 n))).
Proof.
  intros Hlen Hids. unfold segment_reduce.
  rewrite Hlen, Nat.eqb_refl. simpl.
  rewrite forallb_ltb_Forall by assumption. reflexivity.
Qed.

Lemma segment_reduce_Ok_inv (f : nat -> list (list R) -> list R)
    (data out : Tensor) (ids : list nat) (n : nat) :
  segment_reduce f data ids n = Ok out ->
  length ids = length (rows data) /\ Forall (fun i => i < n) ids /\
  out = mkTensor (inner data)
          (map (fun s => f (rowsize data) (segment_rows s ids (rows data)))
               (seq 0 n)).
Proof.
  unfold segment_reduce. intros H. inv_bind H. inv_bind H.
  apply guard_Ok_inv in Hstep, Hstep0.
  apply Nat.eqb_eq in Hstep. apply forallb_ltb_inv in Hstep0.
  injection H as <-. auto.
Qed.

Lemma mapM_Ok {A B : Type} (f : A -> result B) (g : A -> B) (l : list A) :
  (forall a, In a l -> f a = Ok (g a)) -> mapM f l = Ok (map g l).
Proof.
  induction l as [|a l IH]; intros H; simpl; [reflexivity|].
  rewrite H by (left; reflexivity). simpl.
  rewrite IH by (intros; apply H; right; assumption). reflexivity.
Qed.

Lemma mapM_Ok_inv {A B : Type} (f : A -> result B) (l : list A) (bs : list B) :
  mapM f l = Ok bs -> Forall2 (fun a b => f a = Ok b) l bs.
Proof.
  revert bs. induction l as [|a l IH]; intros bs H; simpl in H.
  - injection H as <-. constructor.
  - inv_bind H. inv_bind H. injection H as <-. constructor; auto.
Qed.

(** Gathering rows at valid indices. *)
Lemma tf_gather_Ok (params : Tensor) (ids : list nat) :
  Forall (fun i => i < length (rows params)) ids ->
  tf_gather params ids
  = Ok (mkTensor (inner params) (map (fun i => nth i (rows params) []) ids)).
Proof.
  intros H. unfold tf_gather.
  rewrite (mapM_Ok _ (fun i => nth i (rows params) [])); [reflexivity|].
  intros i Hi. rewrite Forall_forall in H.
  specialize (H i (proj2 (list_elem_of_In _ _) Hi)).
  destruct (nth_error (rows params) i) as [r|] eqn:E.
  - rewrite (nth_error_nth _ _ _ E). reflexivity.
  - apply nth_error_None in E. lia.
Qed.

Lemma tf_gather_Ok_inv (params out : Tensor) (ids : list nat) :
  tf_gather params ids = Ok out ->
  Forall (fun i => i < length (rows params)) ids /\
  out = mkTensor (inner params) (map (fun i => nth i (rows params) []) ids).
Proof.
  unfold tf_gather. intros H. inv_bind H. injection H as <-.
  apply mapM_Ok_inv in Hstep.
  assert (Hall : Forall (fun i => i < length (rows params)) ids /\
                 a = map (fun i => nth i (rows params) []) ids).
  { induction Hstep as [|i r ids rs Hi _ [IH1 IH2]]; [split; [constructor|reflexivity]|].
    destruct (nth_error (rows params) i) as [r'|] eqn:E; [|discriminate].
    injection Hi as ->. split.
    - constructor; [|exact IH1]. apply nth_error_Some. congruence.
    - simpl. rewrite (nth_error_nth _ _ _ E), IH2. reflexivity. }
  destruct Hall as [Hall ->]. auto.
Qed.

(** Gathering from a table indexed by [seq 0 n]. *)
Lemma tf_gather_table (inn : list nat) (f : nat -> list R) (n : nat) (ids : list nat) :
  Forall (fun i => i < n) ids ->
  tf_gather (mkTensor inn (map f (seq 0 n))) ids = Ok (mkTensor inn (map f ids)).
Proof.
  intros H. rewrite tf_gather_Ok.
  - simpl. f_equal. f_equal. apply map_ext_in. intros i Hi.
    rewrite Forall_forall in H.
    specialize (H i (proj2 (list_elem_of_In _ _) Hi)).
    rewrite (nth_indep _ [] (f 0)) by (rewrite length_map, length_seq; exact H).
    rewrite map_nth, seq_nth by exact H. reflexivity.
  - simpl. rewrite length_map, length_seq. exact H.
Qed.

Lemma list_nat_eqb_eq (a b : list nat) : list_nat_eqb a b = true <-> a = b.
Proof. unfold list_nat_eqb. apply bool_decide_eq_true. Qed.

Lemma list_nat_eqb_refl (a : list nat) : list_nat_eqb a a = true.
Proof. apply list_nat_eqb_eq. reflexivity. Qed.

Lemma tf_elementwise_Ok (op : R -> R -> R) (a b : Tensor) :
  shape a = shape b ->
  tf_elementwise op a b
  = Ok (mkTensor (inner a) (zip_with (zip_with op) (rows a) (rows b))).
Proof.
  intros H. unfold tf_elementwise. rewrite H, list_nat_eqb_refl. reflexivity.
Qed.

Lemma tf_elementwise_Ok_inv (op : R -> R -> R) (a b out : Tensor) :
  tf_elementwise op a b = Ok out ->
  shape a = shape b /\
  out = mkTensor (inner a) (zip_with (zip_with op) (rows a) (rows b)).
Proof.
  unfold tf_elementwise. intros H. inv_bind H. apply guard_Ok_inv in Hstep.
  apply list_nat_eqb_eq in Hstep. injection H as <-. auto.
Qed.

(** ** Segment softmax on the reals *)

Lemma _unsorted_segment_softmax_Ok (data : Tensor) (ids : list nat) (n : nat) :
  length ids = length (rows data) -> Forall (fun i => i < n) ids ->
  _unsorted_segment_softmax data ids n
  = Ok (mkTensor (inner data) (softmax_rows (rowsize data) ids (rows data))).
Proof.
  intros Hlen Hids. unfold _unsorted_segment_softmax.
  unfold tf_unsorted_segment_max, tf_unsorted_segment_sum.
  rewrite segment_reduce_Ok by assumption. simpl.
  rewrite tf_gather_table by assumption. simpl.
  unfold tf_sub. rewrite tf_elementwise_Ok
    by (unfold shape; simpl; rewrite length_map; congruence).
  simpl.
  rewrite segment_reduce_Ok; simpl;
    [| rewrite length_map, length_zip_with, length_map; lia | assumption].
  rewrite tf_gather_table by assumption. simpl.
  unfold tf_div. rewrite tf_elementwise_Ok; [reflexivity|].
  unfold shape; simpl. rewrite !length_map, length_zip_with, length_map.
  f_equal. lia.
Qed.

Lemma Rmax_shift (a b c : R) : Rmax (a + c) (b + c) = (Rmax a b + c)%R.
Proof.
  unfold Rmax. destruct (Rle_dec (a + c) (b + c)), (Rle_dec a b); lra.
Qed.

Lemma row_max_shift (c : R) (a b : list R) :
  row_max (map (fun x => (x + c)%R) a) (map (fun x => (x + c)%R) b)
  = map (fun x => (x + c)%R) (row_max a b).
Proof.
  unfold row_max. revert b. induction a as [|x a IH]; intros [|y b]; simpl;
    try reflexivity.
  rewrite IH, Rmax_shift. reflexivity.
Qed.

Lemma row_sub_shift (c : R) (a b : list R) :
  zip_with Rminus (map (fun x => (x + c)%R) a) (map (fun x => (x + c)%R) b)
  = zip_with Rminus a b.
Proof.
  revert b. induction a as [|x a IH]; intros [|y b]; simpl; try reflexivity.
  rewrite IH. f_equal. lra.
Qed.

Lemma max_rows_shift (c : R) (k : nat) (l : list (list R)) :
  l <> [] ->
  max_rows k (map (map (fun x => (x + c)%R)) l)
  = map (fun x => (x + c)%R) (max_rows k l).
Proof.
  destruct l as [|r l]; [congruence|]. intros _. simpl.
  revert r. induction l as [|r' l IH]; intros r; simpl; [reflexivity|].
  rewrite row_max_shift. apply IH.
Qed.

Lemma segment_rows_shift (c : R) (s j : nat) (ids : list nat) (rs : list (list R)) :
  segment_rows j ids
    (zip_with (fun i row => if Nat.eqb i s then map (fun x => (x + c)%R) row else row)
              ids rs)
  = if Nat.eqb j s then map (map (fun x => (x + c)%R)) (segment_rows j ids rs)
    else segment_rows j ids rs.
Proof.
  unfold segment_rows. revert rs.
  induction ids as [|i ids IH]; intros [|r rs]; simpl;
    try (destruct (Nat.eqb j s); reflexivity).
  specialize (IH rs).
  destruct (Nat.eqb_spec i j) as [->|Hij]; simpl.
  - rewrite IH. destruct (Nat.eqb j s); reflexivity.
  - exact IH.
Qed.

Lemma segment_rows_member (s : nat) (ids : list nat) (rs : list (list R))
    (r : list R) :
  In (s, r) (combine ids rs) -> segment_rows s ids rs <> [].
Proof.
  unfold segment_rows. revert rs.
  induction ids as [|i ids IH]; intros [|r' rs]; simpl; try tauto.
  intros [Heq|Hin].
  - injection Heq as -> ->. rewrite Nat.eqb_refl. simpl. discriminate.
  - destruct (Nat.eqb i s); simpl; [discriminate | eauto].
Qed.

Lemma zip_sub_pointwise (sh : nat -> list R -> list R) (F F' : nat -> list R)
    (ids : list nat) (rs : list (list R)) :
  (forall i r, In (i, r) (combine ids rs) ->
               zip_with Rminus (sh i r) (F' i) = zip_with Rminus r (F i)) ->
  zip_with (zip_with Rminus) (zip_with sh ids rs) (map F' ids)
  = zip_with (zip_with Rminus) rs (map F ids).
Proof.
  revert rs. induction ids as [|i ids IH]; intros [|r rs] H; simpl;
    try reflexivity.
  rewrite (H i r) by (left; reflexivity).
  rewrite IH by (intros; apply H; right; assumption). reflexivity.
Qed.

Lemma shifted_rows_shift (c : R) (s k : nat) (ids : list nat) (rs : list (list R)) :
  shifted_rows k ids
    (zip_with (fun i row => if Nat.eqb i s then map (fun x => (x + c)%R) row else row)
              ids rs)
  = shifted_rows k ids rs.
Proof.
  unfold shifted_rows. apply zip_sub_pointwise. intros i r Hin.
  rewrite segment_rows_shift.
  destruct (Nat.eqb_spec i s) as [->|Hne]; [|reflexivity].
  rewrite max_rows_shift by (eapply segment_rows_member; eassumption).
  apply row_sub_shift.
Qed.

Lemma softmax_zeros :
  _unsorted_segment_softmax (mkTensor [] [[0%R]; [0%R]; [0%R]]) [0; 0; 0] 1
  = Ok (mkTensor [] [[(1 / 3)%R]; [(1 / 3)%R]; [(1 / 3)%R]]).
Proof.
  rewrite _unsorted_segment_softmax_Ok by (repeat constructor).
  unfold softmax_rows, shifted_rows, segment_rows, sum_rows, max_rows, row_add,
    row_max, rowsize, prod_list.
  simpl.
  replace (Rmax (Rmax 0 0) 0) with 0%R
    by (unfold Rmax; repeat destruct Rle_dec; lra).
  replace (0 - 0)%R with 0%R by lra. rewrite exp_0.
  replace (1 / (1 + (1 + (1 + 0))))%R with (1 / 3)%R by lra.
  reflexivity.
Qed.

(** On the reals no addition rounds: for segment ids in range, adding a
    constant [c] to every entry of the rows of one segment [s] does not
    change the result of [_unsorted_segment_softmax] (on that segment or
    elsewhere), and the softmax returns; a single segment with logits
    [0, 0, 0] gives [1/3, 1/3, 1/3].  (For floats see the section on the
    segment softmax for every dtype.) *)
Theorem segment_softmax_shift_invariant
    (data : Tensor) (segment_ids : list nat) (num_segments s : nat) (c : R) :
  length segment_ids = length (rows data) ->
  Forall (fun i => i < num_segments) segment_ids ->
  (exists out,
     _unsorted_segment_softmax data segment_ids num_segments = Ok out /\
     _unsorted_segment_softmax (shift_segment c s segment_ids data)
                               segment_ids num_segments = Ok out) /\
  _unsorted_segment_softmax (mkTensor [] [[0%R]; [0%R]; [0%R]]) [0; 0; 0] 1
  = Ok (mkTensor [] [[(1 / 3)%R]; [(1 / 3)%R]; [(1 / 3)%R]]).
Proof.
  intros Hlen Hids. split; [|exact softmax_zeros].
  eexists. split; [apply _unsorted_segment_softmax_Ok; assumption|].
  rewrite _unsorted_segment_softmax_Ok; [|simpl|assumption].
  - unfold softmax_rows, shift_segment, rowsize. simpl.
    rewrite shifted_rows_shift. reflexivity.
  - rewrite length_zip_with. lia.
Qed.

Lemma segment_softmax_shift_invariant_witness :
  exists out,
    _unsorted_segment_softmax (mkTensor [2] [[1%R; 2%R]; [3%R; 4%R]; [5%R; 6%R]])
                              [1; 0; 1] 2 = Ok out /\
    _unsorted_segment_softmax
      (shift_segment 10%R 1 [1; 0; 1]
                     (mkTensor [2] [[1%R; 2%R]; [3%R; 4%R]; [5%R; 6%R]]))
      [1; 0; 1] 2 = Ok out.
Proof.
  apply (segment_softmax_shift_invariant
           (mkTensor [2] [[1%R; 2%R]; [3%R; 4%R]; [5%R; 6%R]]) [1; 0; 1] 2 1 10%R).
  - reflexivity.
  - repeat constructor.
Defined.

(** ** Self-attention: nodes without incoming edges (C3) *)

Lemma segment_rows_absent (s : nat) (ids : list nat) (data : list (list R)) :
  ~ In s ids -> segment_rows s ids data = [].
Proof.
  unfold segment_rows. revert data.
  induction ids as [|i ids IH]; intros [|r data] Hs; simpl; try reflexivity.
  destruct (Nat.eqb_spec i s) as [->|Hne].
  - exfalso. apply Hs. left. reflexivity.
  - apply IH. intros Hin. apply Hs. right. exact Hin.
Qed.

Lemma tf_mul_inner (a b out : Tensor) :
  tf_mul a b = Ok out -> inner out = inner a.
Proof.
  unfold tf_mul. intros H.
  destruct (list_nat_eqb (shape a) (shape b)).
  - injection H as <-. reflexivity.
  - destruct (_ && _); [|discriminate]. injection H as <-. reflexivity.
Qed.

Lemma require_Ok_inv {A : Type} (o : option A) (a : A) :
  require o = Ok a -> o = Some a.
Proof. destruct o; simpl; intros H; [injection H as <-; reflexivity | discriminate]. Qed.

(** C3. Whenever [SelfAttention] returns, a node below [total_nodes] that is
    the receiver of no edge has, in the new node tensor, a row of zeros (of
    the size of a row of [node_values]), whatever the values, keys and
    queries are. *)
Theorem SelfAttention_isolated_node_zero
    (node_values node_keys node_queries : Tensor)
    (attention_graph out : GraphsTuple) (rc : list nat) (n : nat) :
  SelfAttention_build node_values node_keys node_queries attention_graph = Ok out ->
  receivers attention_graph = Some rc ->
  ~ In n rc ->
  n < total_nodes attention_graph ->
  exists t, nodes out = Some t /\ inner t = inner node_values /\
            nth_error (rows t) n = Some (repeat 0%R (rowsize node_values)).
Proof.
  intros H Hrc Hn Hlt. unfold SelfAttention_build in H. inv_binds H.
  injection H as <-. simpl.
  unfold broadcast_sender_nodes_to_edges in Hstep0. simpl in Hstep0.
  inv_bind Hstep0. apply tf_gather_Ok_inv in Hstep0 as [_ ->].
  apply tf_mul_inner in Hstep5. simpl in Hstep5.
  unfold ReceivedEdgesToNodesAggregator in Hstep6. simpl in Hstep6.
  rewrite Hrc in Hstep6. simpl in Hstep6.
  apply segment_reduce_Ok_inv in Hstep6 as (_ & _ & ->).
  eexists. split; [reflexivity|]. simpl. split; [exact Hstep5|].
  rewrite nth_error_map, nth_error_seq.
  unfold total_nodes in Hlt. apply Nat.ltb_lt in Hlt. rewrite Hlt. simpl.
  rewrite segment_rows_absent by assumption.
  unfold sum_rows, rowsize. simpl. rewrite Hstep5. reflexivity.
Qed.

Lemma SelfAttention_isolated_node_zero_witness :
  exists out t,
    SelfAttention_build example_values example_keys example_queries example_graph
    = Ok out /\
    nodes out = Some t /\ inner t = inner example_values /\
    nth_error (rows t) 0 = Some (repeat 0%R (rowsize example_values)).
Proof.
  destruct (SelfAttention_isolated_node_zero
              example_values example_keys example_queries example_graph
              _ [1; 1] 0 ltac:(vm_compute; reflexivity) ltac:(reflexivity))
    as (t & Ht & Hi & Hz).
  - simpl. intros [H|[H|[]]]; discriminate H.
  - unfold total_nodes. simpl. lia.
  - eexists. exists t. split; [vm_compute; reflexivity|]. auto.
Defined.

(** ** Entries of rows *)

Lemma nth_zip_with_lt (op : R -> R -> R) (a b : list R) (i : nat) :
  i < length a -> i < length b ->
  nth i (zip_with op a b) 0%R = op (nth i a 0%R) (nth i b 0%R).
Proof.
  revert b i. induction a as [|x a IH]; intros [|y b] [|i] Ha Hb; simpl in *;
    try lia; [reflexivity|].
  apply IH; lia.
Qed.

Lemma nth_zip_with_Rmult (a b : list R) (i : nat) :
  nth i (zip_with Rmult a b) 0%R = (nth i a 0 * nth i b 0)%R.
Proof.
  revert b i. induction a as [|x a IH]; intros [|y b] i; simpl.
  - destruct i; lra.
  - destruct i; lra.
  - destruct i; lra.
  - destruct i; [reflexivity | apply IH].
Qed.

Lemma nth_zip_with_Rdiv (a b : list R) (i : nat) :
  nth i (zip_with Rdiv a b) 0%R = (nth i a 0 / nth i b 0)%R.
Proof.
  assert (Hz : forall x : R, (x / 0 = 0)%R)
    by (intros x; unfold Rdiv; rewrite Rinv_0; lra).
  revert b i. induction a as [|x a IH]; intros [|y b] i; simpl.
  - destruct i; rewrite Hz; reflexivity.
  - destruct i; unfold Rdiv; lra.
  - destruct i; rewrite Hz; reflexivity.
  - destruct i; [reflexivity | apply IH].
Qed.

Lemma length_row_add (a b : list R) (k : nat) :
  length a = k -> length b = k -> length (row_add a b) = k.
Proof. intros Ha Hb. unfold row_add. rewrite length_zip_with. lia. Qed.

Lemma length_sum_rows (k : nat) (l : list (list R)) :
  Forall (fun r => length r = k) l -> length (sum_rows k l) = k.
Proof.
  unfold sum_rows. induction 1 as [|r l Hr _ IH]; simpl.
  - apply repeat_length.
  - apply length_row_add; assumption.
Qed.

Lemma sum_rows_nth (k j : nat) (l : list (list R)) :
  Forall (fun r => length r = k) l -> j < k ->
  nth j (sum_rows k l) 0%R = Rsum (map (fun r => nth j r 0%R) l).
Proof.
  intros Hl Hj. induction Hl as [|r l Hr Hl IH]; simpl.
  - unfold sum_rows. simpl. apply nth_repeat.
  - change (sum_rows k (r :: l)) with (row_add r (sum_rows k l)).
    unfold row_add. rewrite nth_zip_with_lt.
    + rewrite IH. reflexivity.
    + lia.
    + rewrite length_sum_rows by assumption. lia.
Qed.

Lemma length_fold_row_max (k : nat) (l : list (list R)) (r : list R) :
  Forall (fun r => length r = k) l -> length r = k ->
  length (fold_left row_max l r) = k.
Proof.
  intros Hl. revert r. induction Hl as [|r' l Hr' _ IH]; intros r Hr; simpl.
  - exact Hr.
  - apply IH. unfold row_max. rewrite length_zip_with. lia.
Qed.

Lemma fold_row_max_nth (k j : nat) (l : list (list R)) (r : list R) :
  Forall (fun r => length r = k) l -> length r = k -> j < k ->
  nth j (fold_left row_max l r) 0%R
  = fold_left (fun m r' => Rmax m (nth j r' 0%R)) l (nth j r 0%R).
Proof.
  intros Hl. revert r. induction Hl as [|r' l Hr' Hl IH]; intros r Hr Hj; simpl.
  - reflexivity.
  - rewrite IH; [| unfold row_max; rewrite length_zip_with; lia | exact Hj].
    unfold row_max. rewrite nth_zip_with_lt by lia. reflexivity.
Qed.

(** The rows of a segment are the rows at the indices of its edges. *)
Lemma segment_rows_shifted (n : nat) (ids : list nat) (data : list (list R))
    (k : nat) (idf : nat -> nat) (df : nat -> list R) :
  length ids = length data ->
  (forall j, j < length ids ->
             idf (k + j) = nth j ids 0 /\ df (k + j) = nth j data []) ->
  segment_rows n ids data
  = map df (List.filter (fun e => Nat.eqb (idf e) n) (seq k (length ids))).
Proof.
  unfold segment_rows. revert data k.
  induction ids as [|i ids IH]; intros [|r data] k Hlen Hf; simpl in *;
    try discriminate; [reflexivity|].
  destruct (Hf 0 ltac:(lia)) as [Hi Hr]. rewrite Nat.add_0_r in Hi, Hr.
  simpl in Hi, Hr. rewrite Hi.
  assert (IH' : map snd (List.filter (fun p => Nat.eqb (fst p) n) (combine ids data))
                = map df (List.filter (fun e => Nat.eqb (idf e) n)
                                      (seq (S k) (length ids)))).
  { apply IH; [lia|]. intros j Hj. specialize (Hf (S j) ltac:(lia)).
    simpl in Hf. rewrite Nat.add_succ_r in Hf. exact Hf. }
  destruct (Nat.eqb i n); simpl; rewrite IH'; [rewrite Hr|]; reflexivity.
Qed.

Lemma segment_rows_in_edges (n : nat) (ids : list nat) (data : list (list R)) :
  length ids = length data ->
  segment_rows n ids data = map (fun e => nth e data []) (in_edges ids n).
Proof.
  intros Hlen. unfold in_edges.
  apply (segment_rows_shifted n ids data 0 (fun e => nth e ids 0)
           (fun e => nth e data [])); [exact Hlen|].
  intros j _. split; reflexivity.
Qed.

Lemma in_edges_spec (rc : list nat) (n e : nat) :
  In e (in_edges rc n) <-> e < length rc /\ nth e rc 0 = n.
Proof.
  unfold in_edges. rewrite filter_In, in_seq, Nat.eqb_eq. simpl. lia.
Qed.

(** ** Chunks of a row *)

Lemma chunks_nth (d c h : nat) (l : list R) :
  h < c -> nth h (chunks d c l) [] = firstn d (skipn (h * d) l).
Proof.
  revert h l. induction c as [|c IH]; intros h l Hh; [lia|].
  destruct h as [|h]; simpl; [reflexivity|].
  rewrite IH by lia. rewrite skipn_skipn. f_equal. f_equal. lia.
Qed.

Lemma length_chunks (d c : nat) (l : list R) : length (chunks d c l) = c.
Proof. revert l. induction c as [|c IH]; intros l; simpl; [|rewrite IH]; reflexivity. Qed.

Lemma skipn_cons_nth (m : nat) (l : list R) :
  m < length l -> skipn m l = nth m l 0%R :: skipn (S m) l.
Proof.
  revert l. induction m as [|m IH]; intros [|x l] H; simpl in *; try lia.
  - reflexivity.
  - apply IH. lia.
Qed.

Lemma Rsum_firstn_skipn (d m : nat) (l : list R) :
  m + d <= length l ->
  Rsum (firstn d (skipn m l)) = Rsum (map (fun j => nth (m + j) l 0%R) (seq 0 d)).
Proof.
  revert m. induction d as [|d IH]; intros m H; [reflexivity|].
  rewrite skipn_cons_nth by lia. simpl.
  rewrite IH by lia. rewrite Nat.add_0_r. f_equal.
  rewrite <- seq_shift, map_map. f_equal. apply map_ext. intros j.
  f_equal. lia.
Qed.

Lemma scale_chunks_nth (d : nat) (rb ra : list R) (h j : nat) :
  length ra = length rb * d -> h < length rb -> j < d ->
  nth (h * d + j) (scale_chunks d ra rb) 0%R
  = (nth (h * d + j) ra 0 * nth h rb 0)%R.
Proof.
  unfold scale_chunks. revert ra h.
  induction rb as [|w rb IH]; intros ra h Hlen Hh Hj; simpl in *; [lia|].
  assert (Hd : length (map (fun x => (x * w)%R) (firstn d ra)) = d).
  { rewrite length_map, length_firstn. lia. }
  destruct h as [|h]; simpl.
  - rewrite app_nth1 by lia.
    rewrite (nth_indep _ 0%R (0 * w)%R) by lia.
    rewrite (map_nth (fun x => (x * w)%R)). rewrite nth_firstn.
    destruct (Nat.ltb_spec j d); [reflexivity | lia].
  - rewrite app_nth2 by lia. rewrite Hd.
    replace (d + h * d + j - d) with (h * d + j) by lia.
    rewrite IH; [| rewrite length_skipn; lia | lia | lia].
    rewrite nth_skipn. f_equal. f_equal. lia.
Qed.

Lemma scale_chunks_one (ra rb : list R) :
  length ra = length rb -> scale_chunks 1 ra rb = zip_with Rmult ra rb.
Proof.
  unfold scale_chunks. revert ra.
  induction rb as [|w rb IH]; intros [|x ra] H; simpl in *; try discriminate;
    [reflexivity|].
  change (skipn 0 ra) with ra. rewrite IH by lia. reflexivity.
Qed.

Lemma length_scale_chunks (d : nat) (ra rb : list R) :
  length ra = length rb * d -> length (scale_chunks d ra rb) = length rb * d.
Proof.
  unfold scale_chunks. revert ra.
  induction rb as [|w rb IH]; intros ra H; simpl in *; [reflexivity|].
  rewrite length_app, length_map, length_firstn, IH
    by (rewrite length_skipn; lia).
  lia.
Qed.

(** ** Entries of the segment softmax *)

Lemma nth_zip_with_gen {X Y Z : Type} (op : X -> Y -> Z) (a : list X) (b : list Y)
    (i : nat) (dx : X) (dy : Y) (dz : Z) :
  i < length a -> i < length b ->
  nth i (zip_with op a b) dz = op (nth i a dx) (nth i b dy).
Proof.
  revert b i. induction a as [|x a IH]; intros [|y b] [|i] Ha Hb; simpl in *;
    try lia; [reflexivity|].
  apply IH; lia.
Qed.

Lemma nth_map_lt {X Y : Type} (f : X -> Y) (l : list X) (i : nat) (dx : X) (dy : Y) :
  i < length l -> nth i (map f l) dy = f (nth i l dx).
Proof.
  revert i. induction l as [|x l IH]; intros [|i] H; simpl in *; try lia;
    [reflexivity|].
  apply IH. lia.
Qed.

Lemma Forall_segment_rows (P : list R -> Prop) (s : nat) (ids : list nat)
    (data : list (list R)) :
  Forall P data -> Forall P (segment_rows s ids data).
Proof.
  unfold segment_rows. intros H. revert ids.
  induction H as [|r data Hr _ IH]; intros [|i ids]; simpl; try constructor.
  destruct (Nat.eqb i s); simpl; [constructor; [exact Hr|]|]; apply IH.
Qed.

Lemma length_max_rows (k : nat) (l : list (list R)) :
  Forall (fun r => length r = k) l -> length (max_rows k l) = k.
Proof.
  intros H. destruct H as [|r l Hr Hl]; simpl.
  - apply repeat_length.
  - apply length_fold_row_max; assumption.
Qed.

Lemma Forall_nth_rows (k : nat) (rs : list (list R)) (e : nat) :
  Forall (fun r => length r = k) rs -> e < length rs -> length (nth e rs []) = k.
Proof.
  intros H He. rewrite Forall_forall in H. apply H.
  apply list_elem_of_In. apply nth_In. exact He.
Qed.

Lemma length_shifted_rows (k : nat) (ids : list nat) (rs : list (list R)) :
  length ids = length rs -> length (shifted_rows k ids rs) = length rs.
Proof.
  intros H. unfold shifted_rows. rewrite length_zip_with, length_map. lia.
Qed.

Lemma Forall_zip_with_gen {X Y Z : Type} (f : X -> Y -> Z)
    (P : X -> Prop) (Q : Y -> Prop) (S : Z -> Prop) (a : list X) (b : list Y) :
  Forall P a -> Forall Q b -> (forall x y, P x -> Q y -> S (f x y)) ->
  Forall S (zip_with f a b).
Proof.
  intros Ha. revert b. induction Ha as [|x a Hx _ IH]; intros b Hb Hf;
    [constructor|].
  destruct Hb as [|y b Hy Hb]; simpl; constructor; auto.
Qed.

Lemma Forall_map_gen {X Y : Type} (f : X -> Y) (Q : Y -> Prop) (l : list X) :
  (forall x, Q (f x)) -> Forall Q (map f l).
Proof. intros H. induction l; simpl; constructor; auto. Qed.

Lemma Forall_shifted_rows (k : nat) (ids : list nat) (rs : list (list R)) :
  Forall (fun r => length r = k) rs ->
  Forall (fun r => length r = k) (shifted_rows k ids rs).
Proof.
  intros H. unfold shifted_rows.
  apply (Forall_zip_with_gen _ (fun r => length r = k) (fun r => length r = k));
    [exact H | |].
  - apply Forall_map_gen. intros i.
    apply length_max_rows, Forall_segment_rows, H.
  - intros x y Hx Hy. rewrite length_zip_with. lia.
Qed.

Lemma Forall_map_exp (k : nat) (rs : list (list R)) :
  Forall (fun r => length r = k) rs ->
  Forall (fun r => length r = k) (map (map exp) rs).
Proof.
  induction 1; simpl; constructor; [rewrite length_map|]; assumption.
Qed.

Lemma Forall_softmax_rows (k : nat) (ids : list nat) (rs : list (list R)) :
  Forall (fun r => length r = k) rs ->
  Forall (fun r => length r = k) (softmax_rows k ids rs).
Proof.
  intros H. unfold softmax_rows.
  apply (Forall_zip_with_gen _ (fun r => length r = k) (fun r => length r = k)).
  - apply Forall_map_exp, Forall_shifted_rows, H.
  - apply Forall_map_gen. intros i.
    apply length_sum_rows, Forall_segment_rows, Forall_map_exp,
      Forall_shifted_rows, H.
  - intros x y Hx Hy. rewrite length_zip_with. lia.
Qed.

Lemma length_softmax_rows (k : nat) (ids : list nat) (rs : list (list R)) :
  length ids = length rs -> length (softmax_rows k ids rs) = length rs.
Proof.
  intros H. unfold softmax_rows.
  rewrite length_zip_with, !length_map, length_shifted_rows by exact H. lia.
Qed.

Lemma fold_max_map (f : nat -> R) (g : nat -> list R) (h : nat) (l : list nat) (m : R) :
  (forall e, In e l -> nth h (g e) 0%R = f e) ->
  fold_left (fun m r' => Rmax m (nth h r' 0%R)) (map g l) m
  = fold_left (fun m e' => Rmax m (f e')) l m.
Proof.
  revert m. induction l as [|e l IH]; intros m H; simpl; [reflexivity|].
  rewrite H by (left; reflexivity). apply IH. intros; apply H; right; assumption.
Qed.

Lemma Forall_map_in {X Y : Type} (f : X -> Y) (Q : Y -> Prop) (l : list X) :
  (forall x, In x l -> Q (f x)) -> Forall Q (map f l).
Proof.
  induction l as [|x l IH]; intros H; simpl; constructor.
  - apply H. left. reflexivity.
  - apply IH. intros; apply H; right; assumption.
Qed.

Lemma Forall_in_edges (ids : list nat) (n : nat) :
  Forall (fun e => e < length ids) (in_edges ids n).
Proof.
  apply Forall_forall. intros e He. apply list_elem_of_In in He.
  apply in_edges_spec in He. tauto.
Qed.

(** The maximum of a segment, entry by entry. *)
Lemma max_rows_entry (k h : nat) (rs : list (list R)) (l : list nat) :
  Forall (fun r => length r = k) rs -> h < k -> l <> [] ->
  Forall (fun e => e < length rs) l ->
  nth h (max_rows k (map (fun e => nth e rs []) l)) 0%R
  = max_over (fun e => nth h (nth e rs []) 0%R) l.
Proof.
  intros Hrs Hh Hne Hl. destruct l as [|e l]; [congruence|]. simpl.
  inversion Hl as [|? ? He Hl']; subst.
  rewrite (fold_row_max_nth k).
  - apply fold_max_map. reflexivity.
  - apply Forall_map_in. intros e' He'.
    rewrite Forall_forall in Hl'.
    apply Forall_nth_rows; [exact Hrs|]. apply Hl', list_elem_of_In, He'.
  - apply Forall_nth_rows; assumption.
  - exact Hh.
Qed.

Section SoftmaxEntries.
Variables (k : nat) (ids : list nat) (rs : list (list R)).
Hypothesis Hrs : Forall (fun r => length r = k) rs.
Hypothesis Hlen : length ids = length rs.

Let f (h e : nat) : R := nth h (nth e rs []) 0%R.

Lemma exp_shifted_entry (e h : nat) :
  e < length ids -> h < k ->
  nth h (nth e (map (map exp) (shifted_rows k ids rs)) []) 0%R
  = exp (f h e - max_over (f h) (in_edges ids (nth e ids 0))).
Proof using Hrs Hlen.
  intros He Hh.
  assert (Hsh : length (nth e (shifted_rows k ids rs) []) = k).
  { apply Forall_nth_rows; [apply Forall_shifted_rows, Hrs|].
    rewrite length_shifted_rows; lia. }
  rewrite (nth_map_lt (map exp) _ _ [] [])
    by (rewrite length_shifted_rows; lia).
  rewrite (nth_map_lt exp _ _ 0%R 0%R) by lia.
  f_equal. unfold shifted_rows.
  rewrite (nth_zip_with_gen _ _ _ _ [] [] [])
    by (rewrite ?length_map; lia).
  rewrite (nth_map_lt _ _ _ 0 []) by lia.
  rewrite (nth_zip_with_lt Rminus).
  - unfold f. f_equal.
    rewrite segment_rows_in_edges by exact Hlen.
    apply max_rows_entry; [exact Hrs | exact Hh | |].
    + intros Hnil. assert (Hin : In e (in_edges ids (nth e ids 0)))
        by (apply in_edges_spec; auto).
      rewrite Hnil in Hin. exact Hin.
    + rewrite <- Hlen. apply Forall_in_edges.
  - rewrite (Forall_nth_rows k) by (assumption || lia). exact Hh.
  - rewrite length_max_rows by (apply Forall_segment_rows, Hrs). exact Hh.
Qed.

(** The weight of edge [e] is the softmax of the scores of the edges with
    the same segment id. *)
Lemma softmax_rows_entry (e h : nat) :
  e < length ids -> h < k ->
  nth h (nth e (softmax_rows k ids rs) []) 0%R = softmax_weight (f h) ids e.
Proof using Hrs Hlen.
  intros He Hh. unfold softmax_rows, softmax_weight.
  rewrite (nth_zip_with_gen _ _ _ _ [] [] [])
    by (rewrite ?length_map, ?length_shifted_rows; lia).
  rewrite nth_zip_with_Rdiv. rewrite exp_shifted_entry by assumption.
  f_equal.
  rewrite (nth_map_lt _ _ _ 0 []) by lia.
  rewrite sum_rows_nth;
    [| apply Forall_segment_rows, Forall_map_exp, Forall_shifted_rows, Hrs
     | exact Hh].
  rewrite segment_rows_in_edges
    by (rewrite length_map, length_shifted_rows; lia).
  rewrite map_map. f_equal. apply map_ext_in. intros e' He'.
  apply in_edges_spec in He' as [He' Hsame].
  rewrite exp_shifted_entry by assumption. rewrite Hsame. reflexivity.
Qed.
End SoftmaxEntries.

Lemma max_over_ext (f g : nat -> R) (l : list nat) :
  (forall e, In e l -> f e = g e) -> max_over f l = max_over g l.
Proof.
  intros H. destruct l as [|e l]; simpl; [reflexivity|].
  rewrite (H e) by (left; reflexivity).
  assert (Hl : forall e', In e' l -> f e' = g e')
    by (intros; apply H; right; assumption).
  clear H. generalize (g e). induction l as [|e' l IH]; intros m; simpl;
    [reflexivity|].
  rewrite (Hl e') by (left; reflexivity).
  apply IH. intros; apply Hl; right; assumption.
Qed.

Lemma softmax_weight_ext (f g : nat -> R) (rc : list nat) (e : nat) :
  (forall e', e' < length rc -> f e' = g e') -> e < length rc ->
  softmax_weight f rc e = softmax_weight g rc e.
Proof.
  intros H He. unfold softmax_weight.
  assert (Hin : forall e', In e' (in_edges rc (nth e rc 0)) -> f e' = g e')
    by (intros e' He'; apply H; apply in_edges_spec in He'; tauto).
  rewrite (max_over_ext f g) by exact Hin. rewrite (H e He). f_equal.
  f_equal. apply map_ext_in. intros e' He'. rewrite (Hin e' He'). reflexivity.
Qed.

(** ** Self-attention, entry by entry (C1) *)

Lemma zip_with_ext_in {X Y Z : Type} (f g : X -> Y -> Z) (a : list X) (b : list Y) :
  (forall x y, In (x, y) (combine a b) -> f x y = g x y) ->
  zip_with f a b = zip_with g a b.
Proof.
  revert b. induction a as [|x a IH]; intros [|y b] H; simpl; try reflexivity.
  rewrite (H x y) by (left; reflexivity).
  rewrite IH by (intros; apply H; right; assumption). reflexivity.
Qed.

Lemma last_app_one (l : list nat) (x d : nat) : List.last (l ++ [x]) d = x.
Proof. apply last_last. Qed.

(** Multiplication by a tensor with a last axis of size 1. *)
Lemma tf_mul_broadcast_Ok (a b : Tensor) :
  wf_tensor a -> wf_tensor b ->
  inner a <> [] ->
  shape b = length (rows a) :: lead_dims a ++ [1] ->
  tf_mul a b
  = Ok (mkTensor (inner a) (zip_with (scale_chunks (last_dim a)) (rows a) (rows b))).
Proof.
  intros Ha Hb Hne Hshape. unfold tf_mul.
  destruct (list_nat_eqb (shape a) (shape b)) eqn:Heq.
  - apply list_nat_eqb_eq in Heq. rewrite Hshape in Heq.
    injection Heq as Hin. f_equal. f_equal.
    assert (Hl : last_dim a = 1)
      by (unfold last_dim; rewrite Hin; apply last_app_one).
    rewrite Hl. apply zip_with_ext_in. intros ra rb Hin'.
    symmetry. apply scale_chunks_one.
    unfold wf_tensor in Ha, Hb. rewrite Forall_forall in Ha, Hb.
    rewrite (Ha ra), (Hb rb).
    + unfold rowsize. injection Hshape as _ Hb'. rewrite Hb', Hin. reflexivity.
    + apply list_elem_of_In. eapply in_combine_r, Hin'.
    + apply list_elem_of_In. eapply in_combine_l, Hin'.
  - rewrite Hshape, list_nat_eqb_refl. simpl.
    destruct (list_nat_eqb (inner a) []) eqn:Hnil; [|reflexivity].
    apply list_nat_eqb_eq in Hnil. contradiction.
Qed.

Lemma prod_list_app (a b : list nat) :
  prod_list (a ++ b) = prod_list a * prod_list b.
Proof.
  unfold prod_list. induction a as [|x a IH]; simpl; [lia|].
  rewrite IH. lia.
Qed.

Lemma tf_mul_same_Ok (a b : Tensor) :
  shape a = shape b ->
  tf_mul a b = Ok (mkTensor (inner a) (zip_with (zip_with Rmult) (rows a) (rows b))).
Proof.
  intros H. unfold tf_mul. rewrite H, list_nat_eqb_refl. reflexivity.
Qed.

Lemma prod_list_one (h : nat) : prod_list [h] = h.
Proof. unfold prod_list. simpl. lia. Qed.

Lemma prod_list_two (h v : nat) : prod_list [h; v] = h * v.
Proof. unfold prod_list. simpl. lia. Qed.

Lemma Forall_gathered_rows (t : Tensor) (ids : list nat) :
  wf_tensor t -> Forall (fun i => i < length (rows t)) ids ->
  Forall (fun r => length r = rowsize t) (map (fun i => nth i (rows t) []) ids).
Proof.
  intros Hwf Hids. apply Forall_map_in. intros i Hi.
  rewrite Forall_forall in Hids.
  apply Forall_nth_rows; [exact Hwf|]. apply Hids, list_elem_of_In, Hi.
Qed.

Lemma Forall_logit_rows (K H : nat) (node_keys node_queries : Tensor)
    (sd rc : list nat) :
  Forall (fun r => length r = H)
         (attention_logit_rows K H node_keys node_queries sd rc).
Proof.
  unfold attention_logit_rows. apply Forall_map_gen. intros r.
  rewrite length_map, length_chunks. reflexivity.
Qed.

Lemma length_logit_rows (K H : nat) (node_keys node_queries : Tensor)
    (sd rc : list nat) :
  length sd = length rc ->
  length (attention_logit_rows K H node_keys node_queries sd rc) = length rc.
Proof.
  intros Hlen. unfold attention_logit_rows.
  rewrite length_map, length_zip_with, !length_map. lia.
Qed.

Section SelfAttentionEntries.
Variables (node_values node_keys node_queries : Tensor).
Variable attention_graph : GraphsTuple.
Variables (sd rc : list nat) (N H K V : nat).
Hypothesis Hv : shape node_values = [N; H; V].
Hypothesis Hk : shape node_keys = [N; H; K].
Hypothesis Hq : shape node_queries = [N; H; K].
Hypothesis Hvwf : wf_tensor node_values.
Hypothesis Hkwf : wf_tensor node_keys.
Hypothesis Hqwf : wf_tensor node_queries.
Hypothesis Hsd : senders attention_graph = Some sd.
Hypothesis Hrc : receivers attention_graph = Some rc.
Hypothesis Hlen : length sd = length rc.
Hypothesis Hsd_lt : Forall (fun i => i < N) sd.
Hypothesis Hrc_lt : Forall (fun i => i < N) rc.
Hypothesis HN : total_nodes attention_graph = N.

Lemma SelfAttention_build_Ok :
  SelfAttention_build node_values node_keys node_queries attention_graph
  = Ok (replace_nodes attention_graph
          (Some (mkTensor [H; V]
                   (attention_rows N K H V node_values node_keys node_queries
                                   sd rc)))).
Proof using All.
  unfold shape in Hv, Hk, Hq.
  injection Hv as Hvn Hvi. injection Hk as Hkn Hki. injection Hq as Hqn Hqi.
  unfold SelfAttention_build, broadcast_sender_nodes_to_edges,
    broadcast_receiver_nodes_to_edges.
  simpl. rewrite Hsd, Hrc. simpl.
  rewrite !tf_gather_Ok by (rewrite ?Hvn, ?Hkn, ?Hqn; assumption).
  rewrite Hki, Hqi, Hvi.
  simpl. rewrite tf_mul_same_Ok.
  2:{ unfold shape; simpl. rewrite !length_map, Hlen. reflexivity. }
  simpl. unfold tf_reduce_sum_last, lead_dims, last_dim. simpl.
  unfold _received_edges_normalizer. simpl. rewrite Hrc. simpl.
  unfold total_nodes in HN. rewrite HN.
  rewrite _unsorted_segment_softmax_Ok;
    [| simpl; rewrite length_map, length_zip_with, !length_map; lia
     | exact Hrc_lt ].
  simpl. unfold rowsize. simpl inner. rewrite prod_list_one.
  rewrite Nat.mul_1_r.
  fold (attention_logit_rows K H node_keys node_queries sd rc).
  rewrite tf_mul_broadcast_Ok.
  - unfold last_dim. simpl.
    fold (attended_rows K H V node_values node_keys node_queries sd rc).
    unfold ReceivedEdgesToNodesAggregator, tf_unsorted_segment_sum.
    simpl. rewrite Hrc. simpl. rewrite HN.
    rewrite segment_reduce_Ok; [| simpl | exact Hrc_lt].
    + unfold rowsize. simpl inner. rewrite prod_list_two. reflexivity.
    + unfold attended_rows.
      rewrite length_zip_with, length_map, length_softmax_rows,
        length_logit_rows by (rewrite ?length_logit_rows; auto).
      lia.
  - pose proof (Forall_gathered_rows node_values sd Hvwf) as HF.
    unfold rowsize in HF. rewrite Hvi, Hvn in HF. exact (HF Hsd_lt).
  - unfold wf_tensor, rowsize. simpl. unfold prod_list. simpl.
    rewrite !Nat.mul_1_r.
    apply Forall_softmax_rows, Forall_logit_rows.
  - simpl. discriminate.
  - unfold shape, lead_dims. simpl.
    rewrite length_map, length_softmax_rows, length_logit_rows
      by (rewrite ?length_logit_rows; auto).
    rewrite Hlen. reflexivity.
Qed.

Lemma logit_rows_entry (e h : nat) :
  e < length rc -> h < H ->
  nth h (nth e (attention_logit_rows K H node_keys node_queries sd rc) []) 0%R
  = attention_score node_keys node_queries sd rc e h.
Proof using All.
  intros He Hh. unfold shape in Hk, Hq.
  injection Hk as Hkn Hki. injection Hq as Hqn Hqi.
  assert (Hks : e < length sd) by lia.
  assert (Hkl : length (nth (nth e sd 0) (rows node_keys) []) = H * K).
  { rewrite <- (prod_list_two H K), <- Hki. apply Forall_nth_rows; [exact Hkwf|].
    rewrite Hkn. rewrite Forall_forall in Hsd_lt.
    apply Hsd_lt, list_elem_of_In, nth_In, Hks. }
  assert (Hql : length (nth (nth e rc 0) (rows node_queries) []) = H * K).
  { rewrite <- (prod_list_two H K), <- Hqi. apply Forall_nth_rows; [exact Hqwf|].
    rewrite Hqn. rewrite Forall_forall in Hrc_lt.
    apply Hrc_lt, list_elem_of_In, nth_In, He. }
  unfold attention_logit_rows, attention_score, entry, last_dim.
  rewrite Hki, Hqi. simpl List.last.
  rewrite (nth_map_lt _ _ _ [] [])
    by (rewrite length_zip_with, !length_map; lia).
  rewrite (nth_map_lt Rsum _ _ [] 0%R) by (rewrite length_chunks; exact Hh).
  rewrite chunks_nth by exact Hh.
  rewrite (nth_zip_with_gen _ _ _ _ [] [] []) by (rewrite length_map; lia).
  rewrite (nth_map_lt _ sd _ 0 []) by exact Hks.
  rewrite (nth_map_lt _ rc _ 0 []) by exact He.
  rewrite Rsum_firstn_skipn by (rewrite length_zip_with; nia).
  f_equal. apply map_ext. intros j. apply nth_zip_with_Rmult.
Qed.

Lemma Forall_attended_rows :
  Forall (fun r => length r = H * V)
         (attended_rows K H V node_values node_keys node_queries sd rc).
Proof using All.
  unfold shape in Hv. injection Hv as Hvn Hvi.
  unfold attended_rows.
  apply (Forall_zip_with_gen _ (fun r => length r = H * V)
                             (fun r => length r = H)).
  - pose proof (Forall_gathered_rows node_values sd Hvwf) as HF.
    unfold rowsize in HF. rewrite Hvi, Hvn, prod_list_two in HF.
    exact (HF Hsd_lt).
  - apply Forall_softmax_rows, Forall_logit_rows.
  - intros ra rb Ha Hb. rewrite length_scale_chunks; rewrite Hb; auto.
Qed.

Lemma length_attended_rows :
  length (attended_rows K H V node_values node_keys node_queries sd rc)
  = length rc.
Proof using All.
  unfold attended_rows.
  rewrite length_zip_with, length_map, length_softmax_rows,
    length_logit_rows by (rewrite ?length_logit_rows; auto).
  lia.
Qed.

(** Each entry of the rows the code computes is the entry the
    specification describes. *)
Lemma attention_rows_entry (n h d : nat) :
  n < N -> h < H -> d < V ->
  nth (h * V + d)
      (nth n (attention_rows N K H V node_values node_keys node_queries sd rc) [])
      0%R
  = attention_spec node_values node_keys node_queries sd rc n h d.
Proof using All.
  intros Hn Hh Hd.
  assert (Hvi : inner node_values = [H; V])
    by (unfold shape in Hv; congruence).
  unfold attention_rows.
  rewrite (nth_map_lt _ _ _ 0 []) by (rewrite length_seq; exact Hn).
  rewrite seq_nth by exact Hn. simpl.
  rewrite sum_rows_nth;
    [| apply Forall_segment_rows, Forall_attended_rows | nia].
  rewrite segment_rows_in_edges by (rewrite length_attended_rows; reflexivity).
  rewrite map_map. unfold attention_spec. f_equal.
  apply map_ext_in. intros e He. apply in_edges_spec in He as [He _].
  unfold attended_rows.
  rewrite (nth_zip_with_gen _ _ _ _ [] [] [])
    by (rewrite ?length_map, ?length_softmax_rows, ?length_logit_rows;
        rewrite ?length_logit_rows; auto; lia).
  assert (Hw : length (nth e (softmax_rows H rc
                 (attention_logit_rows K H node_keys node_queries sd rc)) []) = H).
  { apply Forall_nth_rows; [apply Forall_softmax_rows, Forall_logit_rows|].
    rewrite length_softmax_rows, length_logit_rows
      by (rewrite ?length_logit_rows; auto). exact He. }
  assert (Hr : length (nth e (map (fun i => nth i (rows node_values) []) sd) [])
               = H * V).
  { pose proof Forall_attended_rows as _.
    unfold shape in Hv. injection Hv as Hvn _.
    pose proof (Forall_gathered_rows node_values sd Hvwf) as HF.
    unfold rowsize in HF. rewrite Hvi, Hvn, prod_list_two in HF.
    apply Forall_nth_rows; [exact (HF Hsd_lt)|]. rewrite length_map. lia. }
  rewrite scale_chunks_nth by (rewrite ?Hw, ?Hr; auto).
  f_equal.
  - rewrite (nth_map_lt _ sd _ 0 []) by lia.
    unfold entry, last_dim. rewrite Hvi. reflexivity.
  - rewrite softmax_rows_entry;
      [| apply Forall_logit_rows
       | rewrite length_logit_rows; auto
       | exact He | exact Hh ].
    apply softmax_weight_ext; [|exact He].
    intros e' He'. apply logit_rows_entry; assumption.
Qed.
End SelfAttentionEntries.

(** C1. For values of shape [N, H, V], keys and queries of shape [N, H, K]
    and a graph with [N] nodes whose senders and receivers are below [N],
    [SelfAttention] returns the graph with a node tensor of shape [N, H, V]
    whose entry [(n, h, d)] is the sum, over the edges received by [n], of
    the sender's value at [(h, d)] times the softmax, over the edges with the
    same receiver, of the dot product of the sender's key and the receiver's
    query at head [h]. *)
Theorem SelfAttention_computes_attention
    (node_values node_keys node_queries : Tensor) (attention_graph : GraphsTuple)
    (sd rc : list nat) (N H K V : nat) :
  shape node_values = [N; H; V] ->
  shape node_keys = [N; H; K] ->
  shape node_queries = [N; H; K] ->
  wf_tensor node_values -> wf_tensor node_keys -> wf_tensor node_queries ->
  senders attention_graph = Some sd ->
  receivers attention_graph = Some rc ->
  length sd = length rc ->
  Forall (fun i => i < N) sd ->
  Forall (fun i => i < N) rc ->
  total_nodes attention_graph = N ->
  exists t,
    SelfAttention_build node_values node_keys node_queries attention_graph
    = Ok (replace_nodes attention_graph (Some t)) /\
    shape t = [N; H; V] /\ wf_tensor t /\
    forall n h d, n < N -> h < H -> d < V ->
      entry t n h d
      = attention_spec node_values node_keys node_queries sd rc n h d.
Proof.
  intros Hv Hk Hq Hvwf Hkwf Hqwf Hsd Hrc Hlen Hsd_lt Hrc_lt HN.
  eexists. split; [eapply SelfAttention_build_Ok; eassumption|].
  split; [|split].
  - unfold shape, attention_rows. simpl. rewrite length_map, length_seq.
    reflexivity.
  - unfold wf_tensor, rowsize, attention_rows. simpl inner. simpl rows.
    rewrite prod_list_two. apply Forall_map_gen. intros s.
    apply length_sum_rows, Forall_segment_rows.
    eapply Forall_attended_rows; eassumption.
  - intros n h d Hn Hh Hd. unfold entry, last_dim. simpl.
    eapply attention_rows_entry; eassumption.
Qed.

Lemma SelfAttention_computes_attention_witness :
  exists t,
    SelfAttention_build example_values example_keys example_queries example_graph
    = Ok (replace_nodes example_graph (Some t)) /\
    shape t = [2; 1; 1] /\ wf_tensor t /\
    forall n h d, n < 2 -> h < 1 -> d < 1 ->
      entry t n h d
      = attention_spec example_values example_keys example_queries
                       [0; 1] [1; 1] n h d.
Proof.
  apply (SelfAttention_computes_attention
           example_values example_keys example_queries example_graph
           [0; 1] [1; 1] 2 1 1 1);
    try reflexivity;
    try (repeat constructor).
Defined.

(** ** Batches (C5) *)

(** Proves [valid_graph] of a concrete graph. *)
Ltac prove_valid_graph :=
  unfold valid_graph, well_ranked, ranked, rows_count, indices_in_range;
  simpl; repeat split; intros;
  repeat match goal with
         | H : None = Some _ |- _ => discriminate H
         | H : Some _ = Some _ |- _ => injection H as <-
         end;
  simpl; try reflexivity; try discriminate; repeat constructor.

(** *** The operations on a concatenation *)

Lemma mapM_app {A B : Type} (f : A -> result B) (l1 l2 : list A) (r1 r2 : list B) :
  mapM f l1 = Ok r1 -> mapM f l2 = Ok r2 -> mapM f (l1 ++ l2) = Ok (r1 ++ r2).
Proof.
  revert r1. induction l1 as [|a l1 IH]; intros r1 H1 H2; simpl in *.
  - injection H1 as <-. exact H2.
  - inv_bind H1. inv_bind H1. injection H1 as <-.
    rewrite Hstep. simpl. rewrite (IH _ Hstep0 H2). reflexivity.
Qed.

Lemma mapM_ext_in {A B : Type} (f g : A -> result B) (l : list A) :
  (forall a, In a l -> f a = g a) -> mapM f l = mapM g l.
Proof.
  induction l as [|a l IH]; intros H; simpl; [reflexivity|].
  rewrite (H a) by (left; reflexivity).
  rewrite IH by (intros; apply H; right; assumption). reflexivity.
Qed.

Lemma mapM_map {A B C : Type} (f : B -> result C) (g : A -> B) (l : list A) :
  mapM f (map g l) = mapM (fun a => f (g a)) l.
Proof.
  induction l as [|a l IH]; simpl; [reflexivity|]. rewrite IH. reflexivity.
Qed.

Lemma tf_gather_batch (p1 p2 t1 t2 : Tensor) (ids1 ids2 : list nat) :
  tf_gather p1 ids1 = Ok t1 -> tf_gather p2 ids2 = Ok t2 ->
  tf_gather (concat0 p1 p2) (ids1 ++ map (Nat.add (length (rows p1))) ids2)
  = Ok (concat0 t1 t2) /\ inner t1 = inner p1 /\ inner t2 = inner p2.
Proof.
  intros H1 H2.
  pose proof (tf_gather_Ok_inv _ _ _ H1) as [Hr1 ->].
  pose proof (tf_gather_Ok_inv _ _ _ H2) as [Hr2 ->].
  split; [|split; reflexivity].
  rewrite tf_gather_Ok.
  - unfold concat0. simpl. f_equal. f_equal. rewrite map_app, map_map.
    f_equal.
    + apply map_ext_in. intros i Hi. apply app_nth1.
      rewrite Forall_forall in Hr1. apply Hr1, list_elem_of_In, Hi.
    + apply map_ext. intros i. rewrite app_nth2 by lia. f_equal. lia.
  - simpl. rewrite length_app. apply Forall_app. split.
    + eapply Forall_impl; [exact Hr1|]. simpl. intros; lia.
    + apply Forall_map_in. intros i Hi. rewrite Forall_forall in Hr2.
      specialize (Hr2 i (proj2 (list_elem_of_In _ _) Hi)). lia.
Qed.

Lemma segment_rows_app (s : nat) (ids1 ids2 : list nat) (d1 d2 : list (list R)) :
  length ids1 = length d1 ->
  segment_rows s (ids1 ++ ids2) (d1 ++ d2)
  = segment_rows s ids1 d1 ++ segment_rows s ids2 d2.
Proof.
  unfold segment_rows. revert d1.
  induction ids1 as [|i ids1 IH]; intros [|r d1] H; simpl in *;
    try discriminate; [reflexivity|].
  specialize (IH d1 ltac:(lia)).
  destruct (Nat.eqb i s); simpl; rewrite IH; reflexivity.
Qed.

Lemma map_add_seq (n a m : nat) : map (Nat.add n) (seq a m) = seq (n + a) m.
Proof.
  revert a. induction m as [|m IH]; intros a; simpl; [reflexivity|].
  rewrite IH. f_equal. f_equal. lia.
Qed.

Lemma segment_rows_offset (s n : nat) (ids : list nat) (d : list (list R)) :
  segment_rows (n + s) (map (Nat.add n) ids) d = segment_rows s ids d.
Proof.
  unfold segment_rows. revert d.
  induction ids as [|i ids IH]; intros [|r d]; simpl; try reflexivity.
  specialize (IH d).
  destruct (Nat.eqb_spec (n + i) (n + s)), (Nat.eqb_spec i s); try lia;
    simpl; rewrite IH; reflexivity.
Qed.

Lemma segment_rows_below (s n : nat) (ids : list nat) (d : list (list R)) :
  s < n -> segment_rows s (map (Nat.add n) ids) d = [].
Proof.
  intros Hs. apply segment_rows_absent. rewrite in_map_iff.
  intros (i & Hi & _). lia.
Qed.

Lemma segment_rows_above (s n : nat) (ids : list nat) (d : list (list R)) :
  Forall (fun i => i < n) ids -> segment_rows (n + s) ids d = [].
Proof.
  intros H. apply segment_rows_absent. intros Hin.
  rewrite Forall_forall in H.
  specialize (H _ (proj2 (list_elem_of_In _ _) Hin)). lia.
Qed.

(** Any segmented reduction keeps the graphs of a batch apart. *)
Lemma segment_reduce_batch (f : nat -> list (list R) -> list R)
    (d1 d2 o1 o2 : Tensor) (ids1 ids2 : list nat) (n1 n2 : nat) :
  inner d1 = inner d2 ->
  segment_reduce f d1 ids1 n1 = Ok o1 -> segment_reduce f d2 ids2 n2 = Ok o2 ->
  segment_reduce f (concat0 d1 d2) (ids1 ++ map (Nat.add n1) ids2) (n1 + n2)
  = Ok (concat0 o1 o2) /\ inner o1 = inner d1 /\ inner o2 = inner d2.
Proof.
  intros Hin H1 H2.
  apply segment_reduce_Ok_inv in H1 as (Hl1 & Hr1 & ->).
  apply segment_reduce_Ok_inv in H2 as (Hl2 & Hr2 & ->).
  split; [|split; reflexivity].
  rewrite segment_reduce_Ok.
  - unfold concat0, rowsize. simpl. rewrite <- Hin. f_equal. f_equal.
    rewrite seq_app, map_app. f_equal.
    + apply map_ext_in. intros s Hs. apply in_seq in Hs. f_equal.
      rewrite segment_rows_app by exact Hl1.
      rewrite segment_rows_below by lia. apply app_nil_r.
    + simpl. rewrite <- (Nat.add_0_r n1) at 1. rewrite <- map_add_seq.
      rewrite map_map. apply map_ext. intros s. f_equal.
      rewrite segment_rows_app by exact Hl1.
      rewrite segment_rows_above by exact Hr1.
      apply segment_rows_offset.
  - simpl. rewrite !length_app, length_map. lia.
  - apply Forall_app. split.
    + eapply Forall_impl; [exact Hr1|]. simpl. intros; lia.
    + apply Forall_map_in. intros i Hi. rewrite Forall_forall in Hr2.
      specialize (Hr2 i (proj2 (list_elem_of_In _ _) Hi)). lia.
Qed.

Lemma tf_unsorted_segment_sum_segmentwise : segmentwise tf_unsorted_segment_sum.
Proof. intros d1 d2 ids1 ids2 n1 n2 o1 o2. apply segment_reduce_batch. Qed.

Lemma tf_unsorted_segment_max_segmentwise : segmentwise tf_unsorted_segment_max.
Proof. intros d1 d2 ids1 ids2 n1 n2 o1 o2. apply segment_reduce_batch. Qed.

Lemma repeat_rows_app {A : Type} (l1 l2 : list A) (c1 c2 : list nat) (r1 r2 : list A) :
  repeat_rows l1 c1 = Ok r1 -> repeat_rows l2 c2 = Ok r2 ->
  repeat_rows (l1 ++ l2) (c1 ++ c2) = Ok (r1 ++ r2).
Proof.
  revert c1 r1. induction l1 as [|a l1 IH]; intros [|c c1] r1 H1 H2; simpl in *;
    try discriminate.
  - injection H1 as <-. exact H2.
  - inv_bind H1. injection H1 as <-.
    rewrite (IH _ _ Hstep H2). simpl. rewrite <- app_assoc. reflexivity.
Qed.

Lemma repeat_rows_length {A : Type} (l : list A) (c : list nat) (r : list A) :
  repeat_rows l c = Ok r -> length l = length c.
Proof.
  revert c r. induction l as [|a l IH]; intros [|n c] r H; simpl in *;
    try discriminate; [reflexivity|].
  inv_bind H. f_equal. eapply IH, Hstep.
Qed.

Lemma repeat_rows_map {A B : Type} (f : A -> B) (l : list A) (c : list nat)
    (r : list A) :
  repeat_rows l c = Ok r -> repeat_rows (map f l) c = Ok (map f r).
Proof.
  revert c r. induction l as [|a l IH]; intros [|n c] r H; simpl in *;
    try discriminate.
  - injection H as <-. reflexivity.
  - inv_bind H. injection H as <-. rewrite (IH _ _ Hstep). simpl.
    rewrite map_app, map_repeat. reflexivity.
Qed.

Lemma graph_indices_app (c1 c2 : list nat) (i1 i2 : list nat) :
  graph_indices c1 = Ok i1 -> graph_indices c2 = Ok i2 ->
  graph_indices (c1 ++ c2) = Ok (i1 ++ map (Nat.add (length c1)) i2).
Proof.
  unfold graph_indices. intros H1 H2.
  rewrite length_app, seq_app. apply repeat_rows_app; [exact H1|].
  simpl. rewrite <- (Nat.add_0_r (length c1)) at 1. rewrite <- map_add_seq.
  apply repeat_rows_map, H2.
Qed.

Lemma zip_with_app_same {X Y Z : Type} (f : X -> Y -> Z) (a1 a2 : list X)
    (b1 b2 : list Y) :
  length a1 = length b1 ->
  zip_with f (a1 ++ a2) (b1 ++ b2) = zip_with f a1 b1 ++ zip_with f a2 b2.
Proof.
  revert b1. induction a1 as [|x a1 IH]; intros [|y b1] H; simpl in *;
    try discriminate; [reflexivity|].
  rewrite IH by lia. reflexivity.
Qed.

Lemma concat_last2_batch (a1 a2 a b1 b2 b c1 c2 : Tensor) :
  batched_tensor a1 a2 a -> batched_tensor b1 b2 b ->
  concat_last2 a1 b1 = Ok c1 -> concat_last2 a2 b2 = Ok c2 ->
  exists c, concat_last2 a b = Ok c /\ batched_tensor c1 c2 c.
Proof.
  intros (-> & Ha & Hane) (-> & Hb & Hbne) H1 H2.
  unfold concat_last2 in *. unfold concat0 at 1. simpl inner.
  assert (Hane2 : inner a2 <> []) by congruence.
  destruct (inner a1) as [|x xs] eqn:E1; [congruence|].
  destruct (inner a2) as [|y ys] eqn:E2; [congruence|].
  inv_bind H1. inv_bind H2. apply guard_Ok_inv in Hstep, Hstep0.
  apply andb_true_iff in Hstep as [Hs1 Hn1].
  apply andb_true_iff in Hstep0 as [Hs2 Hn2].
  apply list_nat_eqb_eq in Hs1, Hs2.
  injection Hs1 as Hl1 Hd1. injection Hs2 as Hl2 Hd2.
  injection H1 as <-. injection H2 as <-.
  unfold lead_dims, last_dim in *. simpl inner. simpl rows.
  rewrite E1, E2 in *. rewrite <- Hb. rewrite <- Ha.
  rewrite !length_app, Hl1, Hl2, Hd1, list_nat_eqb_refl. simpl.
  rewrite Hn1. simpl. eexists. split; [reflexivity|].
  unfold batched_tensor, concat0. simpl. split; [|split].
  - f_equal. rewrite zip_with_app_same by exact Hl1. reflexivity.
  - reflexivity.
  - intros Hnil. apply app_eq_nil in Hnil as [_ Hnil]. discriminate.
Qed.

Lemma tf_concat_last_batch (l1 l2 l : list Tensor) (c1 c2 : Tensor) :
  batched_tensors l1 l2 l ->
  tf_concat_last l1 = Ok c1 -> tf_concat_last l2 = Ok c2 ->
  exists c, tf_concat_last l = Ok c /\ batched_tensor c1 c2 c.
Proof.
  intros H. revert c1 c2.
  induction H as [|t1 t2 t l1 l2 l Ht Hl IH]; intros c1 c2 H1 H2;
    [discriminate|].
  destruct Hl as [|u1 u2 u l1 l2 l Hu Hl].
  - simpl in *. injection H1 as <-. injection H2 as <-. eauto.
  - change (tf_concat_last (t1 :: u1 :: l1))
      with (do rest <- tf_concat_last (u1 :: l1); concat_last2 t1 rest) in H1.
    change (tf_concat_last (t2 :: u2 :: l2))
      with (do rest <- tf_concat_last (u2 :: l2); concat_last2 t2 rest) in H2.
    change (tf_concat_last (t :: u :: l))
      with (do rest <- tf_concat_last (u :: l); concat_last2 t rest).
    inv_bind H1. inv_bind H2.
    destruct (IH _ _ Hstep Hstep0) as (r & Hr & Hbr).
    rewrite Hr. simpl. eapply concat_last2_batch; eassumption.
Qed.

Lemma batched_tensors_app (a1 a2 a b1 b2 b : list Tensor) :
  batched_tensors a1 a2 a -> batched_tensors b1 b2 b ->
  batched_tensors (a1 ++ b1) (a2 ++ b2) (a ++ b).
Proof. apply Forall3_app. Qed.

(** An input of a block, on the two graphs and on their batch. *)
Lemma collect_batch (use : bool) (x1 x2 x : result Tensor) (l1 l2 : list Tensor) :
  (forall t1 t2, x1 = Ok t1 -> x2 = Ok t2 ->
                 exists t, x = Ok t /\ batched_tensor t1 t2 t) ->
  collect use x1 = Ok l1 -> collect use x2 = Ok l2 ->
  exists l, collect use x = Ok l /\ batched_tensors l1 l2 l.
Proof.
  intros Hx H1 H2. unfold collect in *. destruct use.
  - inv_bind H1. inv_bind H2. injection H1 as <-. injection H2 as <-.
    destruct (Hx _ _ Hstep Hstep0) as (t & -> & Ht). simpl.
    eexists. split; [reflexivity|]. constructor; [exact Ht | constructor].
  - injection H1 as <-. injection H2 as <-. eexists. split; [reflexivity|].
    constructor.
Qed.

(** *** The fields of a batch *)

Lemma batch_tensors_inv (a b c : option Tensor) :
  batch_tensors a b = Ok c ->
  (a = None /\ b = None /\ c = None) \/
  (exists x y, a = Some x /\ b = Some y /\ c = Some (concat0 x y) /\
               inner x = inner y).
Proof.
  destruct a as [x|], b as [y|]; simpl; intros H; try discriminate.
  - inv_bind H. apply guard_Ok_inv, list_nat_eqb_eq in Hstep.
    injection H as <-. right. eauto 10.
  - injection H as <-. left. auto.
Qed.

Lemma batch_indices_inv (n : nat) (a b c : option (list nat)) :
  batch_indices n a b = Ok c ->
  (a = None /\ b = None /\ c = None) \/
  (exists x y, a = Some x /\ b = Some y /\ c = Some (x ++ map (Nat.add n) y)).
Proof.
  destruct a as [x|], b as [y|]; simpl; intros H; try discriminate;
    injection H as <-; [right; eauto 10 | left; auto].
Qed.

Lemma batched_inv (g1 g2 g : GraphsTuple) :
  batched g1 g2 g ->
  batch_tensors (nodes g1) (nodes g2) = Ok (nodes g) /\
  batch_tensors (edges g1) (edges g2) = Ok (edges g) /\
  batch_indices (total_nodes g1) (receivers g1) (receivers g2) = Ok (receivers g) /\
  batch_indices (total_nodes g1) (senders g1) (senders g2) = Ok (senders g) /\
  batch_tensors (globals g1) (globals g2) = Ok (globals g) /\
  n_node g = n_node g1 ++ n_node g2 /\
  n_edge g = n_edge g1 ++ n_edge g2.
Proof.
  unfold batched, batch. intros H. inv_binds H. injection H as <-. simpl.
  repeat split; assumption.
Qed.

Lemma tf_reduce_sum_int_app (a b : list nat) :
  tf_reduce_sum_int (a ++ b) = tf_reduce_sum_int a + tf_reduce_sum_int b.
Proof.
  unfold tf_reduce_sum_int. induction a as [|x a IH]; simpl; [reflexivity|].
  rewrite IH. lia.
Qed.

Lemma batched_tensors_field (a b c : option Tensor) (t1 t2 : Tensor) :
  batch_tensors a b = Ok c -> ranked a ->
  a = Some t1 -> b = Some t2 ->
  exists t, c = Some t /\ batched_tensor t1 t2 t.
Proof.
  intros H Hr -> ->.
  apply batch_tensors_inv in H as [(H & _)|(x & y & Hx & Hy & -> & Hi)];
    [discriminate|].
  injection Hx as <-. injection Hy as <-.
  eexists. split; [reflexivity|]. repeat split; auto.
Qed.

Lemma batched_replace_edges (g1 g2 g : GraphsTuple) (u1 u2 : Tensor) :
  batched g1 g2 g -> inner u1 = inner u2 ->
  batched (replace_edges g1 (Some u1)) (replace_edges g2 (Some u2))
          (replace_edges g (Some (concat0 u1 u2))).
Proof.
  intros H Hi. apply batched_inv in H as (Hn & He & Hr & Hs & Hg & Hnn & Hne).
  unfold batched, batch. simpl.
  change (total_nodes (replace_edges g1 (Some u1))) with (total_nodes g1).
  rewrite Hn, Hr, Hs, Hg, Hi, list_nat_eqb_refl. simpl.
  unfold replace_edges. rewrite Hnn, Hne. reflexivity.
Qed.

Lemma batched_replace_nodes (g1 g2 g : GraphsTuple) (u1 u2 : Tensor) :
  batched g1 g2 g -> inner u1 = inner u2 ->
  batched (replace_nodes g1 (Some u1)) (replace_nodes g2 (Some u2))
          (replace_nodes g (Some (concat0 u1 u2))).
Proof.
  intros H Hi. apply batched_inv in H as (Hn & He & Hr & Hs & Hg & Hnn & Hne).
  unfold batched, batch. simpl.
  change (total_nodes (replace_nodes g1 (Some u1))) with (total_nodes g1).
  rewrite He, Hr, Hs, Hg, Hi, list_nat_eqb_refl. simpl.
  unfold replace_nodes. rewrite Hnn, Hne. reflexivity.
Qed.

Lemma batched_replace_globals (g1 g2 g : GraphsTuple) (u1 u2 : Tensor) :
  batched g1 g2 g -> inner u1 = inner u2 ->
  batched (replace_globals g1 (Some u1)) (replace_globals g2 (Some u2))
          (replace_globals g (Some (concat0 u1 u2))).
Proof.
  intros H Hi. apply batched_inv in H as (Hn & He & Hr & Hs & Hg & Hnn & Hne).
  unfold batched, batch. simpl.
  change (total_nodes (replace_globals g1 (Some u1))) with (total_nodes g1).
  rewrite Hn, He, Hr, Hs, Hi, list_nat_eqb_refl. simpl.
  unfold replace_globals. rewrite Hnn, Hne. reflexivity.
Qed.

(** *** The inputs of the blocks on a batch *)

Section BatchedInputs.
Variables g1 g2 g : GraphsTuple.
Hypothesis Hb : batched g1 g2 g.

Lemma require_edges_batch (t1 t2 : Tensor) :
  ranked (edges g1) ->
  require (edges g1) = Ok t1 -> require (edges g2) = Ok t2 ->
  exists t, require (edges g) = Ok t /\ batched_tensor t1 t2 t.
Proof using Hb.
  intros Hr H1 H2. apply require_Ok_inv in H1, H2.
  apply batched_inv in Hb as (_ & He & _).
  destruct (batched_tensors_field _ _ _ _ _ He Hr H1 H2) as (t & -> & Ht).
  eauto.
Qed.

Lemma require_nodes_batch (t1 t2 : Tensor) :
  ranked (nodes g1) ->
  require (nodes g1) = Ok t1 -> require (nodes g2) = Ok t2 ->
  exists t, require (nodes g) = Ok t /\ batched_tensor t1 t2 t.
Proof using Hb.
  intros Hr H1 H2. apply require_Ok_inv in H1, H2.
  apply batched_inv in Hb as (Hn & _).
  destruct (batched_tensors_field _ _ _ _ _ Hn Hr H1 H2) as (t & -> & Ht).
  eauto.
Qed.

Lemma require_globals_batch (t1 t2 : Tensor) :
  ranked (globals g1) ->
  require (globals g1) = Ok t1 -> require (globals g2) = Ok t2 ->
  exists t, require (globals g) = Ok t /\ batched_tensor t1 t2 t.
Proof using Hb.
  intros Hr H1 H2. apply require_Ok_inv in H1, H2.
  apply batched_inv in Hb as (_ & _ & _ & _ & Hg & _).
  destruct (batched_tensors_field _ _ _ _ _ Hg Hr H1 H2) as (t & -> & Ht).
  eauto.
Qed.

Lemma broadcast_receiver_nodes_to_edges_batch (t1 t2 : Tensor) :
  ranked (nodes g1) -> rows_count (nodes g1) (total_nodes g1) ->
  broadcast_receiver_nodes_to_edges g1 = Ok t1 ->
  broadcast_receiver_nodes_to_edges g2 = Ok t2 ->
  exists t, broadcast_receiver_nodes_to_edges g = Ok t /\ batched_tensor t1 t2 t.
Proof using Hb.
  intros Hr Hc H1 H2. unfold broadcast_receiver_nodes_to_edges in *.
  inv_bind H1. inv_bind H1. inv_bind H2. inv_bind H2.
  apply require_Ok_inv in Hstep, Hstep0, Hstep1, Hstep2.
  apply batched_inv in Hb as (Hn & _ & Hrc & _).
  destruct (batched_tensors_field _ _ _ _ _ Hn Hr Hstep Hstep1)
    as (t & Ht & -> & Hi & Hne).
  rewrite Ht. simpl.
  apply batch_indices_inv in Hrc as [(Hx & _)|(x & y & Hx & Hy & ->)];
    [congruence|].
  rewrite Hstep0 in Hx. rewrite Hstep2 in Hy.
  injection Hx as <-. injection Hy as <-. simpl.
  rewrite <- (Hc _ Hstep).
  destruct (tf_gather_batch _ _ _ _ _ _ H1 H2) as (-> & Hi1 & Hi2).
  eexists. split; [reflexivity|]. repeat split; congruence.
Qed.

Lemma broadcast_sender_nodes_to_edges_batch (t1 t2 : Tensor) :
  ranked (nodes g1) -> rows_count (nodes g1) (total_nodes g1) ->
  broadcast_sender_nodes_to_edges g1 = Ok t1 ->
  broadcast_sender_nodes_to_edges g2 = Ok t2 ->
  exists t, broadcast_sender_nodes_to_edges g = Ok t /\ batched_tensor t1 t2 t.
Proof using Hb.
  intros Hr Hc H1 H2. unfold broadcast_sender_nodes_to_edges in *.
  inv_bind H1. inv_bind H1. inv_bind H2. inv_bind H2.
  apply require_Ok_inv in Hstep, Hstep0, Hstep1, Hstep2.
  apply batched_inv in Hb as (Hn & _ & _ & Hsd & _).
  destruct (batched_tensors_field _ _ _ _ _ Hn Hr Hstep Hstep1)
    as (t & Ht & -> & Hi & Hne).
  rewrite Ht. simpl.
  apply batch_indices_inv in Hsd as [(Hx & _)|(x & y & Hx & Hy & ->)];
    [congruence|].
  rewrite Hstep0 in Hx. rewrite Hstep2 in Hy.
  injection Hx as <-. injection Hy as <-. simpl.
  rewrite <- (Hc _ Hstep).
  destruct (tf_gather_batch _ _ _ _ _ _ H1 H2) as (-> & Hi1 & Hi2).
  eexists. split; [reflexivity|]. repeat split; congruence.
Qed.

Lemma broadcast_globals_to_edges_batch (t1 t2 : Tensor) :
  ranked (globals g1) ->
  broadcast_globals_to_edges g1 = Ok t1 -> broadcast_globals_to_edges g2 = Ok t2 ->
  exists t, broadcast_globals_to_edges g = Ok t /\ batched_tensor t1 t2 t.
Proof using Hb.
  intros Hr H1 H2. unfold broadcast_globals_to_edges in *.
  inv_bind H1. inv_bind H1. inv_bind H2. inv_bind H2.
  injection H1 as <-. injection H2 as <-.
  apply require_Ok_inv in Hstep, Hstep1.
  apply batched_inv in Hb as (_ & _ & _ & _ & Hg & _ & Hne).
  destruct (batched_tensors_field _ _ _ _ _ Hg Hr Hstep Hstep1)
    as (t & Ht & -> & Hi & Hnil).
  rewrite Ht, Hne. simpl.
  rewrite (repeat_rows_app _ _ _ _ _ _ Hstep0 Hstep2). simpl.
  eexists. split; [reflexivity|]. repeat split; assumption.
Qed.

Lemma broadcast_globals_to_nodes_batch (t1 t2 : Tensor) :
  ranked (globals g1) ->
  broadcast_globals_to_nodes g1 = Ok t1 -> broadcast_globals_to_nodes g2 = Ok t2 ->
  exists t, broadcast_globals_to_nodes g = Ok t /\ batched_tensor t1 t2 t.
Proof using Hb.
  intros Hr H1 H2. unfold broadcast_globals_to_nodes in *.
  inv_bind H1. inv_bind H1. inv_bind H2. inv_bind H2.
  injection H1 as <-. injection H2 as <-.
  apply require_Ok_inv in Hstep, Hstep1.
  apply batched_inv in Hb as (_ & _ & _ & _ & Hg & Hnn & _).
  destruct (batched_tensors_field _ _ _ _ _ Hg Hr Hstep Hstep1)
    as (t & Ht & -> & Hi & Hnil).
  rewrite Ht, Hnn. simpl.
  rewrite (repeat_rows_app _ _ _ _ _ _ Hstep0 Hstep2). simpl.
  eexists. split; [reflexivity|]. repeat split; assumption.
Qed.
End BatchedInputs.

Section BatchedAggregators.
Variables g1 g2 g : GraphsTuple.
Hypothesis Hb : batched g1 g2 g.
Variable r : reducer.
Hypothesis Hr : segmentwise r.

Lemma total_nodes_batch : total_nodes g = total_nodes g1 + total_nodes g2.
Proof using Hb.
  apply batched_inv in Hb as (_ & _ & _ & _ & _ & Hnn & _).
  unfold total_nodes. rewrite Hnn. apply tf_reduce_sum_int_app.
Qed.

Lemma ReceivedEdgesToNodesAggregator_batch (t1 t2 : Tensor) :
  ranked (edges g1) ->
  ReceivedEdgesToNodesAggregator r g1 = Ok t1 ->
  ReceivedEdgesToNodesAggregator r g2 = Ok t2 ->
  exists t, ReceivedEdgesToNodesAggregator r g = Ok t /\ batched_tensor t1 t2 t.
Proof using Hb Hr.
  intros Hrk H1 H2. unfold ReceivedEdgesToNodesAggregator in *.
  inv_bind H1. inv_bind H1. inv_bind H2. inv_bind H2.
  apply require_Ok_inv in Hstep, Hstep0, Hstep1, Hstep2.
  pose proof total_nodes_batch as HN. unfold total_nodes in HN.
  apply batched_inv in Hb as (_ & He & Hrc & _).
  destruct (batched_tensors_field _ _ _ _ _ He Hrk Hstep Hstep1)
    as (t & Ht & -> & Hi & Hne).
  rewrite Ht. simpl.
  apply batch_indices_inv in Hrc as [(Hx & _)|(x & y & Hx & Hy & ->)];
    [congruence|].
  rewrite Hstep0 in Hx. rewrite Hstep2 in Hy.
  injection Hx as <-. injection Hy as <-. simpl. rewrite HN.
  unfold total_nodes.
  destruct (Hr _ _ _ _ _ _ _ _ Hi H1 H2) as (-> & Hi1 & Hi2).
  eexists. split; [reflexivity|]. repeat split; congruence.
Qed.

Lemma SentEdgesToNodesAggregator_batch (t1 t2 : Tensor) :
  ranked (edges g1) ->
  SentEdgesToNodesAggregator r g1 = Ok t1 ->
  SentEdgesToNodesAggregator r g2 = Ok t2 ->
  exists t, SentEdgesToNodesAggregator r g = Ok t /\ batched_tensor t1 t2 t.
Proof using Hb Hr.
  intros Hrk H1 H2. unfold SentEdgesToNodesAggregator in *.
  inv_bind H1. inv_bind H1. inv_bind H2. inv_bind H2.
  apply require_Ok_inv in Hstep, Hstep0, Hstep1, Hstep2.
  pose proof total_nodes_batch as HN. unfold total_nodes in HN.
  apply batched_inv in Hb as (_ & He & _ & Hsd & _).
  destruct (batched_tensors_field _ _ _ _ _ He Hrk Hstep Hstep1)
    as (t & Ht & -> & Hi & Hne).
  rewrite Ht. simpl.
  apply batch_indices_inv in Hsd as [(Hx & _)|(x & y & Hx & Hy & ->)];
    [congruence|].
  rewrite Hstep0 in Hx. rewrite Hstep2 in Hy.
  injection Hx as <-. injection Hy as <-. simpl. rewrite HN.
  unfold total_nodes.
  destruct (Hr _ _ _ _ _ _ _ _ Hi H1 H2) as (-> & Hi1 & Hi2).
  eexists. split; [reflexivity|]. repeat split; congruence.
Qed.

Lemma EdgesToGlobalsAggregator_batch (t1 t2 : Tensor) :
  ranked (edges g1) -> length (n_node g1) = length (n_edge g1) ->
  EdgesToGlobalsAggregator r g1 = Ok t1 ->
  EdgesToGlobalsAggregator r g2 = Ok t2 ->
  exists t, EdgesToGlobalsAggregator r g = Ok t /\ batched_tensor t1 t2 t.
Proof using Hb Hr.
  intros Hrk Hlen H1 H2. unfold EdgesToGlobalsAggregator in *.
  inv_bind H1. inv_bind H1. inv_bind H2. inv_bind H2.
  apply require_Ok_inv in Hstep, Hstep1.
  apply batched_inv in Hb as (_ & He & _ & _ & _ & Hnn & Hne).
  destruct (batched_tensors_field _ _ _ _ _ He Hrk Hstep Hstep1)
    as (t & Ht & -> & Hi & Hnil).
  rewrite Ht, Hne. simpl.
  rewrite (graph_indices_app _ _ _ _ Hstep0 Hstep2). simpl.
  unfold num_graphs in *. rewrite Hnn, length_app, <- Hlen.
  destruct (Hr _ _ _ _ _ _ _ _ Hi H1 H2) as (-> & Hi1 & Hi2).
  eexists. split; [reflexivity|]. repeat split; congruence.
Qed.

Lemma NodesToGlobalsAggregator_batch (t1 t2 : Tensor) :
  ranked (nodes g1) ->
  NodesToGlobalsAggregator r g1 = Ok t1 ->
  NodesToGlobalsAggregator r g2 = Ok t2 ->
  exists t, NodesToGlobalsAggregator r g = Ok t /\ batched_tensor t1 t2 t.
Proof using Hb Hr.
  intros Hrk H1 H2. unfold NodesToGlobalsAggregator in *.
  inv_bind H1. inv_bind H1. inv_bind H2. inv_bind H2.
  apply require_Ok_inv in Hstep, Hstep1.
  apply batched_inv in Hb as (Hn & _ & _ & _ & _ & Hnn & _).
  destruct (batched_tensors_field _ _ _ _ _ Hn Hrk Hstep Hstep1)
    as (t & Ht & -> & Hi & Hnil).
  rewrite Ht, Hnn. simpl.
  rewrite (graph_indices_app _ _ _ _ Hstep0 Hstep2). simpl.
  unfold num_graphs in *. rewrite Hnn, length_app.
  destruct (Hr _ _ _ _ _ _ _ _ Hi H1 H2) as (-> & Hi1 & Hi2).
  eexists. split; [reflexivity|]. repeat split; congruence.
Qed.
End BatchedAggregators.

(** *** The blocks on a batch *)

Lemma rowwise_apply (f : model) (c1 c2 c u1 u2 : Tensor) :
  rowwise f -> batched_tensor c1 c2 c ->
  f c1 = Ok u1 -> f c2 = Ok u2 ->
  f c = Ok (concat0 u1 u2) /\ inner u1 = inner u2 /\ inner u1 <> [].
Proof.
  intros Hf (-> & Hi & Hne) H1 H2. exact (Hf _ _ _ _ Hi Hne H1 H2).
Qed.

Lemma ranked_Some (t : Tensor) : inner t <> [] -> ranked (Some t).
Proof. intros H x Hx. injection Hx as <-. exact H. Qed.

Lemma EdgeBlock_build_batch (b : EdgeBlock) (g1 g2 g o1 o2 : GraphsTuple) :
  rowwise_EdgeBlock b -> batched g1 g2 g ->
  well_ranked g1 -> rows_count (nodes g1) (total_nodes g1) ->
  EdgeBlock_build b g1 = Ok o1 -> EdgeBlock_build b g2 = Ok o2 ->
  exists o, EdgeBlock_build b g = Ok o /\ batched o1 o2 o /\ well_ranked o1.
Proof.
  intros Hf Hb (Hrn & Hre & Hrg) Hc H1 H2. unfold EdgeBlock_build in *.
  inv_binds H1. inv_binds H2. injection H1 as <-. injection H2 as <-.
  destruct (collect_batch _ _ _ (require (edges g)) _ _
              (fun t1 t2 => require_edges_batch _ _ _ Hb t1 t2 Hre)
              Hstep Hstep5) as (l1 & -> & Hl1).
  destruct (collect_batch _ _ _ (broadcast_receiver_nodes_to_edges g) _ _
              (fun t1 t2 => broadcast_receiver_nodes_to_edges_batch
                              _ _ _ Hb t1 t2 Hrn Hc)
              Hstep0 Hstep6) as (l2 & -> & Hl2).
  destruct (collect_batch _ _ _ (broadcast_sender_nodes_to_edges g) _ _
              (fun t1 t2 => broadcast_sender_nodes_to_edges_batch
                              _ _ _ Hb t1 t2 Hrn Hc)
              Hstep1 Hstep7) as (l3 & -> & Hl3).
  destruct (collect_batch _ _ _ (broadcast_globals_to_edges g) _ _
              (fun t1 t2 => broadcast_globals_to_edges_batch _ _ _ Hb t1 t2 Hrg)
              Hstep2 Hstep8) as (l4 & -> & Hl4).
  simpl.
  pose proof (batched_tensors_app _ _ _ _ _ _ Hl3 Hl4) as Hl34.
  pose proof (batched_tensors_app _ _ _ _ _ _ Hl2 Hl34) as Hl234.
  pose proof (batched_tensors_app _ _ _ _ _ _ Hl1 Hl234) as Hall.
  destruct (tf_concat_last_batch _ _ _ _ _ Hall Hstep3 Hstep9) as (c & -> & Hc').
  simpl.
  destruct (rowwise_apply _ _ _ _ _ _ Hf Hc' Hstep4 Hstep10) as (-> & Hi & Hne).
  simpl. eexists. split; [reflexivity|]. split.
  - apply batched_replace_edges; assumption.
  - repeat split; simpl; auto using ranked_Some.
Qed.

Lemma NodeBlock_build_batch (b : NodeBlock) (g1 g2 g o1 o2 : GraphsTuple) :
  rowwise_NodeBlock b -> batched g1 g2 g -> well_ranked g1 ->
  NodeBlock_build b g1 = Ok o1 -> NodeBlock_build b g2 = Ok o2 ->
  exists o, NodeBlock_build b g = Ok o /\ batched o1 o2 o /\ well_ranked o1.
Proof.
  intros (Hf & Hr1 & Hr2) Hb (Hrn & Hre & Hrg) H1 H2.
  unfold NodeBlock_build in *.
  inv_binds H1. inv_binds H2. injection H1 as <-. injection H2 as <-.
  destruct (collect_batch _ _ _
              (ReceivedEdgesToNodesAggregator (nb_received_edges_reducer b) g) _ _
              (fun t1 t2 => ReceivedEdgesToNodesAggregator_batch
                              _ _ _ Hb _ Hr1 t1 t2 Hre)
              Hstep Hstep5) as (l1 & -> & Hl1).
  destruct (collect_batch _ _ _
              (SentEdgesToNodesAggregator (nb_sent_edges_reducer b) g) _ _
              (fun t1 t2 => SentEdgesToNodesAggregator_batch
                              _ _ _ Hb _ Hr2 t1 t2 Hre)
              Hstep0 Hstep6) as (l2 & -> & Hl2).
  destruct (collect_batch _ _ _ (require (nodes g)) _ _
              (fun t1 t2 => require_nodes_batch _ _ _ Hb t1 t2 Hrn)
              Hstep1 Hstep7) as (l3 & -> & Hl3).
  destruct (collect_batch _ _ _ (broadcast_globals_to_nodes g) _ _
              (fun t1 t2 => broadcast_globals_to_nodes_batch _ _ _ Hb t1 t2 Hrg)
              Hstep2 Hstep8) as (l4 & -> & Hl4).
  simpl.
  pose proof (batched_tensors_app _ _ _ _ _ _ Hl3 Hl4) as Hl34.
  pose proof (batched_tensors_app _ _ _ _ _ _ Hl2 Hl34) as Hl234.
  pose proof (batched_tensors_app _ _ _ _ _ _ Hl1 Hl234) as Hall.
  destruct (tf_concat_last_batch _ _ _ _ _ Hall Hstep3 Hstep9) as (c & -> & Hc').
  simpl.
  destruct (rowwise_apply _ _ _ _ _ _ Hf Hc' Hstep4 Hstep10) as (-> & Hi & Hne).
  simpl. eexists. split; [reflexivity|]. split.
  - apply batched_replace_nodes; assumption.
  - repeat split; simpl; auto using ranked_Some.
Qed.

Lemma GlobalBlock_build_batch (b : GlobalBlock) (g1 g2 g o1 o2 : GraphsTuple) :
  rowwise_GlobalBlock b -> batched g1 g2 g -> well_ranked g1 ->
  length (n_node g1) = length (n_edge g1) ->
  GlobalBlock_build b g1 = Ok o1 -> GlobalBlock_build b g2 = Ok o2 ->
  exists o, GlobalBlock_build b g = Ok o /\ batched o1 o2 o /\ well_ranked o1.
Proof.
  intros (Hf & Hr1 & Hr2) Hb (Hrn & Hre & Hrg) Hlen H1 H2.
  unfold GlobalBlock_build in *.
  inv_binds H1. inv_binds H2. injection H1 as <-. injection H2 as <-.
  destruct (collect_batch _ _ _
              (EdgesToGlobalsAggregator (gb_edges_reducer b) g) _ _
              (fun t1 t2 => EdgesToGlobalsAggregator_batch
                              _ _ _ Hb _ Hr1 t1 t2 Hre Hlen)
              Hstep Hstep4) as (l1 & -> & Hl1).
  destruct (collect_batch _ _ _
              (NodesToGlobalsAggregator (gb_nodes_reducer b) g) _ _
              (fun t1 t2 => NodesToGlobalsAggregator_batch
                              _ _ _ Hb _ Hr2 t1 t2 Hrn)
              Hstep0 Hstep5) as (l2 & -> & Hl2).
  destruct (collect_batch _ _ _ (require (globals g)) _ _
              (fun t1 t2 => require_globals_batch _ _ _ Hb t1 t2 Hrg)
              Hstep1 Hstep6) as (l3 & -> & Hl3).
  simpl.
  pose proof (batched_tensors_app _ _ _ _ _ _ Hl2 Hl3) as Hl23.
  pose proof (batched_tensors_app _ _ _ _ _ _ Hl1 Hl23) as Hall.
  destruct (tf_concat_last_batch _ _ _ _ _ Hall Hstep2 Hstep7) as (c & -> & Hc').
  simpl.
  destruct (rowwise_apply _ _ _ _ _ _ Hf Hc' Hstep3 Hstep8) as (-> & Hi & Hne).
  simpl. eexists. split; [reflexivity|]. split.
  - apply batched_replace_globals; assumption.
  - repeat split; simpl; auto using ranked_Some.
Qed.

Lemma independent_model_batch (m : option Tensor -> result (option Tensor))
    (a b c u1 u2 : option Tensor) :
  rowwise_independent m -> batch_tensors a b = Ok c -> ranked a ->
  m a = Ok u1 -> m b = Ok u2 ->
  exists u, m c = Ok u /\ batch_tensors u1 u2 = Ok u.
Proof.
  intros (fn & -> & Hfn) Hc Hrk H1 H2. unfold independent_model in *.
  destruct fn as [f|].
  - destruct a as [x|]; [|discriminate]. destruct b as [y|]; [|discriminate].
    inv_bind H1. inv_bind H2. injection H1 as <-. injection H2 as <-.
    apply batch_tensors_inv in Hc as [(Hx & _)|(x' & y' & Hx & Hy & -> & Hi)];
      [discriminate|].
    injection Hx as <-. injection Hy as <-.
    destruct (Hfn f eq_refl _ _ _ _ Hi (Hrk _ eq_refl) Hstep Hstep0)
      as (-> & Hi' & _).
    simpl. eexists. split; [reflexivity|].
    rewrite Hi', list_nat_eqb_refl. reflexivity.
  - injection H1 as <-. injection H2 as <-. eauto.
Qed.

Lemma GraphIndependent_build_batch (net : GraphIndependent)
    (g1 g2 g o1 o2 : GraphsTuple) :
  rowwise_independent (gi_edge_model net) ->
  rowwise_independent (gi_node_model net) ->
  rowwise_independent (gi_global_model net) ->
  batched g1 g2 g -> well_ranked g1 ->
  GraphIndependent_build net g1 = Ok o1 -> GraphIndependent_build net g2 = Ok o2 ->
  exists o, GraphIndependent_build net g = Ok o /\ batched o1 o2 o.
Proof.
  intros He Hn Hg Hb (Hrn & Hre & Hrg) H1 H2. unfold GraphIndependent_build in *.
  inv_binds H1. inv_binds H2. injection H1 as <-. injection H2 as <-.
  apply batched_inv in Hb as (Hbn & Hbe & Hbr & Hbs & Hbg & Hnn & Hne).
  destruct (independent_model_batch _ _ _ _ _ _ He Hbe Hre Hstep Hstep2)
    as (e & -> & Hbe').
  destruct (independent_model_batch _ _ _ _ _ _ Hn Hbn Hrn Hstep0 Hstep3)
    as (n & -> & Hbn').
  destruct (independent_model_batch _ _ _ _ _ _ Hg Hbg Hrg Hstep1 Hstep4)
    as (gl & -> & Hbg').
  simpl. eexists. split; [reflexivity|].
  unfold batched, batch. simpl.
  change (total_nodes (replace_globals (replace_nodes (replace_edges g1 a) a0) a1))
    with (total_nodes g1).
  rewrite Hbn', Hbe', Hbr, Hbs, Hbg'. simpl.
  unfold replace_globals, replace_nodes, replace_edges. simpl.
  rewrite Hnn, Hne. reflexivity.
Qed.

(** *** Self-attention on a batch *)

Lemma tf_elementwise_batch (op : R -> R -> R) (a1 a2 b1 b2 c1 c2 : Tensor) :
  inner a1 = inner a2 -> inner b1 = inner b2 ->
  tf_elementwise op a1 b1 = Ok c1 -> tf_elementwise op a2 b2 = Ok c2 ->
  tf_elementwise op (concat0 a1 a2) (concat0 b1 b2) = Ok (concat0 c1 c2)
  /\ inner c1 = inner a1 /\ inner c2 = inner a2.
Proof.
  intros Ha Hb H1 H2.
  apply tf_elementwise_Ok_inv in H1 as (Hs1 & ->).
  apply tf_elementwise_Ok_inv in H2 as (Hs2 & ->).
  unfold shape in Hs1, Hs2. injection Hs1 as Hl1 Hi1. injection Hs2 as Hl2 Hi2.
  split; [|split; reflexivity].
  rewrite tf_elementwise_Ok.
  - unfold concat0. simpl. rewrite zip_with_app_same by exact Hl1. reflexivity.
  - unfold shape, concat0. simpl. rewrite !length_app. congruence.
Qed.

Lemma tf_mul_Ok_inv (a b c : Tensor) :
  tf_mul a b = Ok c ->
  length (rows a) = length (rows b) /\
  ((inner a = inner b /\
    c = mkTensor (inner a) (zip_with (zip_with Rmult) (rows a) (rows b))) \/
   (inner a <> inner b /\ inner b = lead_dims a ++ [1] /\ inner a <> [] /\
    c = mkTensor (inner a)
          (zip_with (scale_chunks (last_dim a)) (rows a) (rows b)))).
Proof.
  unfold tf_mul, shape. intros H.
  destruct (list_nat_eqb (length (rows a) :: inner a)
                         (length (rows b) :: inner b)) eqn:E1.
  - apply list_nat_eqb_eq in E1. injection E1 as Hl Hi. injection H as <-.
    auto.
  - destruct (_ && _) eqn:E2; [|discriminate].
    apply andb_true_iff in E2 as [E2 E3]. apply list_nat_eqb_eq in E2.
    injection E2 as Hl Hi. injection H as <-.
    assert (Hne : inner a <> []).
    { intros Hnil. apply list_nat_eqb_eq in Hnil. rewrite Hnil in E3.
      discriminate. }
    split; [auto|]. right. repeat split; auto.
    intros Heq. rewrite Hl, Heq, list_nat_eqb_refl in E1. discriminate.
Qed.

Lemma tf_mul_other_Ok (a b : Tensor) :
  inner a <> inner b -> inner a <> [] ->
  shape b = length (rows a) :: lead_dims a ++ [1] ->
  tf_mul a b
  = Ok (mkTensor (inner a) (zip_with (scale_chunks (last_dim a)) (rows a) (rows b))).
Proof.
  intros Hne Hnil Hs. unfold tf_mul.
  destruct (list_nat_eqb (shape a) (shape b)) eqn:E1.
  - apply list_nat_eqb_eq in E1. unfold shape in E1. injection E1 as _ Hi.
    contradiction.
  - rewrite Hs, list_nat_eqb_refl. simpl.
    destruct (list_nat_eqb (inner a) []) eqn:E2; [|reflexivity].
    apply list_nat_eqb_eq in E2. contradiction.
Qed.

Lemma tf_mul_batch (a1 a2 b1 b2 c1 c2 : Tensor) :
  inner a1 = inner a2 -> inner b1 = inner b2 ->
  tf_mul a1 b1 = Ok c1 -> tf_mul a2 b2 = Ok c2 ->
  tf_mul (concat0 a1 a2) (concat0 b1 b2) = Ok (concat0 c1 c2)
  /\ inner c1 = inner a1 /\ inner c2 = inner a2.
Proof.
  intros Ha Hb H1 H2.
  apply tf_mul_Ok_inv in H1
    as (Hl1 & [(Hi1 & ->)|(Hn1 & Hi1 & Hnil1 & ->)]);
  apply tf_mul_Ok_inv in H2
    as (Hl2 & [(Hi2 & ->)|(Hn2 & Hi2 & Hnil2 & ->)]);
  try congruence.
  - split; [|split; reflexivity].
    rewrite tf_mul_same_Ok.
    + unfold concat0. simpl. rewrite zip_with_app_same by exact Hl1.
      reflexivity.
    + unfold shape, concat0. simpl. rewrite !length_app. congruence.
  - split; [|split; reflexivity].
    rewrite tf_mul_other_Ok.
    + unfold concat0, last_dim. simpl. rewrite <- Ha.
      rewrite zip_with_app_same by exact Hl1. reflexivity.
    + exact Hn1.
    + exact Hnil1.
    + unfold shape, concat0, lead_dims. simpl. rewrite !length_app.
      unfold lead_dims in Hi1. congruence.
Qed.

Lemma tf_reduce_sum_last_batch (a1 a2 c1 c2 : Tensor) :
  inner a1 = inner a2 ->
  tf_reduce_sum_last a1 = Ok c1 -> tf_reduce_sum_last a2 = Ok c2 ->
  tf_reduce_sum_last (concat0 a1 a2) = Ok (concat0 c1 c2)
  /\ inner c1 = inner c2.
Proof.
  intros Ha H1 H2. unfold tf_reduce_sum_last, lead_dims, last_dim in *.
  unfold concat0 at 1. simpl. rewrite <- Ha in H2.
  destruct (inner a1) as [|x xs]; [discriminate|].
  injection H1 as <-. injection H2 as <-.
  unfold concat0. simpl. rewrite map_app. auto.
Qed.

Lemma tf_exp_batch (a b : Tensor) :
  tf_exp (concat0 a b) = concat0 (tf_exp a) (tf_exp b).
Proof. unfold tf_exp, concat0. simpl. rewrite map_app. reflexivity. Qed.

Lemma segment_reduce_rows_length (f : nat -> list (list R) -> list R)
    (d o : Tensor) (ids : list nat) (n : nat) :
  segment_reduce f d ids n = Ok o -> length (rows o) = n.
Proof.
  intros H. apply segment_reduce_Ok_inv in H as (_ & _ & ->).
  simpl. rewrite length_map, length_seq. reflexivity.
Qed.

(** The segment softmax keeps the graphs of a batch apart. *)
Lemma _unsorted_segment_softmax_segmentwise : segmentwise _unsorted_segment_softmax.
Proof.
  intros d1 d2 ids1 ids2 n1 n2 o1 o2 Hi H1 H2.
  unfold _unsorted_segment_softmax in *.
  unfold tf_unsorted_segment_max, tf_unsorted_segment_sum, tf_sub, tf_div in *.
  inv_binds H1. inv_binds H2.
  destruct (segment_reduce_batch _ _ _ _ _ _ _ _ _ Hi Hstep Hstep4)
    as (-> & Hia & Hia0). simpl.
  pose proof (segment_reduce_rows_length _ _ _ _ _ Hstep) as Hla.
  destruct (tf_gather_batch _ _ _ _ _ _ Hstep0 Hstep5) as (Hg & Hib & Hib0).
  rewrite Hla in Hg. rewrite Hg. simpl.
  assert (Hi05 : inner a0 = inner a5) by congruence.
  destruct (tf_elementwise_batch _ _ _ _ _ _ _ Hi Hi05 Hstep1 Hstep6)
    as (-> & Hic & Hic0). simpl.
  rewrite tf_exp_batch.
  assert (Hie : inner (tf_exp a1) = inner (tf_exp a6))
    by (simpl; congruence).
  destruct (segment_reduce_batch _ _ _ _ _ _ _ _ _ Hie Hstep2 Hstep7)
    as (-> & Hid & Hid0). simpl.
  pose proof (segment_reduce_rows_length _ _ _ _ _ Hstep2) as Hla2.
  destruct (tf_gather_batch _ _ _ _ _ _ Hstep3 Hstep8) as (Hg2 & Hif & Hif0).
  rewrite Hla2 in Hg2. rewrite Hg2. simpl.
  assert (Hi38 : inner a3 = inner a8) by (simpl in *; congruence).
  destruct (tf_elementwise_batch _ _ _ _ _ _ _ Hie Hi38 H1 H2)
    as (-> & Hig & Hig0).
  simpl in *. repeat split; congruence.
Qed.

Lemma gather_by_batch_indices (p1 p2 t1 t2 : Tensor) (i1 i2 i : option (list nat))
    (n : nat) :
  batch_indices n i1 i2 = Ok i -> length (rows p1) = n ->
  (do s <- require i1; tf_gather p1 s) = Ok t1 ->
  (do s <- require i2; tf_gather p2 s) = Ok t2 ->
  (do s <- require i; tf_gather (concat0 p1 p2) s) = Ok (concat0 t1 t2)
  /\ inner t1 = inner p1 /\ inner t2 = inner p2.
Proof.
  intros Hi Hn H1 H2. inv_bind H1. inv_bind H2.
  apply require_Ok_inv in Hstep, Hstep0. subst i1 i2. simpl in Hi.
  injection Hi as <-. simpl. rewrite <- Hn.
  apply tf_gather_batch; assumption.
Qed.

Lemma reduce_by_batch_indices (r : reducer) (d1 d2 t1 t2 : Tensor)
    (i1 i2 i : option (list nat)) (n1 n2 : nat) :
  segmentwise r -> batch_indices n1 i1 i2 = Ok i -> inner d1 = inner d2 ->
  (do rc <- require i1; r d1 rc n1) = Ok t1 ->
  (do rc <- require i2; r d2 rc n2) = Ok t2 ->
  (do rc <- require i; r (concat0 d1 d2) rc (n1 + n2)) = Ok (concat0 t1 t2)
  /\ inner t1 = inner d1 /\ inner t2 = inner d2.
Proof.
  intros Hr Hi Hd H1 H2. inv_bind H1. inv_bind H2.
  apply require_Ok_inv in Hstep, Hstep0. subst i1 i2. simpl in Hi.
  injection Hi as <-. simpl. apply Hr; assumption.
Qed.

Lemma SelfAttention_build_batch (v1 k1 q1 v2 k2 q2 : Tensor)
    (g1 g2 g o1 o2 : GraphsTuple) :
  batched g1 g2 g ->
  inner v1 = inner v2 -> inner k1 = inner k2 -> inner q1 = inner q2 ->
  length (rows v1) = total_nodes g1 ->
  length (rows k1) = total_nodes g1 ->
  length (rows q1) = total_nodes g1 ->
  SelfAttention_build v1 k1 q1 g1 = Ok o1 ->
  SelfAttention_build v2 k2 q2 g2 = Ok o2 ->
  exists o,
    SelfAttention_build (concat0 v1 v2) (concat0 k1 k2) (concat0 q1 q2) g = Ok o /\
    batched o1 o2 o.
Proof.
  intros Hb Hv Hk Hq Hlv Hlk Hlq H1 H2.
  pose proof (total_nodes_batch _ _ _ Hb) as HN. unfold total_nodes in HN.
  pose proof (batched_inv _ _ _ Hb) as (_ & _ & Hrc & Hsd & _).
  unfold total_nodes in Hrc, Hsd, Hlv, Hlk, Hlq.
  unfold SelfAttention_build, broadcast_sender_nodes_to_edges,
    broadcast_receiver_nodes_to_edges, _received_edges_normalizer,
    ReceivedEdgesToNodesAggregator in *.
  simpl in *.
  inv_bind H1. inv_bind H1. inv_bind H1. inv_bind H1. inv_bind H1.
  inv_bind H1. inv_bind H1. inv_bind H1. injection H1 as <-.
  inv_bind H2. inv_bind H2. inv_bind H2. inv_bind H2. inv_bind H2.
  inv_bind H2. inv_bind H2. inv_bind H2. injection H2 as <-.
  destruct (gather_by_batch_indices _ _ _ _ _ _ _ _ Hsd Hlk Hstep Hstep7)
    as (-> & Hi1 & Hi2).
  destruct (gather_by_batch_indices _ _ _ _ _ _ _ _ Hsd Hlv Hstep0 Hstep8)
    as (-> & Hi3 & Hi4).
  destruct (gather_by_batch_indices _ _ _ _ _ _ _ _ Hrc Hlq Hstep1 Hstep9)
    as (-> & Hi5 & Hi6).
  simpl.
  assert (Ha : inner a = inner a7) by congruence.
  assert (Ha1 : inner a1 = inner a9) by congruence.
  destruct (tf_mul_batch _ _ _ _ _ _ Ha Ha1 Hstep2 Hstep10) as (-> & Hi7 & Hi8).
  simpl.
  assert (Ha2 : inner a2 = inner a10) by congruence.
  destruct (tf_reduce_sum_last_batch _ _ _ _ Ha2 Hstep3 Hstep11) as (-> & Hi9).
  simpl. rewrite HN.
  destruct (reduce_by_batch_indices _ _ _ _ _ _ _ _ _ _
              _unsorted_segment_softmax_segmentwise Hrc Hi9 Hstep4 Hstep12)
    as (-> & Hi10 & Hi11).
  simpl.
  assert (Ha0 : inner a0 = inner a8) by congruence.
  assert (Hex : inner (expand_last a4) = inner (expand_last a12))
    by (simpl; congruence).
  destruct (tf_mul_batch _ _ _ _ _ _ Ha0 Hex Hstep5 Hstep13) as (Hm & Hi12 & Hi13).
  change (expand_last (concat0 a4 a12))
    with (concat0 (expand_last a4) (expand_last a12)).
  rewrite Hm. simpl.
  assert (Ha5 : inner a5 = inner a13) by congruence.
  destruct (reduce_by_batch_indices _ _ _ _ _ _ _ _ _ _
              tf_unsorted_segment_sum_segmentwise Hrc Ha5 Hstep6 Hstep14)
    as (-> & Hi14 & Hi15).
  simpl. eexists. split; [reflexivity|].
  apply batched_replace_nodes; [exact Hb | congruence].
Qed.

(** *** The architectures on a batch *)

Lemma batched_replace_globals_opt (g1 g2 g : GraphsTuple) (u1 u2 u : option Tensor) :
  batched g1 g2 g -> batch_tensors u1 u2 = Ok u ->
  batched (replace_globals g1 u1) (replace_globals g2 u2) (replace_globals g u).
Proof.
  intros H Hu. apply batched_inv in H as (Hn & He & Hr & Hs & Hg & Hnn & Hne).
  unfold batched, batch. simpl.
  change (total_nodes (replace_globals g1 u1)) with (total_nodes g1).
  rewrite Hn, He, Hr, Hs, Hu. simpl.
  unfold replace_globals. rewrite Hnn, Hne. reflexivity.
Qed.

Lemma batched_replace_nodes_opt (g1 g2 g : GraphsTuple) (u1 u2 u : option Tensor) :
  batched g1 g2 g -> batch_tensors u1 u2 = Ok u ->
  batched (replace_nodes g1 u1) (replace_nodes g2 u2) (replace_nodes g u).
Proof.
  intros H Hu. apply batched_inv in H as (Hn & He & Hr & Hs & Hg & Hnn & Hne).
  unfold batched, batch. simpl.
  change (total_nodes (replace_nodes g1 u1)) with (total_nodes g1).
  rewrite Hu, He, Hr, Hs, Hg. simpl.
  unfold replace_nodes. rewrite Hnn, Hne. reflexivity.
Qed.

Lemma block_architecture_batch (A : architecture) (g1 g2 g o1 o2 : GraphsTuple) :
  rowwise_architecture A ->
  valid_graph g1 -> batched g1 g2 g ->
  run A g1 = Ok o1 -> run A g2 = Ok o2 ->
  exists o, run A g = Ok o /\ batched o1 o2 o.
Proof.
  intros HA (Hrk & Hlen & Hcn & _) Hb H1 H2.
  destruct A as [net|net|net|net|net|net|v k q]; simpl in *.
  - destruct HA as (He & Hn & Hg). unfold GraphNetwork_build in *.
    inv_bind H1. inv_bind H1. inv_bind H2. inv_bind H2.
    destruct (EdgeBlock_build_batch _ _ _ _ _ _ He Hb Hrk Hcn Hstep Hstep1)
      as (oe & -> & Hbe & Hrke). simpl.
    destruct (NodeBlock_build_batch _ _ _ _ _ _ Hn Hbe Hrke Hstep0 Hstep2)
      as (on & -> & Hbn & Hrkn). simpl.
    apply EdgeBlock_build_frame in Hstep as [? ->].
    apply NodeBlock_build_frame in Hstep0 as [? ->].
    destruct (GlobalBlock_build_batch _ _ _ _ _ _ Hg Hbn Hrkn Hlen H1 H2)
      as (og & -> & Hbg & _).
    eauto.
  - destruct HA as (He & Hn & Hg).
    eapply GraphIndependent_build_batch; eassumption.
  - destruct HA as (He & Hn). unfold InteractionNetwork_build in *.
    inv_bind H1. inv_bind H2.
    destruct (EdgeBlock_build_batch _ _ _ _ _ _ He Hb Hrk Hcn Hstep Hstep0)
      as (oe & -> & Hbe & Hrke). simpl.
    destruct (NodeBlock_build_batch _ _ _ _ _ _ Hn Hbe Hrke H1 H2)
      as (on & -> & Hbn & _).
    eauto.
  - destruct HA as (He & Hg). unfold RelationNetwork_build in *.
    inv_bind H1. inv_bind H1. inv_bind H2. inv_bind H2.
    injection H1 as <-. injection H2 as <-.
    destruct (EdgeBlock_build_batch _ _ _ _ _ _ He Hb Hrk Hcn Hstep Hstep1)
      as (oe & -> & Hbe & Hrke). simpl.
    apply EdgeBlock_build_frame in Hstep as [? ->].
    destruct (GlobalBlock_build_batch _ _ _ _ _ _ Hg Hbe Hrke Hlen Hstep0 Hstep2)
      as (og & -> & Hbg & _).
    simpl. eexists. split; [reflexivity|].
    apply batched_replace_globals_opt; [exact Hb|].
    apply batched_inv in Hbg. tauto.
  - destruct HA as (Hn & Hg). unfold DeepSets_build in *.
    inv_bind H1. inv_bind H2.
    destruct (NodeBlock_build_batch _ _ _ _ _ _ Hn Hb Hrk Hstep Hstep0)
      as (on & -> & Hbn & Hrkn). simpl.
    apply NodeBlock_build_frame in Hstep as [? ->].
    destruct (GlobalBlock_build_batch _ _ _ _ _ _ Hg Hbn Hrkn Hlen H1 H2)
      as (og & -> & Hbg & _).
    eauto.
  - destruct HA as (He & Hn1 & Hn2). unfold CommNet_build in *.
    inv_bind H1. inv_bind H1. inv_bind H1. inv_bind H2. inv_bind H2. inv_bind H2.
    injection H1 as <-. injection H2 as <-.
    destruct (EdgeBlock_build_batch _ _ _ _ _ _ He Hb Hrk Hcn Hstep Hstep2)
      as (oe & -> & Hbe & Hrke). simpl.
    destruct (NodeBlock_build_batch _ _ _ _ _ _ Hn1 Hbe Hrke Hstep0 Hstep3)
      as (on1 & -> & Hbn1 & Hrkn1). simpl.
    destruct (NodeBlock_build_batch _ _ _ _ _ _ Hn2 Hbn1 Hrkn1 Hstep1 Hstep4)
      as (on2 & -> & Hbn2 & _). simpl.
    eexists. split; [reflexivity|].
    apply batched_replace_nodes_opt; [exact Hb|].
    apply batched_inv in Hbn2. tauto.
  - contradiction.
Qed.

Lemma identity_model_rowwise : rowwise identity_model.
Proof.
  intros a b a' b' Hi Hne H1 H2. unfold identity_model in *.
  injection H1 as <-. injection H2 as <-. auto.
Qed.



(** ** The segment softmax for every dtype (C2) *)

Section DtypeFacts.
Context {A : Type} (ar : arithmetic A).

Lemma segment_reduce_of_Ok (f : nat -> list (list A) -> list A)
    (data : TensorOf A) (ids : list nat) (n : nat) :
  length ids = length (rows_of data) -> Forall (fun i => i < n) ids ->
  segment_reduce_of f data ids n
  = Ok (mkTensorOf (inner_of data)
          (map (fun s => f (rowsize_of data) (segment_rows_of s ids (rows_of data)))
               (seq 0 n))).
Proof.
  intros Hlen Hids. unfold segment_reduce_of.
  rewrite Hlen, Nat.eqb_refl. simpl.
  rewrite forallb_ltb_Forall by assumption. reflexivity.
Qed.

Lemma tf_gather_of_table (inn : list nat) (f : nat -> list A) (n : nat)
    (ids : list nat) :
  Forall (fun i => i < n) ids ->
  tf_gather_of (mkTensorOf inn (map f (seq 0 n))) ids
  = Ok (mkTensorOf inn (map f ids)).
Proof.
  intros H. unfold tf_gather_of. simpl.
  rewrite (mapM_Ok _ f); [reflexivity|].
  intros i Hi. rewrite Forall_forall in H.
  specialize (H i (proj2 (list_elem_of_In _ _) Hi)).
  rewrite nth_error_map, nth_error_seq.
  destruct (Nat.ltb_spec i n) as [_|Hge]; [reflexivity|lia].
Qed.

Lemma tf_elementwise_of_Ok (op : A -> A -> A) (a b : TensorOf A) :
  shape_of a = shape_of b ->
  tf_elementwise_of op a b
  = Ok (mkTensorOf (inner_of a) (zip_with (zip_with op) (rows_of a) (rows_of b))).
Proof.
  intros H. unfold tf_elementwise_of. rewrite H, list_nat_eqb_refl. reflexivity.
Qed.

Lemma _unsorted_segment_softmax_of_Ok (data : TensorOf A) (ids : list nat) (n : nat) :
  length ids = length (rows_of data) -> Forall (fun i => i < n) ids ->
  _unsorted_segment_softmax_of ar data ids n
  = Ok (mkTensorOf (inner_of data)
          (softmax_rows_of ar (rowsize_of data) ids (rows_of data))).
Proof.
  intros Hlen Hids. unfold _unsorted_segment_softmax_of.
  unfold tf_unsorted_segment_max_of, tf_unsorted_segment_sum_of.
  rewrite segment_reduce_of_Ok by assumption. cbn [bind].
  rewrite tf_gather_of_table by assumption. cbn [bind].
  rewrite tf_elementwise_of_Ok
    by (unfold shape_of; simpl; rewrite length_map; congruence).
  cbn [bind]. unfold tf_exp_of. cbn [rows_of inner_of].
  rewrite segment_reduce_of_Ok;
    [| cbn [rows_of]; rewrite length_map, length_zip_with, length_map; lia
     | assumption].
  cbn [bind rows_of inner_of].
  rewrite tf_gather_of_table by assumption. cbn [bind].
  rewrite tf_elementwise_of_Ok.
  - reflexivity.
  - unfold shape_of. cbn [rows_of inner_of].
    rewrite !length_map, length_zip_with, length_map. f_equal. lia.
Qed.


Lemma segment_rows_of_shifted (n : nat) (ids : list nat) (data : list (list A))
    (k : nat) (idf : nat -> nat) (df : nat -> list A) :
  length ids = length data ->
  (forall j, j < length ids ->
             idf (k + j) = nth j ids 0 /\ df (k + j) = nth j data []) ->
  segment_rows_of n ids data
  = map df (List.filter (fun e => Nat.eqb (idf e) n) (seq k (length ids))).
Proof.
  unfold segment_rows_of. revert data k.
  induction ids as [|i ids IH]; intros [|r data] k Hlen Hf; simpl in *;
    try discriminate; [reflexivity|].
  destruct (Hf 0 ltac:(lia)) as [Hi Hr]. rewrite Nat.add_0_r in Hi, Hr.
  simpl in Hi, Hr. rewrite Hi.
  assert (IH' : map snd (List.filter (fun p => Nat.eqb (fst p) n) (combine ids data))
                = map df (List.filter (fun e => Nat.eqb (idf e) n)
                                      (seq (S k) (length ids)))).
  { apply IH; [lia|]. intros j Hj.
    destruct (Hf (S j) ltac:(lia)) as [H1 H2].
    rewrite Nat.add_succ_r in H1, H2. simpl in H1, H2. auto. }
  destruct (Nat.eqb i n); simpl; rewrite IH'; [rewrite Hr|]; reflexivity.
Qed.

Lemma segment_rows_of_in_edges (n : nat) (ids : list nat) (data : list (list A)) :
  length ids = length data ->
  segment_rows_of n ids data = map (fun e => nth e data []) (in_edges ids n).
Proof.
  intros Hlen. unfold in_edges.
  apply (segment_rows_of_shifted n ids data 0 (fun e => nth e ids 0)
           (fun e => nth e data [])); [exact Hlen|].
  intros j _. split; reflexivity.
Qed.

Lemma length_shifted_rows_of (k : nat) (ids : list nat) (rs : list (list A)) :
  length ids = length rs -> length (shifted_rows_of ar k ids rs) = length ids.
Proof.
  intros H. unfold shifted_rows_of. rewrite length_zip_with, length_map. lia.
Qed.

(** The rows the softmax exponentiates are the centred rows. *)
Lemma shifted_rows_of_nth (data : TensorOf A) (ids : list nat) (e : nat) :
  length ids = length (rows_of data) -> e < length ids ->
  nth e (shifted_rows_of ar (rowsize_of data) ids (rows_of data)) []
  = centred_row ar data ids e.
Proof.
  intros Hlen He. unfold shifted_rows_of, centred_row.
  rewrite (nth_zip_with_gen _ _ _ _ [] [] []) by (rewrite ?length_map; lia).
  rewrite (nth_map_lt _ _ _ 0 []) by lia.
  rewrite segment_rows_of_in_edges by exact Hlen. reflexivity.
Qed.

Lemma softmax_rows_of_nth (data : TensorOf A) (ids : list nat) (e : nat) :
  length ids = length (rows_of data) -> e < length ids ->
  nth e (softmax_rows_of ar (rowsize_of data) ids (rows_of data)) []
  = zip_with (ar_div ar) (exp_row ar data ids e) (exp_sum_row ar data ids e).
Proof.
  intros Hlen He. unfold softmax_rows_of, exp_sum_row.
  rewrite (nth_zip_with_gen _ _ _ _ [] [] [])
    by (rewrite ?length_map, ?length_shifted_rows_of; lia).
  rewrite (nth_map_lt _ _ _ [] []) by (rewrite length_shifted_rows_of; lia).
  rewrite shifted_rows_of_nth by assumption.
  rewrite (nth_map_lt _ _ _ 0 []) by lia.
  rewrite segment_rows_of_in_edges
    by (rewrite length_map, length_shifted_rows_of; lia).
  f_equal. f_equal. apply map_ext_in. intros i Hi.
  apply in_edges_spec in Hi as [Hi _].
  rewrite (nth_map_lt _ _ _ [] []) by (rewrite length_shifted_rows_of; lia).
  rewrite shifted_rows_of_nth by assumption. reflexivity.
Qed.

Lemma shift_segment_of_nth (c : A) (s : nat) (ids : list nat) (data : TensorOf A)
    (i : nat) :
  length ids = length (rows_of data) -> i < length ids ->
  nth i (rows_of (shift_segment_of ar c s ids data)) []
  = if Nat.eqb (nth i ids 0) s
    then map (fun x => ar_add ar x c) (nth i (rows_of data) [])
    else nth i (rows_of data) [].
Proof.
  intros Hlen Hi. unfold shift_segment_of. cbn [rows_of].
  rewrite (nth_zip_with_gen _ _ _ _ 0 [] []) by lia. reflexivity.
Qed.

Lemma length_shift_segment_of (c : A) (s : nat) (ids : list nat) (data : TensorOf A) :
  length ids = length (rows_of data) ->
  length (rows_of (shift_segment_of ar c s ids data)) = length ids.
Proof.
  intros Hlen. unfold shift_segment_of. cbn [rows_of].
  rewrite length_zip_with. lia.
Qed.

(** A shift of segment [s] leaves the centred rows of the other segments as
    they are. *)
Lemma centred_row_other_segment (c : A) (s : nat) (ids : list nat)
    (data : TensorOf A) (e : nat) :
  length ids = length (rows_of data) -> e < length ids ->
  nth e ids 0 <> s ->
  centred_row ar (shift_segment_of ar c s ids data) ids e
  = centred_row ar data ids e.
Proof.
  intros Hlen He Hne. unfold centred_row.
  rewrite shift_segment_of_nth by assumption.
  destruct (Nat.eqb_spec (nth e ids 0) s) as [Heq|_]; [contradiction|].
  f_equal. unfold rowsize_of, shift_segment_of. cbn [inner_of]. f_equal.
  apply map_ext_in. intros i Hi. apply in_edges_spec in Hi as [Hi Hid].
  fold (shift_segment_of ar c s ids data).
  rewrite shift_segment_of_nth by assumption.
  destruct (Nat.eqb_spec (nth i ids 0) s) as [Heq|_]; [congruence|reflexivity].
Qed.

Lemma length_softmax_rows_of (k : nat) (ids : list nat) (rs : list (list A)) :
  length ids = length rs -> length (softmax_rows_of ar k ids rs) = length rs.
Proof.
  intros H. unfold softmax_rows_of.
  rewrite length_zip_with, !length_map, length_shifted_rows_of by exact H. lia.
Qed.

(** The softmax is a function of the centred rows. *)
Lemma softmax_rows_of_centred (data data' : TensorOf A) (ids : list nat) :
  length ids = length (rows_of data) -> length ids = length (rows_of data') ->
  inner_of data' = inner_of data ->
  (forall e, e < length ids ->
             centred_row ar data' ids e = centred_row ar data ids e) ->
  softmax_rows_of ar (rowsize_of data') ids (rows_of data')
  = softmax_rows_of ar (rowsize_of data) ids (rows_of data).
Proof.
  intros Hlen Hlen' Hin H.
  assert (Hk : rowsize_of data' = rowsize_of data)
    by (unfold rowsize_of; rewrite Hin; reflexivity).
  assert (Hsh : shifted_rows_of ar (rowsize_of data') ids (rows_of data')
                = shifted_rows_of ar (rowsize_of data) ids (rows_of data)).
  { apply (nth_ext _ _ [] []).
    - rewrite !length_shifted_rows_of by assumption. reflexivity.
    - intros e He. rewrite length_shifted_rows_of in He by assumption.
      rewrite !shifted_rows_of_nth by assumption. apply H. exact He. }
  unfold softmax_rows_of. rewrite Hsh, Hk. reflexivity.
Qed.

End DtypeFacts.

Lemma segment_max_of_real (data : Tensor) (ids : list nat) (n : nat) :
  tf_unsorted_segment_max_of real_arithmetic (of_Tensor data) ids n
  = do out <- tf_unsorted_segment_max data ids n; Ok (of_Tensor out).
Proof.
  unfold tf_unsorted_segment_max_of, tf_unsorted_segment_max,
    segment_reduce_of, segment_reduce, of_Tensor.
  cbn [rows_of inner_of].
  destruct (guard (Nat.eqb _ _) _) as [[]|]; [|reflexivity]. cbn [bind].
  destruct (guard (forallb _ _) _) as [[]|]; reflexivity.
Qed.

Lemma segment_sum_of_real (data : Tensor) (ids : list nat) (n : nat) :
  tf_unsorted_segment_sum_of real_arithmetic (of_Tensor data) ids n
  = do out <- tf_unsorted_segment_sum data ids n; Ok (of_Tensor out).
Proof.
  unfold tf_unsorted_segment_sum_of, tf_unsorted_segment_sum,
    segment_reduce_of, segment_reduce, of_Tensor.
  cbn [rows_of inner_of].
  destruct (guard (Nat.eqb _ _) _) as [[]|]; [|reflexivity]. cbn [bind].
  destruct (guard (forallb _ _) _) as [[]|]; reflexivity.
Qed.

Lemma tf_gather_of_real (params : Tensor) (ids : list nat) :
  tf_gather_of (of_Tensor params) ids
  = do out <- tf_gather params ids; Ok (of_Tensor out).
Proof.
  unfold tf_gather_of, tf_gather, of_Tensor. cbn [rows_of inner_of].
  destruct (mapM _ ids); reflexivity.
Qed.

Lemma tf_elementwise_of_real (op : R -> R -> R) (a b : Tensor) :
  tf_elementwise_of op (of_Tensor a) (of_Tensor b)
  = do out <- tf_elementwise op a b; Ok (of_Tensor out).
Proof.
  unfold tf_elementwise_of, tf_elementwise, of_Tensor, shape_of, shape.
  cbn [rows_of inner_of].
  destruct (guard _ _) as [[]|]; reflexivity.
Qed.

(** On the reals the function is [_unsorted_segment_softmax]. *)
Lemma softmax_of_real (data : Tensor) (ids : list nat) (n : nat) :
  _unsorted_segment_softmax_of real_arithmetic (of_Tensor data) ids n
  = do out <- _unsorted_segment_softmax data ids n; Ok (of_Tensor out).
Proof.
  unfold _unsorted_segment_softmax_of, _unsorted_segment_softmax, tf_sub, tf_div.
  change (ar_sub real_arithmetic) with Rminus.
  change (ar_div real_arithmetic) with Rdiv.
  rewrite segment_max_of_real.
  destruct (tf_unsorted_segment_max data ids n) as [m|]; [|reflexivity].
  cbn [bind]. rewrite tf_gather_of_real.
  destruct (tf_gather m ids) as [g|]; [|reflexivity].
  cbn [bind]. rewrite tf_elementwise_of_real.
  destruct (tf_elementwise Rminus data g) as [d|]; [|reflexivity].
  cbn [bind].
  change (tf_exp_of real_arithmetic (of_Tensor d)) with (of_Tensor (tf_exp d)).
  rewrite segment_sum_of_real.
  destruct (tf_unsorted_segment_sum (tf_exp d) ids n) as [ss|]; [|reflexivity].
  cbn [bind]. rewrite tf_gather_of_real.
  destruct (tf_gather ss ids) as [gs|]; [|reflexivity].
  cbn [bind]. apply tf_elementwise_of_real.
Qed.

(** C2, as the code has it.  For every dtype and segment ids in range,
    [_unsorted_segment_softmax] returns a tensor of the shape of [data]
    whose row [e] is the exponential of row [e] minus the maximum of its
    segment, divided by the sum of these exponentials over the segment.
    Adding [c] to the rows of one segment does not change the result
    whenever it does not change the rows of that segment minus their
    maximum.  In binary64, with an exponential that is 1 at 0, a single
    segment with logits [0, 0, 0] gives [1/3, 1/3, 1/3]. *)
Theorem segment_softmax_centred_rows :
  (forall (A : Type) (ar : arithmetic A) (data : TensorOf A)
          (segment_ids : list nat) (num_segments : nat),
     length segment_ids = length (rows_of data) ->
     Forall (fun i => i < num_segments) segment_ids ->
     exists out,
       _unsorted_segment_softmax_of ar data segment_ids num_segments = Ok out /\
       shape_of out = shape_of data /\
       (forall e, e < length segment_ids ->
          nth e (rows_of out) []
          = zip_with (ar_div ar) (exp_row ar data segment_ids e)
                     (exp_sum_row ar data segment_ids e)) /\
       (forall c s,
          (forall e, e < length segment_ids -> nth e segment_ids 0 = s ->
             centred_row ar (shift_segment_of ar c s segment_ids data)
                         segment_ids e
             = centred_row ar data segment_ids e) ->
          _unsorted_segment_softmax_of
            ar (shift_segment_of ar c s segment_ids data) segment_ids num_segments
          = Ok out)) /\
  (forall fexp : float -> float,
     fexp 0%float = 1%float ->
     _unsorted_segment_softmax_of (float64_arithmetic fexp)
       (mkTensorOf [] [[0]; [0]; [0]]%float) [0; 0; 0] 1
     = Ok (mkTensorOf [] [[1 / 3]; [1 / 3]; [1 / 3]]%float)).
Proof.
  split.
  - intros A ar data ids n Hlen Hids.
    eexists. split; [apply _unsorted_segment_softmax_of_Ok; assumption|].
    split; [|split].
    + unfold shape_of. cbn [rows_of inner_of].
      rewrite length_softmax_rows_of by exact Hlen. reflexivity.
    + intros e He. cbn [rows_of]. apply softmax_rows_of_nth; assumption.
    + intros c s Hc.
      assert (Hlen' : length ids
                      = length (rows_of (shift_segment_of ar c s ids data)))
        by (rewrite length_shift_segment_of by exact Hlen; reflexivity).
      rewrite _unsorted_segment_softmax_of_Ok by assumption.
      assert (Hall : forall e, e < length ids ->
                centred_row ar (shift_segment_of ar c s ids data) ids e
                = centred_row ar data ids e).
      { intros e He. destruct (Nat.eq_dec (nth e ids 0) s) as [Hs|Hs].
        - apply Hc; assumption.
        - apply centred_row_other_segment; assumption. }
      rewrite (softmax_rows_of_centred ar data (shift_segment_of ar c s ids data) ids
                 Hlen Hlen' eq_refl Hall).
      reflexivity.
  - intros fexp H0. cbv in H0. cbv. rewrite H0. reflexivity.
Qed.

Lemma segment_softmax_centred_rows_witness :
  ((0 + 2 = 2)%float /\ (1 + 2 = 3)%float) /\
  forall fexp : float -> float,
    exists out,
      _unsorted_segment_softmax_of (float64_arithmetic fexp)
        (mkTensorOf [] [[0]; [1]]%float) [0; 0] 1 = Ok out /\
      _unsorted_segment_softmax_of (float64_arithmetic fexp)
        (shift_segment_of (float64_arithmetic fexp) 2%float 0 [0; 0]
                          (mkTensorOf [] [[0]; [1]]%float)) [0; 0] 1 = Ok out.
Proof.
  split; [split; reflexivity|]. intros fexp.
  destruct (proj1 segment_softmax_centred_rows float (float64_arithmetic fexp)
              (mkTensorOf [] [[0]; [1]]%float) [0; 0] 1)
    as (out & Hout & _ & _ & Hshift);
    [reflexivity | repeat constructor |].
  exists out. split; [exact Hout|]. apply Hshift.
  intros [|[|e]] He _; [reflexivity | reflexivity | simpl in He; lia].
Defined.

(** The claim fails in binary64 when the addition of [c] rounds: 0 + 1e20
    and 1000 + 1e20 are the same number, so the shifted segment holds two
    equal logits and the softmax gives [0.5, 0.5], while on [0, 1000] it
    gives [0, 1].  Of the exponential only its values at 0 and at -1000 are
    used: 1, and 0 by underflow. *)
Lemma segment_softmax_shift_rounds :
  ((0 + 1e20 = 1e20)%float /\ (1000 + 1e20 = 1e20)%float) /\
  forall fexp : float -> float,
    fexp 0%float = 1%float -> fexp (-1000)%float = 0%float ->
    let ar := float64_arithmetic fexp in
    let data := mkTensorOf [] [[0]; [1000]]%float in
    _unsorted_segment_softmax_of ar data [0; 0] 1
    = Ok (mkTensorOf [] [[0]; [1]]%float) /\
    _unsorted_segment_softmax_of ar (shift_segment_of ar 1e20%float 0 [0; 0] data)
                                 [0; 0] 1
    = Ok (mkTensorOf [] [[0.5]; [0.5]]%float) /\
    _unsorted_segment_softmax_of ar (shift_segment_of ar 1e20%float 0 [0; 0] data)
                                 [0; 0] 1
    <> _unsorted_segment_softmax_of ar data [0; 0] 1.
Proof.
  split; [split; reflexivity|]. intros fexp H0 H1 ar data.
  assert (Hd : _unsorted_segment_softmax_of ar data [0; 0] 1
               = Ok (mkTensorOf [] [[0]; [1]]%float)).
  { subst ar data. cbv in H0, H1. cbv. rewrite H0, H1. reflexivity. }
  assert (Hs : _unsorted_segment_softmax_of
                 ar (shift_segment_of ar 1e20%float 0 [0; 0] data) [0; 0] 1
               = Ok (mkTensorOf [] [[0.5]; [0.5]]%float)).
  { subst ar data. cbv in H0. cbv. rewrite H0. reflexivity. }
  split; [exact Hd|]. split; [exact Hs|].
  rewrite Hd, Hs. intros H.
  apply (f_equal (fun r => match r with
                           | Ok t => match rows_of t with
                                     | (x :: _) :: _ => PrimFloat.ltb x 0.25
                                     | _ => false
                                     end
                           | Raise _ => false
                           end)) in H.
  vm_compute in H. discriminate H.
Qed.

(** * Further properties *)

(** ** Default options *)

Lemma fill_defaults_union (defaults : list (string * optval))
    (opt : gmap string optval) :
  fill_defaults defaults opt = opt ∪ list_to_map defaults.
Proof.
  unfold fill_defaults. revert opt.
  induction defaults as [|[k v] defaults IH]; intros opt; simpl.
  - rewrite (right_id_L ∅ (∪)). reflexivity.
  - rewrite IH. apply map_eq. intros k'.
    rewrite !lookup_union. destruct (decide (k = k')) as [->|Hne].
    + rewrite !lookup_insert_eq.
      destruct (opt !! k'), (list_to_map defaults !! k'); reflexivity.
    + rewrite !lookup_insert_ne by exact Hne. reflexivity.
Qed.

Lemma edge_block_opt_union (edge_block_opt : option (gmap string optval)) :
  _make_default_edge_block_opt edge_block_opt
  = dict_or_empty edge_block_opt ∪ list_to_map _DEFAULT_EDGE_BLOCK_OPT.
Proof. apply fill_defaults_union. Qed.

Lemma node_block_opt_union
    (node_block_opt : option (gmap string optval)) (default_reducer : reducer) :
  _make_default_node_block_opt node_block_opt default_reducer
  = dict_or_empty node_block_opt
    ∪ list_to_map (_DEFAULT_NODE_BLOCK_OPT
                   ++ [("received_edges_reducer", OReducer default_reducer);
                       ("sent_edges_reducer", OReducer default_reducer)]).
Proof.
  unfold _make_default_node_block_opt. rewrite !fill_defaults_union.
  rewrite list_to_map_app, (assoc_L (∪)). reflexivity.
Qed.

Lemma global_block_opt_union
    (global_block_opt : option (gmap string optval)) (default_reducer : reducer) :
  _make_default_global_block_opt global_block_opt default_reducer
  = dict_or_empty global_block_opt
    ∪ list_to_map (_DEFAULT_GLOBAL_BLOCK_OPT
                   ++ [("edges_reducer", OReducer default_reducer);
                       ("nodes_reducer", OReducer default_reducer)]).
Proof.
  unfold _make_default_global_block_opt. rewrite !fill_defaults_union.
  rewrite list_to_map_app, (assoc_L (∪)). reflexivity.
Qed.

Lemma lookup_union_given (opt defaults : gmap string optval) (k : string) (v : optval) :
  opt !! k = Some v -> (opt ∪ defaults) !! k = Some v.
Proof. intros H. rewrite lookup_union, H. destruct (defaults !! k); reflexivity. Qed.

Lemma lookup_union_missing (opt defaults : gmap string optval) (k : string) :
  opt !! k = None -> (opt ∪ defaults) !! k = defaults !! k.
Proof. intros H. rewrite lookup_union, H. destruct (defaults !! k); reflexivity. Qed.

(** X1. In the dictionary [_make_default_edge_block_opt] returns, an entry
    of the given options is kept as it is (also under a key that is no
    option of the block), each of the four use flags that is not given is
    [True], and no other key is added.  [None] and the empty dictionary give
    the same result. *)
Theorem make_default_edge_block_opt_lookup
    (edge_block_opt : gmap string optval) (k : string) :
  (forall v, edge_block_opt !! k = Some v ->
             _make_default_edge_block_opt (Some edge_block_opt) !! k = Some v) /\
  (edge_block_opt !! k = None ->
   _make_default_edge_block_opt (Some edge_block_opt) !! k
   = if bool_decide (k ∈ ["use_edges"; "use_receiver_nodes";
                          "use_sender_nodes"; "use_globals"])
     then Some (OBool true) else None) /\
  _make_default_edge_block_opt None = _make_default_edge_block_opt (Some ∅).
Proof.
  rewrite edge_block_opt_union. simpl. split; [|split].
  - intros v Hv. apply lookup_union_given, Hv.
  - intros Hk. rewrite lookup_union_missing by exact Hk.
    case_bool_decide as Hin.
    + repeat (apply elem_of_cons in Hin as [->|Hin]; [reflexivity|]).
      apply elem_of_nil in Hin. contradiction.
    + unfold _DEFAULT_EDGE_BLOCK_OPT. simpl.
      rewrite !lookup_insert_ne, lookup_empty; [reflexivity| | | |];
        intros <-; apply Hin; set_solver.
  - reflexivity.
Qed.

(** X2. In the dictionary [_make_default_node_block_opt] returns, an entry
    of the given options is kept; a flag that is not given is [False] for
    [use_sent_edges] and [True] for the other three; a reducer that is not
    given is [default_reducer]; no other key is added. *)
Theorem make_default_node_block_opt_lookup
    (node_block_opt : gmap string optval) (default_reducer : reducer) (k : string) :
  (forall v, node_block_opt !! k = Some v ->
             _make_default_node_block_opt (Some node_block_opt) default_reducer !! k
             = Some v) /\
  (node_block_opt !! k = None ->
   _make_default_node_block_opt (Some node_block_opt) default_reducer !! k
   = if bool_decide (k ∈ ["use_received_edges"; "use_nodes"; "use_globals"])
     then Some (OBool true)
     else if bool_decide (k = "use_sent_edges") then Some (OBool false)
     else if bool_decide (k ∈ ["received_edges_reducer"; "sent_edges_reducer"])
     then Some (OReducer default_reducer)
     else None).
Proof.
  rewrite node_block_opt_union. simpl dict_or_empty. split.
  - intros v Hv. apply lookup_union_given, Hv.
  - intros Hk. rewrite lookup_union_missing by exact Hk.
    repeat case_bool_decide; subst;
      repeat match goal with
             | H : _ ∈ _ :: _ |- _ => apply elem_of_cons in H as [->|H]
             | H : _ ∈ [] |- _ => apply elem_of_nil in H; contradiction
             end; try reflexivity.
    unfold _DEFAULT_NODE_BLOCK_OPT. simpl.
    rewrite !lookup_insert_ne, lookup_empty; [reflexivity|..];
      intros <-; set_solver.
Qed.

(** X3. In the dictionary [_make_default_global_block_opt] returns, an
    entry of the given options is kept; a use flag that is not given is
    [True]; a reducer that is not given is [default_reducer]; no other key is
    added. *)
Theorem make_default_global_block_opt_lookup
    (global_block_opt : gmap string optval) (default_reducer : reducer) (k : string) :
  (forall v, global_block_opt !! k = Some v ->
             _make_default_global_block_opt (Some global_block_opt) default_reducer !! k
             = Some v) /\
  (global_block_opt !! k = None ->
   _make_default_global_block_opt (Some global_block_opt) default_reducer !! k
   = if bool_decide (k ∈ ["use_edges"; "use_nodes"; "use_globals"])
     then Some (OBool true)
     else if bool_decide (k ∈ ["edges_reducer"; "nodes_reducer"])
     then Some (OReducer default_reducer)
     else None).
Proof.
  rewrite global_block_opt_union. simpl dict_or_empty. split.
  - intros v Hv. apply lookup_union_given, Hv.
  - intros Hk. rewrite lookup_union_missing by exact Hk.
    repeat case_bool_decide; subst;
      repeat match goal with
             | H : _ ∈ _ :: _ |- _ => apply elem_of_cons in H as [->|H]
             | H : _ ∈ [] |- _ => apply elem_of_nil in H; contradiction
             end; try reflexivity.
    unfold _DEFAULT_GLOBAL_BLOCK_OPT. simpl.
    rewrite !lookup_insert_ne, lookup_empty; [reflexivity|..];
      intros <-; set_solver.
Qed.

Lemma flag_union (opt defaults : gmap string optval) (k : string) (d d' : bool) :
  defaults !! k = Some (OBool d') ->
  flag (opt ∪ defaults) k d = flag opt k d'.
Proof.
  intros Hk. unfold flag. rewrite lookup_union, Hk.
  destruct (opt !! k); reflexivity.
Qed.

Lemma reducer_arg_union (opt defaults : gmap string optval) (k : string) (r : reducer) :
  defaults !! k = Some (OReducer r) ->
  reducer_arg (opt ∪ defaults) k = as_reducer (default (OReducer r) (opt !! k)).
Proof.
  intros Hk. unfold reducer_arg. rewrite lookup_union, Hk.
  destruct (opt !! k); reflexivity.
Qed.

(** X4. Whenever [GraphNetwork] is constructed, each flag of its blocks is the
    truth value of the option given for it, or its default when none is
    given ([False] for [use_sent_edges], [True] otherwise), and each reducer
    is the one given in the block options, or else the [reducer] argument. *)
Theorem GraphNetwork_init_options
    (edge_model_fn node_model_fn global_model_fn : model) (reducer : reducer)
    (edge_block_opt node_block_opt global_block_opt : option (gmap string optval))
    (net : GraphNetwork) :
  GraphNetwork_init edge_model_fn node_model_fn global_model_fn reducer
                    edge_block_opt node_block_opt global_block_opt = Ok net ->
  let eo := dict_or_empty edge_block_opt in
  let no := dict_or_empty node_block_opt in
  let go := dict_or_empty global_block_opt in
  gn_edge_block net
  = mkEdgeBlock edge_model_fn
      (flag eo "use_edges" true) (flag eo "use_receiver_nodes" true)
      (flag eo "use_sender_nodes" true) (flag eo "use_globals" true) /\
  gn_node_block net
  = mkNodeBlock node_model_fn
      (flag no "use_received_edges" true) (flag no "use_sent_edges" false)
      (flag no "use_nodes" true) (flag no "use_globals" true)
      (as_reducer (default (OReducer reducer) (no !! "received_edges_reducer")))
      (as_reducer (default (OReducer reducer) (no !! "sent_edges_reducer"))) /\
  gn_global_block net
  = mkGlobalBlock global_model_fn
      (flag go "use_edges" true) (flag go "use_nodes" true)
      (flag go "use_globals" true)
      (as_reducer (default (OReducer reducer) (go !! "edges_reducer")))
      (as_reducer (default (OReducer reducer) (go !! "nodes_reducer"))).
Proof.
  intros H eo no go. unfold GraphNetwork_init in H.
  inv_bind H. inv_bind H. inv_bind H. injection H as <-. simpl.
  unfold EdgeBlock_init in Hstep. inv_bind Hstep. inv_bind Hstep.
  injection Hstep as <-.
  unfold NodeBlock_init in Hstep0. inv_bind Hstep0. inv_bind Hstep0.
  injection Hstep0 as <-.
  unfold GlobalBlock_init in Hstep1. inv_bind Hstep1. inv_bind Hstep1.
  injection Hstep1 as <-.
  clear. rewrite edge_block_opt_union.
  rewrite node_block_opt_union.
  rewrite global_block_opt_union.
  fold eo no go.
  rewrite !(flag_union eo _ _ true true) by reflexivity.
  rewrite (flag_union no _ "use_sent_edges" true false) by reflexivity.
  rewrite !(flag_union no _ _ true true) by reflexivity.
  rewrite !(flag_union go _ _ true true) by reflexivity.
  rewrite !(reducer_arg_union _ _ _ reducer) by reflexivity.
  auto.
Qed.

Lemma GraphNetwork_init_options_witness :
  exists net,
    GraphNetwork_init identity_model identity_model identity_model
      tf_unsorted_segment_sum
      (Some {["use_globals" := OBool false]})
      (Some {["use_sent_edges" := OBool true]})
      None = Ok net /\
    eb_use_globals (gn_edge_block net) = false /\
    nb_use_sent_edges (gn_node_block net) = true.
Proof.
  eexists. split; [vm_compute; reflexivity|].
  match goal with |- eb_use_globals (gn_edge_block ?n) = _ /\ _ =>
    assert (H : GraphNetwork_init identity_model identity_model identity_model
      tf_unsorted_segment_sum
      (Some {["use_globals" := OBool false]})
      (Some {["use_sent_edges" := OBool true]})
      None = Ok n) by (vm_compute; reflexivity) end.
  apply GraphNetwork_init_options in H. destruct H as (He & Hn & _).
  split; [exact (f_equal eb_use_globals He) | exact (f_equal nb_use_sent_edges Hn)].
Defined.

(** ** GraphIndependent and BipartiteGraphIndependent *)

Lemma independent_model_then (f g : option model) (x y : option Tensor) :
  (exists m, independent_model f x = Ok m /\ independent_model g m = Ok y)
  <-> independent_model (then_model f g) x = Ok y.
Proof.
  destruct f as [f|], g as [g|]; simpl; split.
  - intros (m & H1 & H2). destruct x as [t|]; [|discriminate].
    inv_bind H1. injection H1 as <-. inv_bind H2. injection H2 as <-.
    rewrite Hstep. simpl. rewrite Hstep0. reflexivity.
  - intros H. destruct x as [t|]; [|discriminate].
    inv_bind H. inv_bind Hstep. injection H as <-.
    exists (Some a0). rewrite Hstep. simpl. rewrite Hstep0. auto.
  - intros (m & H1 & H2). injection H2 as <-. exact H1.
  - intros H. eauto.
  - intros (m & H1 & H2). injection H1 as <-. exact H2.
  - intros H. eauto.
  - intros (m & H1 & H2). congruence.
  - intros H. eauto.
Qed.

(** X5. [GraphIndependent] built without models returns its argument
    unchanged, whatever fields are [None]; and running one
    [GraphIndependent] on the result of another returns exactly what the
    [GraphIndependent] of the models in sequence returns. *)
Theorem GraphIndependent_identity_and_sequence
    (e1 n1 g1 e2 n2 g2 : option model) (graph out : GraphsTuple) :
  GraphIndependent_build (GraphIndependent_init None None None) graph = Ok graph /\
  ((exists mid,
      GraphIndependent_build (GraphIndependent_init e1 n1 g1) graph = Ok mid /\
      GraphIndependent_build (GraphIndependent_init e2 n2 g2) mid = Ok out)
   <-> GraphIndependent_build
         (GraphIndependent_init (then_model e1 e2) (then_model n1 n2)
                                (then_model g1 g2)) graph = Ok out).
Proof.
  split; [destruct graph; reflexivity|].
  unfold GraphIndependent_build, GraphIndependent_init. simpl. split.
  - intros (mid & H1 & H2). inv_binds H1. injection H1 as <-. simpl in H2.
    inv_binds H2. injection H2 as <-.
    rewrite (proj1 (independent_model_then e1 e2 _ _)) by eauto. simpl.
    rewrite (proj1 (independent_model_then n1 n2 _ _)) by eauto. simpl.
    rewrite (proj1 (independent_model_then g1 g2 _ _)) by eauto. reflexivity.
  - intros H. inv_binds H. injection H as <-.
    apply independent_model_then in Hstep as (me & He1 & He2).
    apply independent_model_then in Hstep0 as (mn & Hn1 & Hn2).
    apply independent_model_then in Hstep1 as (mg & Hg1 & Hg2).
    eexists. rewrite He1, Hn1, Hg1. simpl. split; [reflexivity|].
    simpl. rewrite He2, Hn2, Hg2. reflexivity.
Qed.

(** X6. [BipartiteGraphIndependent] built without models returns its
    argument unchanged; with models, each of [edges], [left_nodes],
    [right_nodes] and [globals] of the result is what its own model returns
    on that field of the argument, and the other fields are the
    argument's. *)
Theorem BipartiteGraphIndependent_fields {Rest : Type}
    (e l r g : option model) (graph out : BipartiteGraphsTuple Rest) :
  BipartiteGraphIndependent_build
    (BipartiteGraphIndependent_init None None None None) graph = Ok graph /\
  (BipartiteGraphIndependent_build (BipartiteGraphIndependent_init e l r g) graph
   = Ok out ->
   independent_model e (bp_edges graph) = Ok (bp_edges out) /\
   independent_model l (bp_left_nodes graph) = Ok (bp_left_nodes out) /\
   independent_model r (bp_right_nodes graph) = Ok (bp_right_nodes out) /\
   independent_model g (bp_globals graph) = Ok (bp_globals out) /\
   bp_rest out = bp_rest graph).
Proof.
  split; [destruct graph; reflexivity|].
  unfold BipartiteGraphIndependent_build, BipartiteGraphIndependent_init.
  simpl. intros H. inv_binds H. injection H as <-. simpl. auto.
Qed.

(** ** Fields the architectures do not read *)

(** Case analysis on every step of a block, for two calls that differ only
    in fields the block does not read. *)
Ltac same_steps :=
  simpl;
  repeat match goal with
         | |- context [bind ?m _] =>
             lazymatch m with
             | bind _ _ => fail
             | _ => destruct m; simpl; try reflexivity
             end
         end.

Lemma EdgeBlock_build_ignores_edges (b : EdgeBlock) (g : GraphsTuple)
    (x : option Tensor) :
  eb_use_edges b = false ->
  EdgeBlock_build b (replace_edges g x) = EdgeBlock_build b g.
Proof.
  intros Hf. unfold EdgeBlock_build. rewrite Hf.
  unfold broadcast_receiver_nodes_to_edges, broadcast_sender_nodes_to_edges,
    broadcast_globals_to_edges.
  same_steps.
Qed.

Lemma NodeBlock_build_ignores_connectivity (b : NodeBlock) (g : GraphsTuple)
    (e : option Tensor) (r s : option (list nat)) :
  nb_use_received_edges b = false -> nb_use_sent_edges b = false ->
  NodeBlock_build b (with_edges_and_connectivity g e r s)
  = do out <- NodeBlock_build b g; Ok (with_edges_and_connectivity out e r s).
Proof.
  intros H1 H2. unfold NodeBlock_build. rewrite H1, H2.
  unfold broadcast_globals_to_nodes.
  same_steps.
Qed.

Lemma GlobalBlock_build_ignores_connectivity (b : GlobalBlock) (g : GraphsTuple)
    (e : option Tensor) (r s : option (list nat)) :
  gb_use_edges b = false ->
  GlobalBlock_build b (with_edges_and_connectivity g e r s)
  = do out <- GlobalBlock_build b g; Ok (with_edges_and_connectivity out e r s).
Proof.
  intros H1. unfold GlobalBlock_build. rewrite H1.
  unfold NodesToGlobalsAggregator, num_graphs, with_edges_and_connectivity.
  same_steps.
Qed.

Lemma GlobalBlock_build_ignores_globals (b : GlobalBlock) (g : GraphsTuple)
    (x : option Tensor) :
  gb_use_globals b = false ->
  GlobalBlock_build b (replace_globals g x) = GlobalBlock_build b g.
Proof.
  intros H1. unfold GlobalBlock_build. rewrite H1.
  unfold EdgesToGlobalsAggregator, NodesToGlobalsAggregator, num_graphs.
  same_steps.
Qed.

(** X7. [DeepSets] reads neither the edge features nor the senders nor the
    receivers: with other values in these fields (also [None]) it returns in
    the same cases, with the same new nodes and globals, and the result
    carries the values these fields had in the argument. *)
Theorem DeepSets_ignores_edges_and_connectivity
    (node_model_fn global_model_fn : model) (reducer : reducer) (net : DeepSets)
    (g : GraphsTuple) (e : option Tensor) (r s : option (list nat)) :
  DeepSets_init node_model_fn global_model_fn reducer = Ok net ->
  DeepSets_build net (with_edges_and_connectivity g e r s)
  = do out <- DeepSets_build net g; Ok (with_edges_and_connectivity out e r s).
Proof.
  intros Hinit. vm_compute in Hinit. injection Hinit as <-.
  unfold DeepSets_build. cbn [ds_node_block ds_global_block].
  rewrite NodeBlock_build_ignores_connectivity by reflexivity.
  destruct (NodeBlock_build _ g) as [g1|err]; [|reflexivity].
  cbn [bind].
  apply GlobalBlock_build_ignores_connectivity. reflexivity.
Qed.

Lemma DeepSets_ignores_edges_and_connectivity_witness :
  exists net,
    DeepSets_init identity_model identity_model tf_unsorted_segment_sum = Ok net /\
    DeepSets_build net (with_edges_and_connectivity example_graph None None None)
    = do out <- DeepSets_build net example_graph;
      Ok (with_edges_and_connectivity out None None None).
Proof.
  eexists. split; [vm_compute; reflexivity|].
  apply (DeepSets_ignores_edges_and_connectivity
           identity_model identity_model tf_unsorted_segment_sum).
  vm_compute; reflexivity.
Defined.

(** X8. [CommNet] reads neither the edge features nor the globals of its
    argument: with other values in these two fields (also [None]) it returns
    in the same cases, with the same new nodes, and the result carries the
    values the two fields had in the argument. *)
Theorem CommNet_ignores_edges_and_globals
    (edge_model_fn node_encoder_model_fn node_model_fn : model)
    (reducer : reducer) (net : CommNet)
    (g : GraphsTuple) (e gl : option Tensor) :
  CommNet_init edge_model_fn node_encoder_model_fn node_model_fn reducer = Ok net ->
  CommNet_build net (replace_globals (replace_edges g e) gl)
  = do out <- CommNet_build net g; Ok (replace_globals (replace_edges out e) gl).
Proof.
  intros Hinit. vm_compute in Hinit. injection Hinit as <-.
  unfold CommNet_build.
  cbn [cn_edge_block cn_node_encoder_block cn_node_block].
  rewrite EdgeBlock_build_ignores_globals by reflexivity.
  rewrite EdgeBlock_build_ignores_edges by reflexivity.
  destruct (EdgeBlock_build _ g) as [g1|err]; [|reflexivity]. cbn [bind].
  rewrite NodeBlock_build_ignores_globals by reflexivity.
  destruct (NodeBlock_build _ g1) as [g2|err]; [|reflexivity]. cbn [bind].
  rewrite NodeBlock_build_ignores_globals by reflexivity.
  destruct (NodeBlock_build _ g2) as [g3|err]; reflexivity.
Qed.

Lemma CommNet_ignores_edges_and_globals_witness :
  exists net,
    CommNet_init identity_model identity_model identity_model
                 tf_unsorted_segment_sum = Ok net /\
    CommNet_build net (replace_globals (replace_edges example_graph None) None)
    = do out <- CommNet_build net example_graph;
      Ok (replace_globals (replace_edges out None) None).
Proof.
  eexists. split; [vm_compute; reflexivity|].
  apply (CommNet_ignores_edges_and_globals
           identity_model identity_model identity_model tf_unsorted_segment_sum).
  vm_compute; reflexivity.
Defined.

(** X9. [RelationNetwork] reads neither the edge features nor the globals of
    its argument: with other values in these two fields (also [None]) it
    returns in the same cases, with the same new globals; the edges of the
    result are those of the argument. *)
Theorem RelationNetwork_ignores_edges_and_globals
    (edge_model_fn global_model_fn : model) (reducer : reducer)
    (net : RelationNetwork) (g : GraphsTuple) (e gl : option Tensor) :
  RelationNetwork_init edge_model_fn global_model_fn reducer = Ok net ->
  RelationNetwork_build net (replace_globals (replace_edges g e) gl)
  = do out <- RelationNetwork_build net g; Ok (replace_edges out e).
Proof.
  intros Hinit. vm_compute in Hinit. injection Hinit as <-.
  unfold RelationNetwork_build. cbn [rn_edge_block rn_global_block].
  rewrite EdgeBlock_build_ignores_globals by reflexivity.
  rewrite EdgeBlock_build_ignores_edges by reflexivity.
  destruct (EdgeBlock_build _ g) as [g1|err]; [|reflexivity]. cbn [bind].
  rewrite GlobalBlock_build_ignores_globals by reflexivity.
  destruct (GlobalBlock_build _ g1) as [g2|err]; reflexivity.
Qed.

Lemma RelationNetwork_ignores_edges_and_globals_witness :
  exists net,
    RelationNetwork_init identity_model identity_model tf_unsorted_segment_sum
    = Ok net /\
    RelationNetwork_build net (replace_globals (replace_edges example_graph None) None)
    = do out <- RelationNetwork_build net example_graph;
      Ok (replace_edges out None).
Proof.
  eexists. split; [vm_compute; reflexivity|].
  apply (RelationNetwork_ignores_edges_and_globals
           identity_model identity_model tf_unsorted_segment_sum).
  vm_compute; reflexivity.
Defined.

(** ** Missing fields *)

(** X10. [InteractionNetwork] needs the nodes, the edges, the receivers and
    the senders: when [edges], [nodes] or [receivers] is [None] it raises
    [ValueError], and when [senders] is [None] it does not return. *)
Theorem InteractionNetwork_missing_field
    (edge_model_fn node_model_fn : model) (reducer : reducer)
    (net : InteractionNetwork) (g : GraphsTuple) :
  InteractionNetwork_init edge_model_fn node_model_fn reducer = Ok net ->
  (edges g = None \/ nodes g = None \/ receivers g = None ->
   InteractionNetwork_build net g = Raise ValueError) /\
  (senders g = None -> forall out, InteractionNetwork_build net g <> Ok out).
Proof.
  intros Hinit. vm_compute in Hinit. injection Hinit as <-.
  unfold InteractionNetwork_build, EdgeBlock_build,
    broadcast_receiver_nodes_to_edges, broadcast_sender_nodes_to_edges.
  cbn [in_edge_block in_node_block eb_use_edges eb_use_receiver_nodes
       eb_use_sender_nodes eb_use_globals collect].
  split.
  - intros H. destruct (edges g) as [e|]; [|reflexivity].
    destruct (nodes g) as [n|]; [|reflexivity].
    destruct (receivers g) as [r|]; [|reflexivity].
    destruct H as [H|[H|H]]; discriminate H.
  - intros Hs out. rewrite Hs.
    destruct (edges g) as [e|]; [|discriminate].
    destruct (nodes g) as [n|]; [|discriminate].
    destruct (receivers g) as [r|]; [|discriminate].
    simpl. destruct (tf_gather n r); discriminate.
Qed.

Lemma InteractionNetwork_missing_field_witness :
  exists net,
    InteractionNetwork_init identity_model identity_model tf_unsorted_segment_sum
    = Ok net /\
    InteractionNetwork_build net (replace_edges example_graph None)
    = Raise ValueError.
Proof.
  eexists. split; [vm_compute; reflexivity|].
  apply (InteractionNetwork_missing_field
           identity_model identity_model tf_unsorted_segment_sum);
    [vm_compute; reflexivity | left; reflexivity].
Defined.

(** X11. [RelationNetwork] and [CommNet] need the nodes, the receivers and
    the senders.  [RelationNetwork] raises [ValueError] when [nodes] or
    [receivers] is [None] and does not return when [senders] is [None];
    [CommNet] raises [ValueError] when [nodes] or [senders] is [None] and
    does not return when [receivers] is [None]. *)
Theorem RelationNetwork_CommNet_missing_field
    (edge_model_fn global_model_fn node_encoder_model_fn node_model_fn : model)
    (reducer : reducer) (rn : RelationNetwork) (cn : CommNet) (g : GraphsTuple) :
  RelationNetwork_init edge_model_fn global_model_fn reducer = Ok rn ->
  CommNet_init edge_model_fn node_encoder_model_fn node_model_fn reducer = Ok cn ->
  ((nodes g = None \/ receivers g = None ->
    RelationNetwork_build rn g = Raise ValueError) /\
   (senders g = None -> forall out, RelationNetwork_build rn g <> Ok out)) /\
  ((nodes g = None \/ senders g = None ->
    CommNet_build cn g = Raise ValueError) /\
   (receivers g = None -> forall out, CommNet_build cn g <> Ok out)).
Proof.
  intros Hrn Hcn. vm_compute in Hrn. injection Hrn as <-.
  vm_compute in Hcn. injection Hcn as <-.
  split; split.
  - unfold RelationNetwork_build, EdgeBlock_build,
      broadcast_receiver_nodes_to_edges.
    cbn [rn_edge_block eb_use_edges eb_use_receiver_nodes collect bind].
    intros H. destruct (nodes g) as [n|]; [|reflexivity].
    destruct (receivers g) as [r|]; [|reflexivity].
    destruct H as [H|H]; discriminate H.
  - unfold RelationNetwork_build, EdgeBlock_build,
      broadcast_receiver_nodes_to_edges, broadcast_sender_nodes_to_edges.
    cbn [rn_edge_block eb_use_edges eb_use_receiver_nodes eb_use_sender_nodes
         collect bind].
    intros Hs out. rewrite Hs.
    destruct (nodes g) as [n|]; [|discriminate].
    destruct (receivers g) as [r|]; [|discriminate].
    simpl. destruct (tf_gather n r); discriminate.
  - unfold CommNet_build, EdgeBlock_build, broadcast_sender_nodes_to_edges.
    cbn [cn_edge_block eb_use_edges eb_use_receiver_nodes eb_use_sender_nodes
         collect bind].
    intros H. destruct (nodes g) as [n|]; [|reflexivity].
    destruct (senders g) as [s|]; [|reflexivity].
    destruct H as [H|H]; discriminate H.
  - intros Hr out H. unfold CommNet_build in H.
    cbn [cn_edge_block cn_node_encoder_block cn_node_block] in H.
    inv_bind H. inv_bind H. inv_bind H.
    block_frame Hstep. block_frame Hstep0.
    unfold NodeBlock_build, ReceivedEdgesToNodesAggregator in Hstep1.
    cbn [nb_use_received_edges collect] in Hstep1. simpl in Hstep1.
    rewrite Hr in Hstep1. discriminate Hstep1.
Qed.

Lemma RelationNetwork_CommNet_missing_field_witness :
  exists rn cn,
    RelationNetwork_init identity_model identity_model tf_unsorted_segment_sum
    = Ok rn /\
    CommNet_init identity_model identity_model identity_model
                 tf_unsorted_segment_sum = Ok cn /\
    RelationNetwork_build rn (replace_nodes example_graph None) = Raise ValueError /\
    CommNet_build cn (replace_nodes example_graph None) = Raise ValueError.
Proof.
  eexists. eexists. split; [vm_compute; reflexivity|].
  split; [vm_compute; reflexivity|].
  destruct (RelationNetwork_CommNet_missing_field
              identity_model identity_model identity_model identity_model
              tf_unsorted_segment_sum _ _ (replace_nodes example_graph None)
              ltac:(vm_compute; reflexivity) ltac:(vm_compute; reflexivity))
    as ((H1 & _) & (H2 & _)).
  split; [apply H1 | apply H2]; left; reflexivity.
Defined.

(** ** The segment softmax: results and locality *)

Lemma softmax_weight_ext_segment (f g : nat -> R) (rc : list nat) (e : nat) :
  (forall e', In e' (in_edges rc (nth e rc 0)) -> f e' = g e') ->
  e < length rc ->
  softmax_weight f rc e = softmax_weight g rc e.
Proof.
  intros Hin He. unfold softmax_weight.
  rewrite (max_over_ext f g) by exact Hin.
  rewrite (Hin e) by (apply in_edges_spec; auto). f_equal.
  f_equal. apply map_ext_in. intros e' He'. rewrite (Hin e' He'). reflexivity.
Qed.

Lemma _unsorted_segment_softmax_Ok_inv (data out : Tensor) (ids : list nat) (n : nat) :
  _unsorted_segment_softmax data ids n = Ok out ->
  length ids = length (rows data) /\ Forall (fun i => i < n) ids.
Proof.
  unfold _unsorted_segment_softmax, tf_unsorted_segment_max. intros H.
  inv_bind H. apply segment_reduce_Ok_inv in Hstep as (Hl & Hr & _). auto.
Qed.

(** X12. With one segment id per row of [data], each below [num_segments],
    [_unsorted_segment_softmax] returns; and whatever it returns has the
    shape of [data], with rows of the size of the rows of [data]. *)
Theorem segment_softmax_returns
    (data : Tensor) (segment_ids : list nat) (num_segments : nat) :
  (length segment_ids = length (rows data) ->
   Forall (fun i => i < num_segments) segment_ids ->
   exists out, _unsorted_segment_softmax data segment_ids num_segments = Ok out) /\
  forall out, _unsorted_segment_softmax data segment_ids num_segments = Ok out ->
              shape out = shape data /\ (wf_tensor data -> wf_tensor out).
Proof.
  split.
  - intros Hl Hr. eexists. apply _unsorted_segment_softmax_Ok; assumption.
  - intros out H.
    destruct (_unsorted_segment_softmax_Ok_inv _ _ _ _ H) as (Hl & Hr).
    rewrite _unsorted_segment_softmax_Ok in H by assumption.
    injection H as <-. split.
    + unfold shape. simpl. rewrite length_softmax_rows by exact Hl. reflexivity.
    + intros Hwf. unfold wf_tensor, rowsize. simpl.
      apply Forall_softmax_rows, Hwf.
Qed.

(** X14. The result of [_unsorted_segment_softmax] on the rows of a segment
    depends on the rows of that segment only: two well-formed tensors of the
    same shape that agree on the rows of segment [s] give the same result
    rows there. *)
Theorem segment_softmax_local
    (data data' : Tensor) (segment_ids : list nat) (num_segments s : nat) :
  wf_tensor data -> wf_tensor data' ->
  shape data = shape data' ->
  length segment_ids = length (rows data) ->
  Forall (fun i => i < num_segments) segment_ids ->
  (forall e, e < length segment_ids -> nth e segment_ids 0 = s ->
             nth e (rows data) [] = nth e (rows data') []) ->
  exists out out',
    _unsorted_segment_softmax data segment_ids num_segments = Ok out /\
    _unsorted_segment_softmax data' segment_ids num_segments = Ok out' /\
    forall e, e < length segment_ids -> nth e segment_ids 0 = s ->
              nth e (rows out) [] = nth e (rows out') [].
Proof.
  intros Hwf Hwf' Hshape Hl Hr Hsame.
  unfold shape in Hshape. injection Hshape as Hlen Hin.
  assert (Hk : rowsize data' = rowsize data) by (unfold rowsize; congruence).
  eexists. eexists.
  split; [apply _unsorted_segment_softmax_Ok; assumption|].
  split; [apply _unsorted_segment_softmax_Ok; [congruence|assumption]|].
  simpl. intros e He Hs. rewrite Hk.
  assert (Hwf2 : Forall (fun r => length r = rowsize data) (rows data'))
    by (rewrite <- Hk; exact Hwf').
  apply (nth_ext _ _ 0%R 0%R).
  - rewrite !(Forall_nth_rows (rowsize data));
      try apply Forall_softmax_rows;
      rewrite ?length_softmax_rows; try assumption; try congruence.
  - intros h Hh.
    rewrite (Forall_nth_rows (rowsize data)) in Hh;
      [| apply Forall_softmax_rows, Hwf
       | rewrite length_softmax_rows by exact Hl; congruence ].
    rewrite !softmax_rows_entry; try assumption; try congruence.
    apply softmax_weight_ext_segment; [|exact He].
    intros e' He'. apply in_edges_spec in He' as [He' Hs'].
    rewrite (Hsame e' He') by congruence. reflexivity.
Qed.

Lemma segment_softmax_local_witness :
  exists out out',
    _unsorted_segment_softmax (mkTensor [1] [[1%R]; [3%R]; [5%R]]) [1; 0; 1] 2
    = Ok out /\
    _unsorted_segment_softmax (mkTensor [1] [[1%R]; [9%R]; [5%R]]) [1; 0; 1] 2
    = Ok out' /\
    forall e, e < 3 -> nth e [1; 0; 1] 0 = 1 ->
              nth e (rows out) [] = nth e (rows out') [].
Proof.
  apply (segment_softmax_local
           (mkTensor [1] [[1%R]; [3%R]; [5%R]])
           (mkTensor [1] [[1%R]; [9%R]; [5%R]]) [1; 0; 1] 2 1).
  - repeat constructor.
  - repeat constructor.
  - reflexivity.
  - reflexivity.
  - repeat constructor.
  - intros [|[|[|e]]] He Hs; simpl in *; try reflexivity; try discriminate; lia.
Defined.

(** ** Self-attention: unread fields, missing connectivity *)

(** X16. [SelfAttention] reads only the senders, the receivers and [n_node]
    of [attention_graph]: on a graph with the same three fields it returns
    in the same cases and puts the same node tensor into that graph; the
    node, edge and global features of [attention_graph] play no part. *)
Theorem SelfAttention_reads_connectivity_only
    (node_values node_keys node_queries : Tensor) (g g' : GraphsTuple) :
  senders g' = senders g -> receivers g' = receivers g -> n_node g' = n_node g ->
  SelfAttention_build node_values node_keys node_queries g'
  = do out <- SelfAttention_build node_values node_keys node_queries g;
    Ok (replace_nodes g' (nodes out)).
Proof.
  intros Hs Hr Hn.
  unfold SelfAttention_build, broadcast_sender_nodes_to_edges,
    broadcast_receiver_nodes_to_edges, _received_edges_normalizer,
    ReceivedEdgesToNodesAggregator.
  simpl. rewrite Hs, Hr, Hn.
  repeat match goal with
         | |- context [bind ?m _] =>
             lazymatch m with
             | bind _ _ => fail
             | _ => destruct m; simpl; try reflexivity
             end
         end.
Qed.

Lemma SelfAttention_reads_connectivity_only_witness :
  SelfAttention_build example_values example_keys example_queries
    (replace_globals (replace_edges (replace_nodes example_graph None) None) None)
  = do out <- SelfAttention_build example_values example_keys example_queries
                example_graph;
    Ok (replace_nodes
          (replace_globals (replace_edges (replace_nodes example_graph None) None)
                           None)
          (nodes out)).
Proof.
  apply (SelfAttention_reads_connectivity_only
           example_values example_keys example_queries example_graph);
    reflexivity.
Defined.

(** X17. [SelfAttention] needs the connectivity: it raises [ValueError] when
    the senders are [None], and does not return when the receivers are
    [None]. *)
Theorem SelfAttention_missing_connectivity
    (node_values node_keys node_queries : Tensor) (g : GraphsTuple) :
  (senders g = None ->
   SelfAttention_build node_values node_keys node_queries g = Raise ValueError) /\
  (receivers g = None ->
   forall out, SelfAttention_build node_values node_keys node_queries g <> Ok out).
Proof.
  unfold SelfAttention_build, broadcast_sender_nodes_to_edges,
    broadcast_receiver_nodes_to_edges.
  simpl. split.
  - intros ->. reflexivity.
  - intros -> out H. inv_bind H. inv_bind H. inv_bind H. discriminate Hstep1.
Qed.

(** ** Constructing EdgeGAT *)

Lemma known_keywords_Ok (kwargs : gmap string optval) (allowed : list string) :
  dom kwargs ⊆ (list_to_set allowed : gset string) ->
  known_keywords kwargs allowed = Ok tt.
Proof.
  intros H. unfold known_keywords. rewrite bool_decide_eq_true_2 by exact H.
  reflexivity.
Qed.

Lemma GlobalBlock_init_default (global_model_fn : model) (r : reducer) :
  GlobalBlock_init global_model_fn (_make_default_global_block_opt None r)
  = Ok (mkGlobalBlock global_model_fn true true true r r).
Proof. vm_compute. reflexivity. Qed.

(** X19. For edge options with known keywords and no global options,
    [EdgeGAT] can be constructed exactly when [use_sender_nodes] is true or
    not given; otherwise the construction raises [AssertionError]. *)
Theorem EdgeGAT_init_succeeds_iff
    (attention_node_projection_model attention_edge_projection_model
       query_key_product_model node_model_fn edge_model_fn global_model_fn : model)
    (num_heads key_size value_size : nat)
    (edge_block_opt : option (gmap string optval)) :
  dom (dict_or_empty edge_block_opt)
    ⊆ (list_to_set ["use_edges"; "use_receiver_nodes"; "use_sender_nodes";
                    "use_globals"; "name"] : gset string) ->
  let init :=
    EdgeGAT_init attention_node_projection_model attention_edge_projection_model
                 query_key_product_model node_model_fn edge_model_fn global_model_fn
                 num_heads key_size value_size edge_block_opt None in
  ((exists gat, init = Ok gat)
   <-> flag (dict_or_empty edge_block_opt) "use_sender_nodes" true = true) /\
  (flag (dict_or_empty edge_block_opt) "use_sender_nodes" true = false ->
   init = Raise AssertionError).
Proof.
  intros Hdom init. unfold init, EdgeGAT_init, getitem.
  rewrite edge_block_opt_union.
  set (eo := dict_or_empty edge_block_opt) in *.
  assert (Hlk : (eo ∪ list_to_map _DEFAULT_EDGE_BLOCK_OPT) !! "use_sender_nodes"
                = Some (default (OBool true) (eo !! "use_sender_nodes"))).
  { rewrite lookup_union. destruct (eo !! "use_sender_nodes"); reflexivity. }
  rewrite Hlk. cbn [bind]. fold (flag eo "use_sender_nodes" true).
  destruct (flag eo "use_sender_nodes" true) eqn:Hflag.
  - split; [|discriminate]. split; [reflexivity|]. intros _.
    cbn [guard bind]. unfold EdgeBlock_init.
    rewrite known_keywords_Ok.
    + cbn [bind eb_use_edges eb_use_receiver_nodes eb_use_sender_nodes
           eb_use_globals].
      rewrite (flag_union eo _ "use_sender_nodes" true true) by reflexivity.
      rewrite Hflag.
      rewrite GlobalBlock_init_default.
      destruct (flag _ "use_edges" true), (flag _ "use_receiver_nodes" true);
        cbn [orb guard bind]; eexists; reflexivity.
    + rewrite dom_union. apply union_subseteq. split; [exact Hdom|].
      apply (bool_decide_unpack _). vm_compute. exact I.
  - split; [|reflexivity]. split; [|discriminate].
    intros (gat & H). discriminate H.
Qed.

Lemma EdgeGAT_init_succeeds_iff_witness :
  exists gat,
    EdgeGAT_init identity_model identity_model identity_model
                 identity_model identity_model identity_model 2 3 3
                 (Some {["use_edges" := OBool false]}) None = Ok gat.
Proof.
  apply (EdgeGAT_init_succeeds_iff
           identity_model identity_model identity_model
           identity_model identity_model identity_model 2 3 3
           (Some {["use_edges" := OBool false]})).
  - apply (bool_decide_unpack _). vm_compute. exact I.
  - reflexivity.
Defined.

(** ** The graph attention modules *)

Lemma EdgeGAT_init_uses_sender_nodes
    (attention_node_projection_model attention_edge_projection_model
       query_key_product_model node_model_fn edge_model_fn global_model_fn : model)
    (num_heads key_size value_size : nat)
    (edge_block_opt global_block_opt : option (gmap string optval))
    (gat : EdgeGAT) :
  EdgeGAT_init attention_node_projection_model attention_edge_projection_model
               query_key_product_model node_model_fn edge_model_fn global_model_fn
               num_heads key_size value_size edge_block_opt global_block_opt
  = Ok gat ->
  eb_use_sender_nodes (eg_edge_block gat) = true.
Proof.
  unfold EdgeGAT_init, getitem. intros H.
  destruct (_make_default_edge_block_opt edge_block_opt !! "use_sender_nodes")
    as [v|] eqn:Hv; [|discriminate H].
  cbn [bind] in H. inv_bind H. apply guard_Ok_inv in Hstep.
  inv_bind H. inv_bind H. injection H as <-. cbn [eg_edge_block].
  unfold EdgeBlock_init in Hstep0. inv_bind Hstep0. inv_bind Hstep0.
  injection Hstep0 as <-. cbn [eb_use_sender_nodes].
  unfold flag. rewrite Hv. exact Hstep.
Qed.

(** X20. Whenever [EdgeGAT] returns, the connectivity and the sizes of the
    graph are the input's, the new nodes are an output of the node model,
    the new edges are the edges the edge block computes on the input graph,
    and the new globals are an output of the model of the global block. *)
Theorem EdgeGAT_replaces_nodes_edges_globals
    (self : EdgeGAT) (graph_features out : GraphsTuple) :
  EdgeGAT_build self graph_features = Ok out ->
  receivers out = receivers graph_features /\
  senders out = senders graph_features /\
  n_node out = n_node graph_features /\
  n_edge out = n_edge graph_features /\
  (exists edge_graph e,
      EdgeBlock_build (eg_edge_block self) graph_features = Ok edge_graph /\
      edges edge_graph = Some e /\ edges out = Some e) /\
  (exists x t, eg_node_model self x = Ok t /\ nodes out = Some t) /\
  (exists x t, gb_model (eg_global_block self) x = Ok t /\ globals out = Some t).
Proof.
  unfold EdgeGAT_build. intros H.
  apply bind_Ok_inv in H as (edge_graph & Hedge & H).
  cbv zeta in H. inv_binds H.
  destruct a5 as [|k [|v [|? ?]]]; try discriminate H.
  inv_binds H.
  unfold GlobalBlock_build in H. inv_binds H. injection H as <-.
  apply require_Ok_inv in Hstep2.
  cbn. repeat split; eauto 6.
Qed.

Lemma EdgeGAT_replaces_nodes_edges_globals_witness :
  exists gat out,
    example_EdgeGAT = Ok gat /\
    EdgeGAT_build gat example_graph = Ok out /\
    receivers out = receivers example_graph /\
    senders out = senders example_graph /\
    n_node out = n_node example_graph /\
    n_edge out = n_edge example_graph /\
    (exists edge_graph e,
        EdgeBlock_build (eg_edge_block gat) example_graph = Ok edge_graph /\
        edges edge_graph = Some e /\ edges out = Some e) /\
    (exists x t, eg_node_model gat x = Ok t /\ nodes out = Some t) /\
    (exists x t, gb_model (eg_global_block gat) x = Ok t /\ globals out = Some t).
Proof.
  eexists. eexists. split; [vm_compute; reflexivity|].
  split; [vm_compute; reflexivity|].
  apply (EdgeGAT_replaces_nodes_edges_globals _ example_graph).
  vm_compute; reflexivity.
Defined.

(** X21. An [EdgeGAT] that its constructor returned raises [ValueError] on
    every graph without node features. *)
Theorem EdgeGAT_missing_nodes
    (attention_node_projection_model attention_edge_projection_model
       query_key_product_model node_model_fn edge_model_fn global_model_fn : model)
    (num_heads key_size value_size : nat)
    (edge_block_opt global_block_opt : option (gmap string optval))
    (gat : EdgeGAT) (graph_features : GraphsTuple) :
  EdgeGAT_init attention_node_projection_model attention_edge_projection_model
               query_key_product_model node_model_fn edge_model_fn global_model_fn
               num_heads key_size value_size edge_block_opt global_block_opt
  = Ok gat ->
  nodes graph_features = None ->
  EdgeGAT_build gat graph_features = Raise ValueError.
Proof.
  intros Hinit Hn. apply EdgeGAT_init_uses_sender_nodes in Hinit.
  unfold EdgeGAT_build, EdgeBlock_build. rewrite Hinit.
  unfold broadcast_receiver_nodes_to_edges, broadcast_sender_nodes_to_edges.
  rewrite Hn. unfold collect.
  destruct (eb_use_edges _); [destruct (require (edges graph_features)) as [?|[]] eqn:He|];
    destruct (eb_use_receiver_nodes _); try reflexivity;
    destruct (edges graph_features); discriminate He.
Qed.

Lemma EdgeGAT_missing_nodes_witness :
  exists gat,
    example_EdgeGAT = Ok gat /\
    EdgeGAT_build gat (replace_nodes example_graph None) = Raise ValueError.
Proof.
  eexists. split; [vm_compute; reflexivity|].
  apply (EdgeGAT_missing_nodes identity_model (sum_projection 2) (sum_projection 1)
           identity_model identity_model identity_model 1 1 1 None None);
    [vm_compute; reflexivity | reflexivity].
Defined.

(** X22. [EdgelessGAT._build] stops with [AttributeError] exactly when one
    of [num_heads], [key_size] and [value_size] is no attribute of the
    instance.  [__init__] sets none of them, so an [EdgelessGAT] as its
    constructor leaves it cannot be connected to any graph. *)
Theorem EdgelessGAT_build_after_init
    (attention_projection_model query_key_product_model node_model : model)
    (num_heads key_size value_size : nat)
    (self : EdgelessGAT) (graph_features : GraphsTuple) :
  (EdgelessGAT_build self graph_features = AttributeError
   <-> (elg_num_heads self = None \/ elg_key_size self = None \/
        elg_value_size self = None)) /\
  EdgelessGAT_build
    (EdgelessGAT_init attention_projection_model query_key_product_model
                      node_model num_heads key_size value_size)
    graph_features
  = AttributeError.
Proof.
  split; [|reflexivity].
  unfold EdgelessGAT_build, getattr.
  destruct (elg_num_heads self) as [h|]; [|tauto].
  destruct (elg_key_size self) as [k|]; [|tauto].
  destruct (elg_value_size self) as [v|]; [|tauto].
  split; [discriminate|].
  intros [H|[H|H]]; discriminate H.
Qed.

(** X23. Once the three sizes are attributes of the instance, whatever
    [EdgelessGAT] returns is the input graph with only [nodes] replaced, by
    an output of the node model. *)
Theorem EdgelessGAT_replaces_only_nodes
    (self : EdgelessGAT) (graph_features out : GraphsTuple) :
  EdgelessGAT_build self graph_features = Attr (Ok out) ->
  exists x t, elg_node_model self x = Ok t /\
              out = replace_nodes graph_features (Some t).
Proof.
  unfold EdgelessGAT_build, getattr. intros H.
  destruct (elg_num_heads self) as [h|]; [|discriminate H].
  destruct (elg_key_size self) as [k|]; [|discriminate H].
  destruct (elg_value_size self) as [v|]; [|discriminate H].
  injection H as H. cbv zeta in H. inv_binds H.
  destruct a2 as [|q' [|k' [|v' [|? ?]]]]; try discriminate H.
  inv_binds H. injection H as <-. eauto.
Qed.

Lemma EdgelessGAT_replaces_only_nodes_witness :
  exists out,
    EdgelessGAT_build example_EdgelessGAT example_graph = Attr (Ok out) /\
    exists x t, elg_node_model example_EdgelessGAT x = Ok t /\
                out = replace_nodes example_graph (Some t).
Proof.
  eexists. split; [vm_compute; reflexivity|].
  apply (EdgelessGAT_replaces_only_nodes example_EdgelessGAT example_graph).
  vm_compute; reflexivity.
Defined.
